(** * tlst-conv: the TLST binary codec and its JSON mapping

    A shallow embedding of [tlst.py].  Python's binary file objects are
    modelled as a byte buffer with a cursor, exceptions and possible
    non-termination as an outcome type threaded through a small state
    monad, [struct.pack]/[struct.unpack] and the UTF-8 codec as functions
    on byte lists. *)

From Stdlib Require Import String Ascii.
From Stdlib Require Import Strings.Byte.
From Stdlib Require Import ZArith Arith Bool List Lia.
Import ListNotations.
Local Open Scope Z_scope.
Set Warnings "-register-all".

(** ** Bytes *)

Definition byte_val (b : byte) : Z := Z.of_N (Byte.to_N b).

Definition byte_of (z : Z) : byte :=
  match Byte.of_N (Z.to_N (z mod 256)) with
  | Some b => b
  | None => x00
  end.

Definition byte_eqb (a b : byte) : bool := Byte.eqb a b.

Fixpoint bytes_eqb (a b : list byte) : bool :=
  match a, b with
  | [], [] => true
  | x :: a', y :: b' => byte_eqb x y && bytes_eqb a' b'
  | _, _ => false
  end.

(** ** Outcomes: a value, a raised exception, or no answer within the fuel *)

Inductive exn : Type :=
| StructError          (* struct.error *)
| UnicodeDecodeError
| UnicodeEncodeError
| IndexError
| TypeError
| KeyError
| ValueError.

Inductive outcome (A : Type) : Type :=
| Ret (a : A)
| Raise (e : exn)
| OutOfFuel.
Arguments Ret {A} a.
Arguments Raise {A} e.
Arguments OutOfFuel {A}.

(** ** State monad over a mutable store [S]; the store survives a raise *)

Definition M (S A : Type) : Type := S -> outcome A * S.

Definition ret {S A} (a : A) : M S A := fun s => (Ret a, s).

Definition lift {S A} (o : outcome A) : M S A := fun s => (o, s).

Definition bind {S A B} (m : M S A) (k : A -> M S B) : M S B :=
  fun s =>
    match m s with
    | (Ret a, s') => k a s'
    | (Raise e, s') => (Raise e, s')
    | (OutOfFuel, s') => (OutOfFuel, s')
    end.

Notation "x <- m ;; k" := (bind m (fun x => k))
  (at level 61, m at next level, right associativity).
Notation "m >> k" := (bind m (fun _ => k))
  (at level 61, right associativity).
Notation "m >>= k" := (bind m k) (at level 50, left associativity).

(** ** struct.pack / struct.unpack, big-endian formats used by the codec *)

Module struct.

Definition in_range (lo hi v : Z) : bool := (lo <=? v) && (v <=? hi).

(** [">I"] *)
Definition pack_I {S} (v : Z) : M S (list byte) :=
  if in_range 0 0xFFFFFFFF v
  then ret [byte_of (v / 16777216); byte_of (v / 65536); byte_of (v / 256); byte_of v]
  else lift (Raise StructError).

(** [">H"] *)
Definition pack_H {S} (v : Z) : M S (list byte) :=
  if in_range 0 0xFFFF v
  then ret [byte_of (v / 256); byte_of v]
  else lift (Raise StructError).

(** [">b"] *)
Definition pack_b {S} (v : Z) : M S (list byte) :=
  if in_range (-128) 127 v
  then ret [byte_of v]
  else lift (Raise StructError).

(** [">?"] *)
Definition pack_bool {S} (v : bool) : M S (list byte) :=
  ret [if v then x01 else x00].

Definition unpack_I {S} (bs : list byte) : M S Z :=
  match bs with
  | [b0; b1; b2; b3] =>
      ret (((byte_val b0 * 256 + byte_val b1) * 256 + byte_val b2) * 256 + byte_val b3)
  | _ => lift (Raise StructError)
  end.

Definition unpack_H {S} (bs : list byte) : M S Z :=
  match bs with
  | [b0; b1] => ret (byte_val b0 * 256 + byte_val b1)
  | _ => lift (Raise StructError)
  end.

Definition unpack_b {S} (bs : list byte) : M S Z :=
  match bs with
  | [b0] => ret (if byte_val b0 <? 128 then byte_val b0 else byte_val b0 - 256)
  | _ => lift (Raise StructError)
  end.

Definition unpack_bool {S} (bs : list byte) : M S bool :=
  match bs with
  | [b0] => ret (negb (byte_eqb b0 x00))
  | _ => lift (Raise StructError)
  end.

End struct.

(** ** Python [str] and the UTF-8 codec *)

(** A Python string is its sequence of code points. *)
Definition pystr : Type := list Z.

Definition py (s : string) : pystr :=
  map (fun a => Z.of_N (N_of_ascii a)) (list_ascii_of_string s).

Definition is_surrogate (c : Z) : bool := (0xD800 <=? c) && (c <=? 0xDFFF).

Definition utf8_encode_cp (c : Z) : option (list byte) :=
  if c <? 0 then None
  else if c <? 0x80 then Some [byte_of c]
  else if c <? 0x800 then Some [byte_of (0xC0 + c / 64); byte_of (0x80 + c mod 64)]
  else if c <? 0x10000 then
    if is_surrogate c then None
    else Some [byte_of (0xE0 + c / 4096); byte_of (0x80 + (c / 64) mod 64);
               byte_of (0x80 + c mod 64)]
  else if c <? 0x110000 then
    Some [byte_of (0xF0 + c / 262144); byte_of (0x80 + (c / 4096) mod 64);
          byte_of (0x80 + (c / 64) mod 64); byte_of (0x80 + c mod 64)]
  else None.

Fixpoint utf8_encode (s : pystr) : option (list byte) :=
  match s with
  | [] => Some []
  | c :: s' =>
      match utf8_encode_cp c, utf8_encode s' with
      | Some bs, Some r => Some (bs ++ r)
      | _, _ => None
      end
  end.

Definition is_cont (b : byte) : bool := (0x80 <=? byte_val b) && (byte_val b <=? 0xBF).

Definition cons_opt (c : Z) (r : option pystr) : option pystr :=
  match r with Some s => Some (c :: s) | None => None end.

(** Strict decoder: shortest form only, no surrogates, at most U+10FFFF. *)
Fixpoint utf8_decode (bs : list byte) : option pystr :=
  match bs with
  | [] => Some []
  | b0 :: r0 =>
      let v0 := byte_val b0 in
      if v0 <? 0x80 then cons_opt v0 (utf8_decode r0)
      else if v0 <? 0xC2 then None
      else if v0 <? 0xE0 then
        match r0 with
        | b1 :: r1 =>
            if is_cont b1
            then cons_opt ((v0 - 0xC0) * 64 + (byte_val b1 - 0x80)) (utf8_decode r1)
            else None
        | _ => None
        end
      else if v0 <? 0xF0 then
        match r0 with
        | b1 :: b2 :: r2 =>
            let c := (v0 - 0xE0) * 4096 + (byte_val b1 - 0x80) * 64 + (byte_val b2 - 0x80) in
            if is_cont b1 && is_cont b2 && (0x800 <=? c) && negb (is_surrogate c)
            then cons_opt c (utf8_decode r2)
            else None
        | _ => None
        end
      else if v0 <? 0xF5 then
        match r0 with
        | b1 :: b2 :: b3 :: r3 =>
            let c := (v0 - 0xF0) * 262144 + (byte_val b1 - 0x80) * 4096
                     + (byte_val b2 - 0x80) * 64 + (byte_val b3 - 0x80) in
            if is_cont b1 && is_cont b2 && is_cont b3 && (0x10000 <=? c) && (c <? 0x110000)
            then cons_opt c (utf8_decode r3)
            else None
        | _ => None
        end
      else None
  end.

(** [s.encode("utf-8")] and [data.decode("utf-8")] *)
Definition str_encode {S} (s : pystr) : M S (list byte) :=
  match utf8_encode s with
  | Some bs => ret bs
  | None => lift (Raise UnicodeEncodeError)
  end.

Definition bytes_decode {S} (bs : list byte) : M S pystr :=
  match utf8_decode bs with
  | Some s => ret s
  | None => lift (Raise UnicodeDecodeError)
  end.

(** ** Binary file objects *)

Record file : Type := { data : list byte; pos : nat }.

(** [f.read(n)]: at most [n] bytes, fewer at end of file, none past it. *)
Definition f_read (n : nat) : M file (list byte) :=
  fun f =>
    let bs := firstn n (skipn (pos f) (data f)) in
    (Ret bs, {| data := data f; pos := (pos f + length bs)%nat |}).

(** [f.seek(p, io.SEEK_SET)] *)
Definition f_seek (p : nat) : M file nat :=
  fun f => (Ret p, {| data := data f; pos := p |}).

(** [f.seek(d, io.SEEK_CUR)] *)
Definition f_seek_cur (d : nat) : M file nat :=
  fun f => (Ret (pos f + d)%nat, {| data := data f; pos := (pos f + d)%nat |}).

(** [f.seek(0, io.SEEK_END)] *)
Definition f_seek_end : M file nat :=
  fun f => (Ret (length (data f)), {| data := data f; pos := length (data f) |}).

(** [f.tell()] *)
Definition f_tell : M file nat := fun f => (Ret (pos f), f).

(** [f.write(bs)]: overwrite at the cursor, extending the file; a cursor
    past the end leaves a gap of zero bytes.  Writing no bytes does nothing. *)
Definition f_write (bs : list byte) : M file unit :=
  fun f =>
    match bs with
    | [] => (Ret tt, f)
    | _ =>
        (Ret tt,
         {| data := firstn (pos f) (data f) ++ repeat x00 (pos f - length (data f))
                    ++ bs ++ skipn (pos f + length bs) (data f);
            pos := (pos f + length bs)%nat |})
    end.

(** ** Record model *)

Record TLSTEntry : Type := {
  songId : Z;
  delay : Z;
  volume : Z;
  frequency : Z;
  switch : Z;
  disablePinch : bool;
  disableTlstInclusion : bool;
  title : pystr;
  filename : pystr
}.

(** [TLSTEntry.__init__] *)
Definition TLSTEntry_init : TLSTEntry :=
  {| songId := 0; delay := 0; volume := 0; frequency := 0; switch := 0;
     disablePinch := false; disableTlstInclusion := false;
     title := []; filename := [] |}.

Definition set_title (e : TLSTEntry) (s : pystr) : TLSTEntry :=
  {| songId := songId e; delay := delay e; volume := volume e;
     frequency := frequency e; switch := switch e;
     disablePinch := disablePinch e;
     disableTlstInclusion := disableTlstInclusion e;
     title := s; filename := filename e |}.

Definition set_filename (e : TLSTEntry) (s : pystr) : TLSTEntry :=
  {| songId := songId e; delay := delay e; volume := volume e;
     frequency := frequency e; switch := switch e;
     disablePinch := disablePinch e;
     disableTlstInclusion := disableTlstInclusion e;
     title := title e; filename := s |}.

Record TLST : Type := { tracks : list TLSTEntry }.

(** ** Binary decoding: [readNTString] and [TLST.fromTlst] *)

(** The [while (c := f.read(1)) != b"\x00": data += c] loop.  One unit of
    fuel per iteration; at end of file [f.read(1)] is the empty bytes
    object, which is not [b"\x00"], so the loop goes on. *)
Fixpoint readNTString_loop (fuel : nat) (acc : list byte) : M file (list byte) :=
  match fuel with
  | O => lift OutOfFuel
  | S fuel' =>
      c <- f_read 1 ;;
      if bytes_eqb c [x00] then ret acc
      else readNTString_loop fuel' (acc ++ c)
  end.

Definition readNTString (fuel : nat) : M file pystr :=
  readNTString_loop fuel [] >>= bytes_decode.

(** Lines 156-169: the fixed 16-byte record of entry [x]; yields the entry
    (strings still at their defaults) with its filename and title offsets. *)
Definition read_fixed (x : nat) : M file (TLSTEntry * Z * Z) :=
  f_seek (x * 0x10 + 0xC) >>
  songId' <- f_read 4 >>= struct.unpack_I ;;
  delay' <- f_read 2 >>= struct.unpack_H ;;
  volume' <- f_read 1 >>= struct.unpack_b ;;
  frequency' <- f_read 1 >>= struct.unpack_b ;;
  filenameOffset <- f_read 2 >>= struct.unpack_H ;;
  titleOffset <- f_read 2 >>= struct.unpack_H ;;
  switch' <- f_read 2 >>= struct.unpack_H ;;
  disablePinch' <- f_read 1 >>= struct.unpack_bool ;;
  disableTlstInclusion' <- f_read 1 >>= struct.unpack_bool ;;
  ret ({| songId := songId'; delay := delay'; volume := volume';
          frequency := frequency'; switch := switch';
          disablePinch := disablePinch';
          disableTlstInclusion := disableTlstInclusion';
          title := title TLSTEntry_init;
          filename := filename TLSTEntry_init |},
       filenameOffset, titleOffset).

(** Lines 172-178: title first, then filename, each only when its offset is
    not 0xFFFF. *)
Definition read_strings (fuel : nat) (stringsOffset : Z)
    (entry : TLSTEntry) (filenameOffset titleOffset : Z) : M file TLSTEntry :=
  entry <- (if titleOffset =? 0xFFFF then ret entry
            else f_seek (Z.to_nat (titleOffset + stringsOffset)) >>
                 s <- readNTString fuel ;; ret (set_title entry s)) ;;
  entry <- (if filenameOffset =? 0xFFFF then ret entry
            else f_seek (Z.to_nat (filenameOffset + stringsOffset)) >>
                 s <- readNTString fuel ;; ret (set_filename entry s)) ;;
  ret entry.

Definition read_entry (fuel : nat) (stringsOffset : Z) (x : nat) : M file TLSTEntry :=
  r <- read_fixed x ;;
  let '(entry, filenameOffset, titleOffset) := r in
  read_strings fuel stringsOffset entry filenameOffset titleOffset.

(** [for x in range(numEntries)]: [n] iterations left, index [x]; the
    [break] when the cursor after the entry is at end of file. *)
Fixpoint entries_loop (fuel : nat) (stringsOffset : Z) (n x : nat)
    (entries : list TLSTEntry) : M file (list TLSTEntry) :=
  match n with
  | O => ret entries
  | S n' =>
      entry <- read_entry fuel stringsOffset x ;;
      let entries := entries ++ [entry] in
      here <- f_tell ;;
      eof <- f_seek_end ;;
      if (here =? eof)%nat then ret entries
      else entries_loop fuel stringsOffset n' (S x) entries
  end.

(** Lines 143-152: the header; the magic is skipped, not read. *)
Definition read_header : M file (Z * Z) :=
  f_seek 0x4 >>
  numEntries <- f_read 4 >>= struct.unpack_I ;;
  f_seek_cur 0x2 >>
  stringsOffset <- f_read 2 >>= struct.unpack_H ;;
  ret (numEntries, stringsOffset).

Definition fromTlst_body (fuel : nat) : M file TLST :=
  h <- read_header ;;
  let '(numEntries, stringsOffset) := h in
  entries <- entries_loop fuel stringsOffset (Z.to_nat numEntries) 0 [] ;;
  ret {| tracks := entries |}.

(** [TLST.fromTlst] on the content [buf] of the file at [path]. *)
Definition fromTlst (fuel : nat) (buf : list byte) : outcome TLST :=
  fst (fromTlst_body fuel {| data := buf; pos := 0 |}).

(** ** Binary encoding: [TLST.toTlst] *)

(** The store of [toTlst]: the receiver [self] and the output file [f]
    (opened with ["wb"], hence empty at the start). *)
Record world : Type := { self : TLST; out : file }.

(** [self.tracks] *)
Definition get_tracks : M world (list TLSTEntry) :=
  fun w => (Ret (tracks (self w)), w).

(** A file operation run on the output file of the store. *)
Definition on_file {A} (m : M file A) : M world A :=
  fun w => let '(r, f') := m (out w) in (r, {| self := self w; out := f' |}).

Definition w_write (bs : list byte) : M world unit := on_file (f_write bs).

Fixpoint for_each {S A} (l : list A) (body : A -> M S unit) : M S unit :=
  match l with
  | [] => ret tt
  | a :: l' => body a >> for_each l' body
  end.

Definition magic : list byte := [x54; x4c; x53; x54].

Definition placeholder : Z := 0xFFFF.

(** Lines 197-208: the fixed record with both offsets left at 0xFFFF. *)
Definition write_fixed (entry : TLSTEntry) : M world unit :=
  struct.pack_I (songId entry) >>= w_write >>
  struct.pack_H (delay entry) >>= w_write >>
  struct.pack_b (volume entry) >>= w_write >>
  struct.pack_b (frequency entry) >>= w_write >>
  struct.pack_H placeholder >>= w_write >>
  struct.pack_H placeholder >>= w_write >>
  struct.pack_H (switch entry) >>= w_write >>
  struct.pack_bool (disablePinch entry) >>= w_write >>
  struct.pack_bool (disableTlstInclusion entry) >>= w_write.

(** Lines 217-230 (filename, [slot = 0x8]) and 233-246 (title,
    [slot = 0xA]): the two blocks differ in the field and the slot only. *)
Definition write_string (stringsOffset x slot : nat) (s : pystr) : M world unit :=
  off <- on_file f_tell ;;
  match s with
  | [] => ret tt
  | _ =>
      str_encode s >>= w_write >>
      w_write [x00] >>
      prevOff <- on_file f_tell ;;
      on_file (f_seek (x * 0x10 + 0xC + slot)) >>
      struct.pack_H (Z.of_nat off - Z.of_nat stringsOffset) >>= w_write >>
      on_file (f_seek prevOff) >>
      ret tt
  end.

Definition getitem {S A} (l : list A) (x : nat) : M S A :=
  match nth_error l x with
  | Some a => ret a
  | None => lift (Raise IndexError)
  end.

(** [for x in range(0, len(self.tracks))]: [n] iterations left, index [x]. *)
Fixpoint strings_loop (stringsOffset n x : nat) : M world unit :=
  match n with
  | O => ret tt
  | S n' =>
      ts <- get_tracks ;;
      entry <- getitem ts x ;;
      write_string stringsOffset x 0x8 (filename entry) >>
      write_string stringsOffset x 0xA (title entry) >>
      strings_loop stringsOffset n' (S x)
  end.

Definition toTlst : M world unit :=
  w_write magic >>
  ts <- get_tracks ;;
  struct.pack_I (Z.of_nat (length ts)) >>= w_write >>
  on_file (f_seek 0xC) >>
  ts <- get_tracks ;;
  for_each ts write_fixed >>
  stringsOffset <- on_file f_tell ;;
  ts <- get_tracks ;;
  strings_loop stringsOffset (length ts) 0 >>
  totalSize <- on_file f_tell ;;
  on_file (f_seek 0x8) >>
  struct.pack_H (Z.of_nat totalSize) >>= w_write >>
  struct.pack_H (Z.of_nat stringsOffset) >>= w_write.

Definition fresh (t : TLST) : world :=
  {| self := t; out := {| data := []; pos := 0 |} |}.

(** The bytes [t.toTlst(path)] leaves in the file when it returns. *)
Definition toTlst_bytes (t : TLST) : outcome (list byte) :=
  match toTlst (fresh t) with
  | (Ret _, w) => Ret (data (out w))
  | (Raise e, _) => Raise e
  | (OutOfFuel, _) => OutOfFuel
  end.

(** ** JSON mapping *)

(** The Python values the JSON codec handles: what [json.load] builds from
    a document without fractional numbers, and the two classes of the
    model, whose attributes hold arbitrary values. *)
Inductive pyval : Type :=
| VNone
| VBool (b : bool)
| VInt (z : Z)
| VStr (s : pystr)
| VList (l : list pyval)
| VDict (d : list (pystr * pyval))
| VEntry (o_songId o_delay o_volume o_frequency o_switch
          o_disablePinch o_disableTlstInclusion o_title o_filename : pyval)
| VTLST (o_tracks : pyval).

(** A JSON document, as [json.dump] writes it and [json.load] parses it. *)
Inductive json : Type :=
| JNull
| JBool (b : bool)
| JInt (z : Z)
| JStr (s : pystr)
| JArr (items : list json)
| JObj (members : list (pystr * json)).

Fixpoint pystr_eqb (a b : pystr) : bool :=
  match a, b with
  | [], [] => true
  | x :: a', y :: b' => (x =? y) && pystr_eqb a' b'
  | _, _ => false
  end.

(** A [dict] keeps one binding per key, in order of first insertion. *)
Definition dict : Type := list (pystr * pyval).

Fixpoint dict_get (k : pystr) (d : dict) : option pyval :=
  match d with
  | [] => None
  | (k', v) :: d' => if pystr_eqb k k' then Some v else dict_get k d'
  end.

Fixpoint dict_set (k : pystr) (v : pyval) (d : dict) : dict :=
  match d with
  | [] => [(k, v)]
  | (k', v') :: d' =>
      if pystr_eqb k k' then (k', v) :: d' else (k', v') :: dict_set k v d'
  end.

(** [dict(pairs)] *)
Definition dict_of_pairs (ps : list (pystr * pyval)) : dict :=
  fold_left (fun d kv => dict_set (fst kv) (snd kv) d) ps [].

(** [k in d] *)
Definition dict_mem (k : pystr) (d : dict) : bool :=
  match dict_get k d with Some _ => true | None => false end.

(** [d[k]] *)
Definition dict_item (d : dict) (k : pystr) : outcome pyval :=
  match dict_get k d with
  | Some v => Ret v
  | None => Raise KeyError
  end.

Definition obind {A B} (o : outcome A) (k : A -> outcome B) : outcome B :=
  match o with
  | Ret a => k a
  | Raise e => Raise e
  | OutOfFuel => OutOfFuel
  end.

Notation "x <~ o ;; k" := (obind o (fun x => k))
  (at level 61, o at next level, right associativity).

(** [TLSTJsonEncoder.default] *)
Definition default (o : pyval) : outcome pyval :=
  match o with
  | VEntry a b c d e f g h i =>
      Ret (VDict [(py "songId", a); (py "delay", b); (py "volume", c);
                  (py "frequency", d); (py "switch", e);
                  (py "disablePinch", f); (py "disableTlstInclusion", g);
                  (py "title", h); (py "filename", i)])
  | VTLST t => Ret (VDict [(py "tracks", t)])
  | _ => Raise TypeError
  end.

(** The text layer of the [json] module, as far as it shows in the
    document.  An int is written and read through its decimal digits, of
    which CPython converts at most 4300 ([sys.get_int_max_str_digits()]);
    beyond that [int.__repr__] and [int(text)] raise ValueError. *)
Definition max_str_digits : Z := 4300.

Definition int_fits (z : Z) : bool := Z.abs z <? 10 ^ max_str_digits.

(** A string is written with every character outside ASCII escaped, a
    surrogate as the escape of its own code, and in JSON text the escape
    of a high surrogate followed by the escape of a low one denotes one
    code point: [json.load] reads it as such.  So the JSON string written
    for a Python string is that string with every such pair joined, from
    left to right. *)
Definition is_high (c : Z) : bool := (0xD800 <=? c) && (c <=? 0xDBFF).

Definition is_low (c : Z) : bool := (0xDC00 <=? c) && (c <=? 0xDFFF).

Fixpoint pair_surrogates (s : pystr) : pystr :=
  match s with
  | [] => []
  | c :: s' =>
      match s' with
      | c' :: s'' =>
          if is_high c && is_low c'
          then (0x10000 + (c - 0xD800) * 1024 + (c' - 0xDC00)) :: pair_surrogates s''
          else c :: pair_surrogates s'
      | [] => [c]
      end
  end.

(** [json.dump(o, cls=TLSTJsonEncoder)]: the encoder walks the value; for
    an object it cannot serialise itself, which here is an object of the
    model, it calls [default] and goes on with what [default] returns.
    One unit of fuel per level of the walk. *)
Fixpoint dumps (fuel : nat) (o : pyval) : outcome json :=
  match fuel with
  | O => OutOfFuel
  | S fuel' =>
      let fix items (l : list pyval) : outcome (list json) :=
        match l with
        | [] => Ret []
        | v :: l' => j <~ dumps fuel' v ;; js <~ items l' ;; Ret (j :: js)
        end in
      let fix members (d : list (pystr * pyval)) : outcome (list (pystr * json)) :=
        match d with
        | [] => Ret []
        | (k, v) :: d' =>
            j <~ dumps fuel' v ;; js <~ members d' ;;
            Ret ((pair_surrogates k, j) :: js)
        end in
      match o with
      | VNone => Ret JNull
      | VBool b => Ret (JBool b)
      | VInt z => if int_fits z then Ret (JInt z) else Raise ValueError
      | VStr s => Ret (JStr (pair_surrogates s))
      | VList l => js <~ items l ;; Ret (JArr js)
      | VDict d => ms <~ members d ;; Ret (JObj ms)
      | VEntry _ _ _ _ _ _ _ _ _ | VTLST _ => d <~ default o ;; dumps fuel' d
      end
  end.

(** [TLSTJsonDecoder.dict_to_object] *)
Definition dict_to_object (d : dict) : outcome pyval :=
  if dict_mem (py "songId") d then
    a <~ dict_item d (py "songId") ;;
    b <~ dict_item d (py "delay") ;;
    c <~ dict_item d (py "volume") ;;
    e <~ dict_item d (py "frequency") ;;
    f <~ dict_item d (py "switch") ;;
    g <~ dict_item d (py "disablePinch") ;;
    h <~ dict_item d (py "disableTlstInclusion") ;;
    i <~ dict_item d (py "title") ;;
    j <~ dict_item d (py "filename") ;;
    Ret (VEntry a b c e f g h i j)
  else if dict_mem (py "tracks") d then
    t <~ dict_item d (py "tracks") ;;
    Ret (VTLST t)
  else Ret (VDict d).

(** [json.load(f, cls=TLSTJsonDecoder)]: every JSON object becomes a
    [dict], which is handed to the object hook once its members are
    decoded. *)
Fixpoint loads (j : json) : outcome pyval :=
  let fix items (l : list json) : outcome (list pyval) :=
    match l with
    | [] => Ret []
    | v :: l' => o <~ loads v ;; os <~ items l' ;; Ret (o :: os)
    end in
  let fix members (ms : list (pystr * json)) : outcome (list (pystr * pyval)) :=
    match ms with
    | [] => Ret []
    | (k, v) :: ms' => o <~ loads v ;; os <~ members ms' ;; Ret ((k, o) :: os)
    end in
  match j with
  | JNull => Ret VNone
  | JBool b => Ret (VBool b)
  | JInt z => if int_fits z then Ret (VInt z) else Raise ValueError
  | JStr s => Ret (VStr s)
  | JArr l => os <~ items l ;; Ret (VList os)
  | JObj ms => ps <~ members ms ;; dict_to_object (dict_of_pairs ps)
  end.

(** The typed record model as Python values. *)
Definition entry_to_py (e : TLSTEntry) : pyval :=
  VEntry (VInt (songId e)) (VInt (delay e)) (VInt (volume e))
         (VInt (frequency e)) (VInt (switch e))
         (VBool (disablePinch e)) (VBool (disableTlstInclusion e))
         (VStr (title e)) (VStr (filename e)).

Definition tlst_to_py (t : TLST) : pyval :=
  VTLST (VList (map entry_to_py (tracks t))).

(** The JSON object of one entry: all nine members, in the encoder's order. *)
Definition entry_json (e : TLSTEntry) : json :=
  JObj [(py "songId", JInt (songId e)); (py "delay", JInt (delay e));
        (py "volume", JInt (volume e)); (py "frequency", JInt (frequency e));
        (py "switch", JInt (switch e));
        (py "disablePinch", JBool (disablePinch e));
        (py "disableTlstInclusion", JBool (disableTlstInclusion e));
        (py "title", JStr (title e)); (py "filename", JStr (filename e))].

(** ** Helpers of the statements *)

(** The 16-bit big-endian value stored at position [p] of a buffer. *)
Definition stored_H (buf : list byte) (p : nat) : outcome Z :=
  fst ((f_seek p >> f_read 2 >>= struct.unpack_H) {| data := buf; pos := 0 |}).

(** The entry of the one-entry scenario. *)
Definition song_a : TLSTEntry :=
  {| songId := 1; delay := 0; volume := 0; frequency := 0; switch := 0;
     disablePinch := false; disableTlstInclusion := false;
     title := py "Song A"; filename := py "song_a.brstm" |}.

Definition be16 (v : Z) : list byte := [byte_of (v / 256); byte_of v].

Definition be32 (v : Z) : list byte :=
  [byte_of (v / 16777216); byte_of (v / 65536); byte_of (v / 256); byte_of v].

(** A 12-byte header: tag, entry count, total size, strings offset. *)
Definition header_bytes (tag : list byte) (count size stringsOffset : Z) : list byte :=
  tag ++ be32 count ++ be16 size ++ be16 stringsOffset.

(** A 16-byte record with the given stored offsets and all else zero. *)
Definition record_bytes (filenameOffset titleOffset : Z) : list byte :=
  be32 0 ++ be16 0 ++ [x00; x00] ++ be16 filenameOffset ++ be16 titleOffset
  ++ be16 0 ++ [x00; x00].

(** An empty list behind four bytes that are not the tag. *)
Definition wrong_magic_buf : list byte :=
  header_bytes [x58; x58; x58; x58] 0 12 12.

(** One record whose filename offset points at the end of the buffer. *)
Definition dangling_offset_buf : list byte :=
  header_bytes magic 1 28 28 ++ record_bytes 0 0xFFFF.

(** A header that declares one entry and has none behind it. *)
Definition header_only_buf : list byte := header_bytes magic 1 12 12.

(** A header that declares two entries, one complete record and one stray
    byte behind it. *)
Definition stray_byte_buf : list byte :=
  header_bytes magic 2 29 28 ++ record_bytes 0xFFFF 0xFFFF ++ [x00].

(** A header that declares five entries followed by a single record. *)
Definition one_of_five_buf : list byte :=
  header_bytes magic 5 28 28 ++ record_bytes 0xFFFF 0xFFFF.

(** Two entries; only the first has a string, its filename. *)
Definition named_entry : TLSTEntry := set_filename TLSTEntry_init (py "a").

Definition two_tracks : TLST := {| tracks := [named_entry; TLSTEntry_init] |}.

(** A track object in which every member but "disablePinch" is present. *)
Definition no_disablePinch : json :=
  JObj [(py "songId", JInt 1); (py "delay", JInt 0); (py "volume", JInt 0);
        (py "frequency", JInt 0); (py "switch", JInt 0);
        (py "disableTlstInclusion", JBool false);
        (py "title", JStr (py "Song A")); (py "filename", JStr (py "song_a.brstm"))].

(** The header fields of a buffer: declared entry count and strings offset. *)
Definition header_of (buf : list byte) : outcome (Z * Z) :=
  fst (read_header {| data := buf; pos := 0 |}).

(** Entry [x] of a buffer as the loop body reads it, with the cursor the
    read leaves behind. *)
Definition entry_at (fuel : nat) (stringsOffset : Z) (x : nat) (buf : list byte)
  : outcome (TLSTEntry * nat) :=
  match read_entry fuel stringsOffset x {| data := buf; pos := 0 |} with
  | (Ret e, f') => Ret (e, pos f')
  | (Raise e, _) => Raise e
  | (OutOfFuel, _) => OutOfFuel
  end.

(** A computation that leaves the bytes of the file as they are. *)
Definition keeps_data {A} (m : M file A) : Prop :=
  forall f, data (snd (m f)) = data f.

(** The nine members of a track object. *)
Definition entry_keys : list pystr :=
  [py "songId"; py "delay"; py "volume"; py "frequency"; py "switch";
   py "disablePinch"; py "disableTlstInclusion"; py "title"; py "filename"].

(** A computation that leaves the receiver and its entries as they are. *)
Definition keeps_self {A} (m : M world A) : Prop :=
  forall w, self (snd (m w)) = self w.

(** The two walks inside [dumps] and [loads], by name. *)
Definition dumps_items (fuel : nat) : list pyval -> outcome (list json) :=
  fix items (l : list pyval) : outcome (list json) :=
    match l with
    | [] => Ret []
    | v :: l' => j <~ dumps fuel v ;; js <~ items l' ;; Ret (j :: js)
    end.

Definition loads_items : list json -> outcome (list pyval) :=
  fix items (l : list json) : outcome (list pyval) :=
    match l with
    | [] => Ret []
    | v :: l' => o <~ loads v ;; os <~ items l' ;; Ret (o :: os)
    end.

(** The fixed record of entry [x] of a buffer, with its stored filename and
    title offsets. *)
Definition fixed_at (x : nat) (buf : list byte) : outcome (TLSTEntry * Z * Z) :=
  fst (read_fixed x {| data := buf; pos := 0 |}).

(** A 0x00 byte occurs at or after position [p], before the end. *)
Definition nul_after (p : nat) (buf : list byte) : Prop := In x00 (skipn p buf).

(** A 3-byte file "hi\0" with the cursor at its start. *)
Definition hi_file : file := {| data := [x68; x69; x00]; pos := 0 |}.

(** A computation that uses no fuel: it returns or raises. *)
Definition never_diverges {S A} (m : M S A) : Prop :=
  forall s, fst (m s) <> OutOfFuel.

(** The bytes of the one-entry scenario. *)
Definition song_a_buf : list byte :=
  match toTlst_bytes {| tracks := [song_a] |} with
  | Ret buf => buf
  | _ => []
  end.

(** ** The layout the encoder is to produce *)

(** The numeric fields that [struct.pack] accepts. *)
Definition fields_ok (e : TLSTEntry) : bool :=
  struct.in_range 0 0xFFFFFFFF (songId e) && struct.in_range 0 0xFFFF (delay e)
  && struct.in_range (-128) 127 (volume e) && struct.in_range (-128) 127 (frequency e)
  && struct.in_range 0 0xFFFF (switch e).

Definition bool_byte (b : bool) : byte := if b then x01 else x00.

(** The 16 bytes of a record with the given stored offsets. *)
Definition fixed_bytes (e : TLSTEntry) (filenameOffset titleOffset : Z) : list byte :=
  be32 (songId e) ++ be16 (delay e) ++ [byte_of (volume e)] ++ [byte_of (frequency e)]
  ++ be16 filenameOffset ++ be16 titleOffset
  ++ be16 (switch e) ++ [bool_byte (disablePinch e)]
  ++ [bool_byte (disableTlstInclusion e)].

(** One string field against the string region built so far: the offset to
    store and the region after it.  An empty string keeps 0xFFFF and adds
    nothing; another one goes to the end of the region, NUL-terminated, and
    its offset is the size of the region before it. *)
Definition place (s : pystr) (region : list byte) : option (Z * list byte) :=
  match s with
  | [] => Some (0xFFFF, region)
  | _ =>
      match utf8_encode s with
      | Some bs =>
          if struct.in_range 0 0xFFFF (Z.of_nat (length region))
          then Some (Z.of_nat (length region), region ++ bs ++ [x00])
          else None
      | None => None
      end
  end.

(** The fixed records of the entries and the string region after them;
    filename before title for each entry. *)
Fixpoint lay_entries (es : list TLSTEntry) (region : list byte)
  : option (list byte * list byte) :=
  match es with
  | [] => Some ([], region)
  | e :: es' =>
      match place (filename e) region with
      | Some (fo, r1) =>
          match place (title e) r1 with
          | Some (to, r2) =>
              match lay_entries es' r2 with
              | Some (recs, r3) => Some (fixed_bytes e fo to ++ recs, r3)
              | None => None
              end
          | None => None
          end
      | None => None
      end
  end.

(** The whole file: header, records, strings; [None] when a field, an
    offset, the count or the total size does not fit, or a string cannot
    be encoded. *)
Definition layout (t : TLST) : option (list byte) :=
  let n := length (tracks t) in
  if struct.in_range 0 0xFFFFFFFF (Z.of_nat n) && forallb fields_ok (tracks t) then
    match lay_entries (tracks t) [] with
    | Some (recs, region) =>
        let stringsOffset := (12 + 16 * n)%nat in
        let totalSize := (stringsOffset + length region)%nat in
        if struct.in_range 0 0xFFFF (Z.of_nat totalSize)
        then Some (magic ++ be32 (Z.of_nat n) ++ be16 (Z.of_nat totalSize)
                   ++ be16 (Z.of_nat stringsOffset) ++ recs ++ region)
        else None
    | None => None
    end
  else None.

(** The encoder raised one of the two errors it can raise. *)
Definition fails {A} (r : outcome A * world) : Prop :=
  exists e w, r = (Raise e, w) /\ (e = StructError \/ e = UnicodeEncodeError).

(** The offsets of the layout: the size of the string region before the
    filename, and before the title, of entry [x]. *)
Definition string_size (s : pystr) : nat :=
  match s with
  | [] => 0
  | _ => match utf8_encode s with Some bs => length bs + 1 | None => 0 end
  end.

Definition entry_size (e : TLSTEntry) : nat :=
  (string_size (filename e) + string_size (title e))%nat.

Definition filename_offset (t : TLST) (x : nat) : Z :=
  Z.of_nat (list_sum (map entry_size (firstn x (tracks t)))).

Definition title_offset (t : TLST) (x : nat) : Z :=
  match nth_error (tracks t) x with
  | Some e => filename_offset t x + Z.of_nat (string_size (filename e))
  | None => 0
  end.

(** The store with receiver [t] and a file of bytes [d], cursor at [p]. *)
Definition mk (t : TLST) (d : list byte) (p : nat) : world :=
  {| self := t; out := {| data := d; pos := p |} |}.

(** The fixed records as the first pass writes them. *)
Definition placeholder_records (es : list TLSTEntry) : list byte :=
  concat (map (fun e => fixed_bytes e 0xFFFF 0xFFFF) es).

(** The eight bytes of a record before its offsets, the four after them. *)
Definition head8 (e : TLSTEntry) : list byte :=
  be32 (songId e) ++ be16 (delay e) ++ [byte_of (volume e)] ++ [byte_of (frequency e)].

Definition tail4 (e : TLSTEntry) : list byte :=
  be16 (switch e) ++ [bool_byte (disablePinch e)]
  ++ [bool_byte (disableTlstInclusion e)].

(** An entry as the fixed record alone gives it: both strings empty. *)
Definition without_strings (e : TLSTEntry) : TLSTEntry :=
  set_title (set_filename e []) [].

(** Where the strings of entry [x] end in the layout of [t]: behind the
    filename when there is one, else behind the title, else behind the
    fixed record.  For an entry whose strings are free of U+0000 this is
    the cursor the decoder is left with after reading it, the filename
    being read last ([entry_at_layout]); a string with a U+0000 in it is
    read up to there only, and the cursor stops short of this position. *)
Definition cursor_after (t : TLST) (x : nat) (e : TLSTEntry) : nat :=
  let stringsOffset := (12 + 16 * length (tracks t))%nat in
  match filename e, title e with
  | _ :: _, _ =>
      (stringsOffset + Z.to_nat (filename_offset t x) + string_size (filename e))%nat
  | [], _ :: _ =>
      (stringsOffset + Z.to_nat (title_offset t x) + string_size (title e))%nat
  | [], [] => (x * 0x10 + 0xC + 16)%nat
  end.

(** No U+0000 in the strings of an entry. *)
Definition nul_free (e : TLSTEntry) : Prop :=
  ~ In 0 (title e) /\ ~ In 0 (filename e).

(** Two entries with strings: Song A, then the entry named "a". *)
Definition two_songs : TLST := {| tracks := [song_a; named_entry] |}.

Definition two_songs_buf : list byte :=
  match toTlst_bytes two_songs with
  | Ret buf => buf
  | _ => []
  end.

(** The 32-bit big-endian value stored at position [p] of a buffer. *)
Definition stored_I (buf : list byte) (p : nat) : outcome Z :=
  fst ((f_seek p >> f_read 4 >>= struct.unpack_I) {| data := buf; pos := 0 |}).

(** Both strings of an entry can be encoded as UTF-8. *)
Definition strings_encodable (e : TLSTEntry) : Prop :=
  utf8_encode (filename e) <> None /\ utf8_encode (title e) <> None.

(** The bytes of the two-entry list in which only the first entry has a
    string. *)
Definition two_tracks_buf : list byte :=
  match toTlst_bytes two_tracks with
  | Ret buf => buf
  | _ => []
  end.

(** ** What a computation may return and raise *)

(** From a store that satisfies [P], every value the computation returns
    satisfies [Q] with the store it leaves, and so does every exception it
    raises with [E]. *)
Definition triple {S A} (P : S -> Prop) (m : M S A)
    (Q : A -> S -> Prop) (E : exn -> S -> Prop) : Prop :=
  forall s, P s ->
    match m s with
    | (Ret a, s') => Q a s'
    | (Raise e, s') => E e s'
    | (OutOfFuel, _) => True
    end.

(** The same without the store. *)
Definition ensures {S A} (m : M S A) (Q : A -> Prop) (E : exn -> Prop) : Prop :=
  triple (fun _ => True) m (fun a _ => Q a) (fun e _ => E e).

(** The two exceptions of the decoder. *)
Definition decode_error (e : exn) : Prop :=
  e = StructError \/ e = UnicodeDecodeError.

(** What holds of every decoded entry: numeric fields within their formats,
    strings without U+0000 that UTF-8 can encode. *)
Definition well_formed (e : TLSTEntry) : Prop :=
  fields_ok e = true /\ nul_free e /\ strings_encodable e.

(** One record whose title, at offset 0 of the string region, is the byte
    0xFF: not UTF-8. *)
Definition bad_utf8_buf : list byte :=
  header_bytes magic 1 30 28 ++ record_bytes 0xFFFF 0 ++ [xff; x00].

(** The string stored at position [p] of a buffer: the bytes from [p] up to
    the first 0x00, decoded as UTF-8. *)
Definition string_at (buf : list byte) (p : nat) (s : pystr) : Prop :=
  exists bs rest,
    skipn p buf = bs ++ x00 :: rest /\ ~ In x00 bs /\ utf8_decode bs = Some s.

(** The part of a string before its first U+0000. *)
Fixpoint until_nul (s : pystr) : pystr :=
  match s with
  | [] => []
  | c :: s' => if c =? 0 then [] else c :: until_nul s'
  end.

(** An entry with both strings cut at their first U+0000. *)
Definition cut_strings (e : TLSTEntry) : TLSTEntry :=
  set_title (set_filename e (until_nul (filename e))) (until_nul (title e)).

(** A title with a U+0000 in it. *)
Definition nul_title : TLSTEntry := set_title TLSTEntry_init [97; 0; 98].

Definition nul_title_buf : list byte :=
  match toTlst_bytes {| tracks := [nul_title] |} with
  | Ret buf => buf
  | _ => []
  end.

(** A file whose header is still open: it starts with the tag, and none of
    the four bytes at 0x8 to 0xB, where the total size and the strings
    offset go, holds anything but zero, as far as the file reaches. *)
Definition header_open (d : list byte) : Prop :=
  firstn 4 d = magic /\ forall i, (8 <= i < 12)%nat -> nth i d x00 = x00.

(** An entry whose delay does not fit its 16-bit field. *)
Definition long_delay : TLSTEntry :=
  {| songId := 1; delay := 0x10000; volume := 0; frequency := 0; switch := 0;
     disablePinch := false; disableTlstInclusion := false;
     title := []; filename := [] |}.

(** The header is open and the cursor is behind it, at [b] or further. *)
Definition behind_header (b : nat) (w : world) : Prop :=
  header_open (data (out w)) /\ (12 <= pos (out w))%nat /\ (b <= pos (out w))%nat.

(** The store an exception leaves: a file whose header is open. *)
Definition left_open (_ : exn) (w : world) : Prop := header_open (data (out w)).

(** ** Paths, the processor and the command line *)

(** [s.startswith(prefix)] *)
Fixpoint startswith (s prefix : pystr) : bool :=
  match prefix, s with
  | [], _ => true
  | a :: prefix', b :: s' => (b =? a) && startswith s' prefix'
  | _ :: _, [] => false
  end.

(** [s.endswith(suffix)] *)
Definition endswith (s suffix : pystr) : bool :=
  pystr_eqb (skipn (length s - length suffix) s) suffix.

(** [sub in s] *)
Fixpoint contains (s sub : pystr) : bool :=
  startswith s sub
  || match s with
     | [] => false
     | _ :: s' => contains s' sub
     end.

(** [s.replace(old, new)] for a non-empty [old]: the occurrences of [old]
    are taken from left to right, each starting behind the one before it.
    [skip] counts the characters of the occurrence just replaced that are
    still to be passed over. *)
Fixpoint replace_from (old new : pystr) (skip : nat) (s : pystr) : pystr :=
  match s with
  | [] => []
  | c :: s' =>
      match skip with
      | S k => replace_from old new k s'
      | O =>
          if startswith s old
          then new ++ replace_from old new (length old - 1) s'
          else c :: replace_from old new 0 s'
      end
  end.

Definition replace (s old new : pystr) : pystr := replace_from old new 0 s.

(** The text between the slashes of a path; [cur] is the component being
    read. *)
Fixpoint components (s cur : pystr) : list pystr :=
  match s with
  | [] => [cur]
  | c :: s' =>
      if c =? 47 then cur :: components s' [] else components s' (cur ++ [c])
  end.

(** [Path(s).name] on POSIX: the last component of the path, empty
    components and "." set aside; empty when there is none. *)
Definition Path_name (s : pystr) : pystr :=
  last (filter (fun c => negb (pystr_eqb c [] || pystr_eqb c (py ".")))
               (components s [])) [].

(** [os.path.join(a, b)] on POSIX *)
Definition os_path_join (a b : pystr) : pystr :=
  if startswith b (py "/") then b
  else if pystr_eqb a [] || endswith a (py "/") then a ++ b
  else a ++ py "/" ++ b.

(** What [argparse] hands to [main]: the positional [input] (one or more),
    [-x/--extract] and [-o/--output]. *)
Record args : Type := {
  input : list pystr;
  extract : bool;
  output : option pystr
}.

Section Processor.

(** The store is the file system and the terminal; [obj] is what the two
    loaders return. *)
Context {S obj : Type}.

(** [os.path.isdir], [os.walk] (the triples it yields, in its order),
    [os.makedirs(path, exist_ok=True)] and [print]. *)
Variable isdir : pystr -> M S bool.
Variable walk : pystr -> M S (list (pystr * list pystr * list pystr)).
Variable makedirs : pystr -> M S unit.
Variable print : pystr -> M S unit.

(** The four methods of [TLST] that take a path. *)
Variables TLST_fromJson TLST_fromTlst : pystr -> M S obj.
Variables TLST_toTlst TLST_toJson : obj -> pystr -> M S unit.

(** [TLSTProcessor.processJson] *)
Definition processJson (inputPath : pystr) (outPath : option pystr) : M S unit :=
  let outPath :=
    match outPath with
    | None => replace inputPath (py ".json") (py ".tlst")
    | Some p => p
    end in
  d <- isdir outPath ;;
  let outPath :=
    if d
    then os_path_join outPath (replace (Path_name inputPath) (py ".json") (py ".tlst"))
    else outPath in
  tlst <- TLST_fromJson inputPath ;;
  TLST_toTlst tlst outPath.

(** [TLSTProcessor.processTlst] *)
Definition processTlst (inputPath : pystr) (outPath : option pystr) : M S unit :=
  let outPath :=
    match outPath with
    | None => replace inputPath (py ".tlst") (py ".json")
    | Some p => p
    end in
  d <- isdir outPath ;;
  let outPath :=
    if d
    then os_path_join outPath (replace (Path_name inputPath) (py ".tlst") (py ".json"))
    else outPath in
  tlst <- TLST_fromTlst inputPath ;;
  TLST_toJson tlst outPath.

(** [TLSTProcessor.processFile]; the value is [errStatus]. *)
Definition processFile (inputPath : pystr) (outPath : option pystr) : M S bool :=
  if endswith inputPath (py ".json") then
    processJson inputPath outPath >> ret false
  else if endswith inputPath (py ".tlst") then
    processTlst inputPath outPath >> ret false
  else ret true.

(** [gatherFiles] *)
Definition gatherFiles (path extension : pystr) : M S (list pystr) :=
  triples <- walk path ;;
  ret (flat_map
         (fun '(root, _, files) =>
            map (os_path_join root)
                (filter (fun file => endswith file extension) files))
         triples).

(** [main], from the parsed arguments on. *)
Definition main (a : args) : M S unit :=
  let outPath := output a in
  r <- match input a with
       | [p] =>
           d <- isdir p ;;
           if d then
             paths <- gatherFiles p (if extract a then py ".tlst" else py ".json") ;;
             ret (true, paths)
           else ret (false, input a)
       | _ => ret (false, input a)
       end ;;
  let '(isDirMode, paths) := r in
  match isDirMode, outPath with
  | true, Some o => makedirs o
  | _, _ => ret tt
  end >>
  for_each paths
    (fun inputPath =>
       print inputPath >>
       processFile inputPath outPath >>
       ret tt).

End Processor.

(** An environment that only records.  The store is the list of the calls
    made so far, each with its arguments; a loaded object is the path it
    was loaded from.  The one directory is "out", in which [os.walk] finds
    three files. *)
Definition note (call : list pystr) : M (list (list pystr)) unit :=
  fun log => (Ret tt, log ++ [call]).

Definition rec_isdir (p : pystr) : M (list (list pystr)) bool :=
  ret (pystr_eqb p (py "out")).

Definition rec_walk (p : pystr)
  : M (list (list pystr)) (list (pystr * list pystr * list pystr)) :=
  ret [(p, [], [py "a.tlst"; py "b.json"; py "notes.txt"])].

Definition rec_makedirs (p : pystr) : M (list (list pystr)) unit :=
  note [py "makedirs"; p].

Definition rec_print (p : pystr) : M (list (list pystr)) unit :=
  note [py "print"; p].

Definition rec_load (name p : pystr) : M (list (list pystr)) pystr :=
  note [name; p] >> ret p.

Definition rec_store (name o p : pystr) : M (list (list pystr)) unit :=
  note [name; o; p].

(** A loader that records the call and then fails. *)
Definition rec_load_fails (name p : pystr) : M (list (list pystr)) pystr :=
  note [name; p] >> lift (Raise KeyError).

(** An entry without a filename and without a title. *)
Definition stringless (e : TLSTEntry) : Prop := filename e = [] /\ title e = [].

(** One entry whose filename has 65509 characters: with its terminator,
    the header and the record that makes 65538 bytes. *)
Definition long_name : TLSTEntry :=
  set_filename TLSTEntry_init (repeat 97 (Z.to_nat 65509)).

(** A file of one entry, a filename of fifteen characters at offset 0 and a
    title at offset 16, whose header declares two entries.  The sixteen
    bytes of the filename lie where the record of a second entry would. *)
Definition strings_as_record_buf : list byte :=
  header_bytes magic 2 46 28 ++ record_bytes 0 16
  ++ repeat x61 15 ++ [x00] ++ [x62; x00].

(** An entry that passes the text layer unchanged: no number beyond the
    digit limit, no high surrogate directly followed by a low one. *)
Definition json_safe (e : TLSTEntry) : Prop :=
  int_fits (songId e) = true /\ int_fits (delay e) = true /\
  int_fits (volume e) = true /\ int_fits (frequency e) = true /\
  int_fits (switch e) = true /\
  pair_surrogates (title e) = title e /\
  pair_surrogates (filename e) = filename e.

(** A title of two code points, a high surrogate and a low one; the same
    pair as one code point; a song id of 4301 digits. *)
Definition surrogate_title : TLSTEntry := set_title TLSTEntry_init [0xD83D; 0xDE00].

Definition joined_title : TLSTEntry := set_title TLSTEntry_init [0x1F600].

Definition long_id : TLSTEntry :=
  {| songId := 10 ^ 4300; delay := 0; volume := 0; frequency := 0; switch := 0;
     disablePinch := false; disableTlstInclusion := false;
     title := []; filename := [] |}.

(** * Properties *)

(** ** Running the monad *)

Lemma bind_Ret {S A B} (m : M S A) (k : A -> M S B) s a s' :
  m s = (Ret a, s') -> bind m k s = k a s'.
Proof. intros H. unfold bind. now rewrite H. Qed.

Lemma bind_Raise {S A B} (m : M S A) (k : A -> M S B) s e s' :
  m s = (Raise e, s') -> bind m k s = (Raise e, s').
Proof. intros H. unfold bind. now rewrite H. Qed.

Lemma bind_OutOfFuel {S A B} (m : M S A) (k : A -> M S B) s s' :
  m s = (OutOfFuel, s') -> bind m k s = (OutOfFuel, s').
Proof. intros H. unfold bind. now rewrite H. Qed.

Lemma bind_assoc {S A B C} (m : M S A) (k : A -> M S B) (h : B -> M S C) s :
  bind (bind m k) h s = bind m (fun a => bind (k a) h) s.
Proof. unfold bind. destruct (m s) as [[a|e|] s']; reflexivity. Qed.

(** ** The documented one-entry scenario *)

(** C8: encoding the track list whose only entry is Song A gives a buffer
    of 12 + 16 + 13 + 7 = 48 bytes whose string-table offset field is 28,
    whose stored filename offset is 0 and whose stored title offset is 13. *)
Theorem toTlst_song_a :
  exists buf,
    toTlst_bytes {| tracks := [song_a] |} = Ret buf /\
    length buf = (12 + 16 + (length (filename song_a) + 1)
                  + (length (title song_a) + 1))%nat /\
    length buf = 48%nat /\
    stored_H buf 0xA = Ret 28 /\
    stored_H buf (0 * 0x10 + 0xC + 0x8) = Ret 0 /\
    stored_H buf (0 * 0x10 + 0xC + 0xA) = Ret 13.
Proof.
  eexists. split; [vm_compute; reflexivity|].
  repeat split; vm_compute; reflexivity.
Qed.

(** ** Files and the string reader *)

Lemma file_eta (f : file) : {| data := data f; pos := pos f |} = f.
Proof. now destruct f. Qed.

Lemma f_read_at_eof n (f : file) :
  (length (data f) <= pos f)%nat -> f_read n f = (Ret [], f).
Proof.
  intros H. unfold f_read.
  rewrite (skipn_all2 (data f) H), firstn_nil. cbn.
  now rewrite Nat.add_0_r, file_eta.
Qed.

(** At or past the end of the buffer the reader never meets its NUL. *)
Lemma readNTString_loop_at_eof fuel acc (f : file) :
  (length (data f) <= pos f)%nat ->
  readNTString_loop fuel acc f = (OutOfFuel, f).
Proof.
  revert acc. induction fuel as [|fuel IH]; intros acc H; [reflexivity|].
  cbn [readNTString_loop]. rewrite (bind_Ret _ _ _ _ _ (f_read_at_eof 1 f H)).
  cbn [bytes_eqb]. rewrite app_nil_r. now apply IH.
Qed.

Lemma readNTString_at_eof fuel (f : file) :
  (length (data f) <= pos f)%nat -> readNTString fuel f = (OutOfFuel, f).
Proof.
  intros H. unfold readNTString.
  now rewrite (bind_OutOfFuel _ _ _ _ (readNTString_loop_at_eof fuel [] f H)).
Qed.

(** ** Header checks *)

(** C3, as the code has it: a buffer shorter than the 12-byte header makes
    the decoder raise struct.error, whatever its first bytes are. *)
Theorem fromTlst_short_buffer (fuel : nat) (buf : list byte) :
  (length buf < 12)%nat -> fromTlst fuel buf = Raise StructError.
Proof.
  intros H.
  do 12 (destruct buf as [|? buf]; [reflexivity|]).
  cbn [length] in H. lia.
Qed.

(** The four bytes of the tag alone are too short a buffer. *)
Lemma fromTlst_short_buffer_witness :
  (length magic < 12)%nat /\ fromTlst 1 magic = Raise StructError.
Proof.
  split; [cbn; lia | apply (fromTlst_short_buffer 1 magic); cbn; lia].
Defined.

(** C3, counterexample: a buffer whose first four bytes are not the tag
    decodes, here to the empty track list. *)
Lemma fromTlst_ignores_magic :
  firstn 4 wrong_magic_buf <> magic /\
  forall fuel, fromTlst fuel wrong_magic_buf = Ret {| tracks := [] |}.
Proof. split; [discriminate | intros fuel; reflexivity]. Qed.

(** ** String offsets outside the buffer *)

Lemma read_strings_title_outside fuel stringsOffset entry filenameOffset titleOffset
    (f : file) :
  titleOffset <> 0xFFFF ->
  (length (data f) <= Z.to_nat (titleOffset + stringsOffset))%nat ->
  read_strings fuel stringsOffset entry filenameOffset titleOffset f
  = (OutOfFuel, {| data := data f; pos := Z.to_nat (titleOffset + stringsOffset) |}).
Proof.
  intros Hne Hout. unfold read_strings.
  apply Z.eqb_neq in Hne. rewrite Hne.
  rewrite !bind_assoc.
  erewrite bind_Ret by reflexivity.
  rewrite !bind_assoc.
  erewrite bind_OutOfFuel; [reflexivity|].
  apply readNTString_at_eof. exact Hout.
Qed.

Lemma read_strings_filename_outside fuel stringsOffset entry filenameOffset (f : file) :
  filenameOffset <> 0xFFFF ->
  (length (data f) <= Z.to_nat (filenameOffset + stringsOffset))%nat ->
  read_strings fuel stringsOffset entry filenameOffset 0xFFFF f
  = (OutOfFuel, {| data := data f; pos := Z.to_nat (filenameOffset + stringsOffset) |}).
Proof.
  intros Hne Hout. unfold read_strings.
  rewrite (bind_Ret _ _ f entry f) by reflexivity.
  apply Z.eqb_neq in Hne. rewrite Hne.
  rewrite !bind_assoc.
  erewrite bind_Ret by reflexivity.
  rewrite !bind_assoc.
  erewrite bind_OutOfFuel; [reflexivity|].
  apply readNTString_at_eof. exact Hout.
Qed.

(** C4, at the failing input: with a filename offset that points at the end
    of the buffer the decoder gives no answer, whatever the fuel. *)
Theorem fromTlst_dangling_offset_diverges :
  forall fuel, fromTlst fuel dangling_offset_buf = OutOfFuel.
Proof.
  intros fuel. unfold fromTlst, fromTlst_body.
  rewrite (bind_Ret read_header _ _ (1, 28) {| data := dangling_offset_buf; pos := 12 |})
    by reflexivity.
  cbv beta iota. change (Z.to_nat 1) with 1%nat. cbn [entries_loop].
  unfold read_entry. rewrite !bind_assoc.
  rewrite (bind_Ret (read_fixed 0) _ _ (TLSTEntry_init, 0, 0xFFFF)
             {| data := dangling_offset_buf; pos := 28 |}) by reflexivity.
  cbv beta iota.
  erewrite bind_OutOfFuel; [reflexivity|].
  apply read_strings_filename_outside; [discriminate | cbn; lia].
Qed.
(** ** Reading never changes the buffer *)

Lemma keeps_data_ret {A} (a : A) : keeps_data (ret a).
Proof. intros f. reflexivity. Qed.

Lemma keeps_data_lift {A} (o : outcome A) : keeps_data (lift o).
Proof. intros f. reflexivity. Qed.

Lemma keeps_data_bind {A B} (m : M file A) (k : A -> M file B) :
  keeps_data m -> (forall a, keeps_data (k a)) -> keeps_data (bind m k).
Proof.
  intros Hm Hk f. unfold bind. specialize (Hm f).
  destruct (m f) as [[a|e|] f']; cbn in *; [|assumption|assumption].
  now rewrite Hk.
Qed.

Lemma keeps_data_read n : keeps_data (f_read n).
Proof. intros f. reflexivity. Qed.

Lemma keeps_data_seek p : keeps_data (f_seek p).
Proof. intros f. reflexivity. Qed.

Lemma keeps_data_seek_cur d : keeps_data (f_seek_cur d).
Proof. intros f. reflexivity. Qed.

Lemma keeps_data_seek_end : keeps_data f_seek_end.
Proof. intros f. reflexivity. Qed.

Lemma keeps_data_tell : keeps_data f_tell.
Proof. intros f. reflexivity. Qed.

Lemma keeps_data_unpack_I bs : keeps_data (struct.unpack_I bs).
Proof. intros f. unfold struct.unpack_I. now repeat (destruct bs as [|? bs]; try reflexivity). Qed.

Lemma keeps_data_unpack_H bs : keeps_data (struct.unpack_H bs).
Proof. intros f. unfold struct.unpack_H. now repeat (destruct bs as [|? bs]; try reflexivity). Qed.

Lemma keeps_data_unpack_b bs : keeps_data (struct.unpack_b bs).
Proof. intros f. unfold struct.unpack_b. now repeat (destruct bs as [|? bs]; try reflexivity). Qed.

Lemma keeps_data_unpack_bool bs : keeps_data (struct.unpack_bool bs).
Proof. intros f. unfold struct.unpack_bool. now repeat (destruct bs as [|? bs]; try reflexivity). Qed.

Lemma keeps_data_bytes_decode bs : keeps_data (bytes_decode bs).
Proof. intros f. unfold bytes_decode. now destruct (utf8_decode bs). Qed.

Create HintDb readonly.
#[local] Hint Resolve keeps_data_ret keeps_data_lift keeps_data_read keeps_data_seek
  keeps_data_seek_cur keeps_data_seek_end keeps_data_tell keeps_data_unpack_I
  keeps_data_unpack_H keeps_data_unpack_b keeps_data_unpack_bool
  keeps_data_bytes_decode : readonly.

Ltac readonly :=
  repeat first [ solve [auto with readonly] | apply keeps_data_bind; [|intros] ].

Lemma keeps_data_readNTString_loop fuel acc : keeps_data (readNTString_loop fuel acc).
Proof.
  revert acc. induction fuel as [|fuel IH]; intros acc; cbn [readNTString_loop].
  - readonly.
  - apply keeps_data_bind; [readonly|]. intros c.
    destruct (bytes_eqb c [x00]); [readonly | apply IH].
Qed.
#[local] Hint Resolve keeps_data_readNTString_loop : readonly.

Lemma keeps_data_readNTString fuel : keeps_data (readNTString fuel).
Proof. unfold readNTString. readonly. Qed.
#[local] Hint Resolve keeps_data_readNTString : readonly.

Lemma keeps_data_read_fixed x : keeps_data (read_fixed x).
Proof. unfold read_fixed. readonly. Qed.
#[local] Hint Resolve keeps_data_read_fixed : readonly.

Lemma keeps_data_read_strings fuel so e fo to :
  keeps_data (read_strings fuel so e fo to).
Proof.
  unfold read_strings.
  apply keeps_data_bind; [destruct (to =? 0xFFFF); readonly|]. intros e'.
  apply keeps_data_bind; [destruct (fo =? 0xFFFF); readonly|]. intros e''.
  readonly.
Qed.
#[local] Hint Resolve keeps_data_read_strings : readonly.

Lemma keeps_data_read_entry fuel so x : keeps_data (read_entry fuel so x).
Proof.
  unfold read_entry. apply keeps_data_bind; [readonly|].
  intros [[e fo] to]. cbv beta iota. readonly.
Qed.
#[local] Hint Resolve keeps_data_read_entry : readonly.

(** The body of the loop starts with an absolute seek: where the cursor was
    before does not matter. *)
Lemma read_entry_any_pos fuel so x (f : file) :
  read_entry fuel so x f = read_entry fuel so x {| data := data f; pos := 0 |}.
Proof. unfold read_entry, read_fixed. rewrite !bind_assoc. reflexivity. Qed.

(** ** The end-of-file test of the loop *)

Lemma entry_at_Ret fuel so x (f : file) e p :
  entry_at fuel so x (data f) = Ret (e, p) ->
  read_entry fuel so x f = (Ret e, {| data := data f; pos := p |}).
Proof.
  unfold entry_at. rewrite (read_entry_any_pos fuel so x f).
  pose proof (keeps_data_read_entry fuel so x {| data := data f; pos := 0 |}) as Hd.
  destruct (read_entry fuel so x _) as [[e'|e'|] f']; try discriminate.
  intros H. injection H as -> <-. cbn in Hd. rewrite <- Hd. now rewrite file_eta.
Qed.

(** One turn of the loop on an entry that reads well. *)
Lemma entries_loop_step fuel so n x acc (f : file) e p :
  entry_at fuel so x (data f) = Ret (e, p) ->
  entries_loop fuel so (S n) x acc f
  = if (p =? length (data f))%nat
    then (Ret (acc ++ [e]), {| data := data f; pos := length (data f) |})
    else entries_loop fuel so n (S x) (acc ++ [e])
           {| data := data f; pos := length (data f) |}.
Proof.
  intros H. cbn [entries_loop].
  rewrite (bind_Ret _ _ _ _ _ (entry_at_Ret _ _ _ _ _ _ H)).
  unfold bind, f_tell, f_seek_end. cbn [data pos].
  now destruct (p =? length (data f))%nat.
Qed.

Lemma entries_loop_early_stop fuel so buf e :
  forall rest n x acc (f : file),
    data f = buf ->
    (length rest < n)%nat ->
    (forall i e_i, nth_error rest i = Some e_i ->
       exists p, entry_at fuel so (x + i) buf = Ret (e_i, p) /\ p <> length buf) ->
    entry_at fuel so (x + length rest) buf = Ret (e, length buf) ->
    fst (entries_loop fuel so n x acc f) = Ret (acc ++ rest ++ [e]).
Proof.
  induction rest as [|e0 rest IH]; intros n x acc f Hf Hn Hrest Hlast.
  - destruct n as [|n]; [cbn in Hn; lia|].
    cbn [length] in Hlast. rewrite Nat.add_0_r in Hlast. subst buf.
    rewrite (entries_loop_step _ _ _ _ _ _ _ _ Hlast), Nat.eqb_refl. reflexivity.
  - destruct n as [|n]; [cbn in Hn; lia|]. subst buf.
    destruct (Hrest 0%nat e0 eq_refl) as (p & Hp & Hne).
    rewrite Nat.add_0_r in Hp.
    rewrite (entries_loop_step _ _ _ _ _ _ _ _ Hp).
    apply Nat.eqb_neq in Hne. rewrite Hne.
    rewrite (IH n (S x) (acc ++ [e0])); cbn [data].
    + now rewrite <- app_assoc.
    + reflexivity.
    + cbn [length] in Hn. lia.
    + intros i e_i Hi. destruct (Hrest (S i) e_i Hi) as (q & Hq & Hqne).
      exists q. split; [|exact Hqne]. now rewrite Nat.add_succ_comm.
    + cbn [length] in Hlast. now rewrite Nat.add_succ_comm.
Qed.

(** When the cursor after reading some entry is at the end of the buffer,
    decoding stops there and returns the entries read so far, however many
    more the header declares. *)
Lemma fromTlst_stops_at_end (fuel : nat) (buf : list byte) (n so : Z)
    (es : list TLSTEntry) (e : TLSTEntry) :
  header_of buf = Ret (n, so) ->
  (length es < Z.to_nat n)%nat ->
  (forall i e_i, nth_error es i = Some e_i ->
     exists p, entry_at fuel so i buf = Ret (e_i, p) /\ p <> length buf) ->
  entry_at fuel so (length es) buf = Ret (e, length buf) ->
  fromTlst fuel buf = Ret {| tracks := es ++ [e] |}.
Proof.
  intros Hh Hn Hes He. unfold fromTlst, fromTlst_body.
  unfold header_of in Hh.
  assert (Hd : keeps_data read_header) by (unfold read_header; readonly).
  specialize (Hd {| data := buf; pos := 0 |}).
  destruct (read_header {| data := buf; pos := 0 |}) as [[h|?|] f'] eqn:E;
    cbn in Hh; try discriminate.
  injection Hh as ->. cbn in Hd.
  rewrite (bind_Ret _ _ _ _ _ E). cbv beta iota.
  pose proof (entries_loop_early_stop fuel so buf e es (Z.to_nat n) 0 [] f'
                Hd Hn Hes He) as HL.
  unfold bind. destruct (entries_loop fuel so (Z.to_nat n) 0 [] f') as [[r|?|] f''];
    cbn in HL; try discriminate.
  now injection HL as ->.
Qed.

(** ** The round trip through the binary format: a lost entry *)

(** C1, at the failing input: the two-entry list encodes, and decoding the
    bytes gives back the first entry only; the second is lost to the
    end-of-file test, the filename of the first being the last string. *)
Theorem roundtrip_drops_trailing_entry :
  exists buf,
    toTlst_bytes two_tracks = Ret buf /\
    forall fuel, fromTlst (2 + fuel) buf = Ret {| tracks := [named_entry] |}.
Proof.
  eexists. split; [vm_compute; reflexivity|].
  intros fuel. reflexivity.
Qed.

(** ** JSON *)

(** C2, counterexample: a track object without "disablePinch" does not
    decode; the lookup raises KeyError. *)
Lemma loads_no_disablePinch : loads no_disablePinch = Raise KeyError.
Proof. reflexivity. Qed.

(** C2, as the code has it: no default is ever substituted.  Of a
    dictionary that lacks one of the nine members the hook makes no track
    entry: when the dictionary has "songId" it raises KeyError, and when
    it has not, it returns a track list if there is a "tracks" member and
    the dictionary itself otherwise. *)
Theorem dict_to_object_missing_member (d : dict) (k : pystr) :
  In k entry_keys ->
  dict_mem k d = false ->
  (dict_mem (py "songId") d = true -> dict_to_object d = Raise KeyError) /\
  (dict_mem (py "songId") d = false ->
   dict_to_object d = Ret (match dict_get (py "tracks") d with
                           | Some t => VTLST t
                           | None => VDict d
                           end)).
Proof.
  intros Hin Hk. unfold dict_to_object. split; intros Es; rewrite Es.
  - unfold dict_mem in *. unfold entry_keys in Hin. cbn [In] in Hin.
    unfold dict_item.
    destruct (dict_get k d) eqn:Ek; [discriminate Hk|].
    repeat (destruct Hin as [<-|Hin]; [|]); try contradiction;
      repeat match goal with
             | |- context [dict_get ?key d] =>
                 destruct (dict_get key d) eqn:?; cbn [obind]
             end;
      congruence.
  - unfold dict_mem, dict_item.
    destruct (dict_get (py "tracks") d); reflexivity.
Qed.

(** A dictionary with every member but "disablePinch" raises; one with a
    title alone is returned as it is. *)
Lemma dict_to_object_missing_member_witness :
  dict_to_object
    [(py "songId", VInt 1); (py "delay", VInt 0); (py "volume", VInt 0);
     (py "frequency", VInt 0); (py "switch", VInt 0);
     (py "disableTlstInclusion", VBool false);
     (py "title", VStr []); (py "filename", VStr [])] = Raise KeyError /\
  dict_to_object [(py "title", VStr [])] = Ret (VDict [(py "title", VStr [])]).
Proof.
  split.
  - apply (dict_to_object_missing_member
             [(py "songId", VInt 1); (py "delay", VInt 0); (py "volume", VInt 0);
              (py "frequency", VInt 0); (py "switch", VInt 0);
              (py "disableTlstInclusion", VBool false);
              (py "title", VStr []); (py "filename", VStr [])] (py "disablePinch")).
    + unfold entry_keys. cbn [In]. tauto.
    + reflexivity.
    + reflexivity.
  - apply (dict_to_object_missing_member [(py "title", VStr [])] (py "songId")).
    + unfold entry_keys. cbn [In]. tauto.
    + reflexivity.
    + reflexivity.
Defined.

Lemma dumps_VList fuel l :
  dumps (S fuel) (VList l) = js <~ dumps_items fuel l ;; Ret (JArr js).
Proof. reflexivity. Qed.

Lemma loads_JArr l : loads (JArr l) = os <~ loads_items l ;; Ret (VList os).
Proof. reflexivity. Qed.

(** The encoder serialises an object of the model as what [default]
    returns for it. *)
Lemma dumps_default fuel o :
  (exists t, o = VTLST t) \/ (exists a b c d e f g h i, o = VEntry a b c d e f g h i) ->
  dumps (S fuel) o = d <~ default o ;; dumps fuel d.
Proof.
  intros [[t ->]|(a & b & c & d & e & f & g & h & i & ->)]; reflexivity.
Qed.

Lemma pair_surrogates_keys :
  Forall (fun k => pair_surrogates k = k) (py "tracks" :: entry_keys).
Proof. repeat constructor. Qed.

Lemma dumps_entry fuel e :
  json_safe e -> dumps (3 + fuel) (entry_to_py e) = Ret (entry_json e).
Proof.
  intros (H1 & H2 & H3 & H4 & H5 & Ht & Hf).
  unfold entry_to_py. cbn [Nat.add].
  rewrite dumps_default by (right; repeat eexists).
  cbn [default obind]. cbn [dumps obind].
  rewrite H1, H2, H3, H4, H5, Ht, Hf. reflexivity.
Qed.

Lemma loads_entry e : json_safe e -> loads (entry_json e) = Ret (entry_to_py e).
Proof.
  intros (H1 & H2 & H3 & H4 & H5 & _). unfold entry_json. cbn [loads obind].
  rewrite H1, H2, H3, H4, H5. reflexivity.
Qed.

Lemma dumps_items_entries fuel es :
  (forall e, In e es -> json_safe e) ->
  dumps_items (3 + fuel) (map entry_to_py es) = Ret (map entry_json es).
Proof.
  induction es as [|e es IH]; intros H; [reflexivity|].
  cbn [map]. change (dumps_items (3 + fuel) (entry_to_py e :: map entry_to_py es))
    with (j <~ dumps (3 + fuel) (entry_to_py e) ;;
          js <~ dumps_items (3 + fuel) (map entry_to_py es) ;; Ret (j :: js)).
  rewrite dumps_entry by (apply H; now left).
  rewrite IH by (intros e' He'; apply H; now right). reflexivity.
Qed.

Lemma loads_items_entries es :
  (forall e, In e es -> json_safe e) ->
  loads_items (map entry_json es) = Ret (map entry_to_py es).
Proof.
  induction es as [|e es IH]; intros H; [reflexivity|].
  cbn [map]. change (loads_items (entry_json e :: map entry_json es))
    with (o <~ loads (entry_json e) ;; os <~ loads_items (map entry_json es) ;; Ret (o :: os)).
  rewrite loads_entry by (apply H; now left).
  rewrite IH by (intros e' He'; apply H; now right). reflexivity.
Qed.

(** ** Encoding leaves the track list alone *)

Lemma keeps_self_ret {A} (a : A) : keeps_self (ret a).
Proof. intros w. reflexivity. Qed.

Lemma keeps_self_lift {A} (o : outcome A) : keeps_self (lift o).
Proof. intros w. reflexivity. Qed.

Lemma keeps_self_bind {A B} (m : M world A) (k : A -> M world B) :
  keeps_self m -> (forall a, keeps_self (k a)) -> keeps_self (bind m k).
Proof.
  intros Hm Hk w. unfold bind. specialize (Hm w).
  destruct (m w) as [[a|e|] w']; cbn in *; [|assumption|assumption].
  now rewrite Hk.
Qed.

Lemma keeps_self_get_tracks : keeps_self get_tracks.
Proof. intros w. reflexivity. Qed.

Lemma keeps_self_on_file {A} (m : M file A) : keeps_self (on_file m).
Proof. intros w. unfold on_file. now destruct (m (out w)). Qed.

Lemma keeps_self_w_write bs : keeps_self (w_write bs).
Proof. apply keeps_self_on_file. Qed.

Lemma keeps_self_pack_I v : keeps_self (struct.pack_I v).
Proof. unfold struct.pack_I. destruct (struct.in_range _ _ _); intros w; reflexivity. Qed.

Lemma keeps_self_pack_H v : keeps_self (struct.pack_H v).
Proof. unfold struct.pack_H. destruct (struct.in_range _ _ _); intros w; reflexivity. Qed.

Lemma keeps_self_pack_b v : keeps_self (struct.pack_b v).
Proof. unfold struct.pack_b. destruct (struct.in_range _ _ _); intros w; reflexivity. Qed.

Lemma keeps_self_pack_bool v : keeps_self (struct.pack_bool v).
Proof. intros w. reflexivity. Qed.

Lemma keeps_self_str_encode s : keeps_self (str_encode s).
Proof. unfold str_encode. destruct (utf8_encode s); intros w; reflexivity. Qed.

Lemma keeps_self_getitem {A} (l : list A) x : keeps_self (getitem l x).
Proof. unfold getitem. destruct (nth_error l x); intros w; reflexivity. Qed.

Create HintDb frame.
#[local] Hint Resolve keeps_self_ret keeps_self_lift keeps_self_get_tracks
  keeps_self_on_file keeps_self_w_write keeps_self_pack_I keeps_self_pack_H
  keeps_self_pack_b keeps_self_pack_bool keeps_self_str_encode
  keeps_self_getitem : frame.

Ltac frame :=
  repeat first [ solve [auto with frame] | apply keeps_self_bind; [|intros] ].

Lemma keeps_self_write_fixed entry : keeps_self (write_fixed entry).
Proof. unfold write_fixed. frame. Qed.
#[local] Hint Resolve keeps_self_write_fixed : frame.

Lemma keeps_self_for_each {A} (l : list A) body :
  (forall a, keeps_self (body a)) -> keeps_self (for_each l body).
Proof. intros H. induction l as [|a l IH]; cbn [for_each]; frame. Qed.

Lemma keeps_self_write_string so x slot s : keeps_self (write_string so x slot s).
Proof.
  unfold write_string. apply keeps_self_bind; [frame|]. intros off.
  destruct s; frame.
Qed.
#[local] Hint Resolve keeps_self_write_string : frame.

Lemma keeps_self_strings_loop so n : forall x, keeps_self (strings_loop so n x).
Proof. induction n as [|n IH]; intros x; cbn [strings_loop]; frame. Qed.
#[local] Hint Resolve keeps_self_strings_loop : frame.

(** C10: whatever the output file holds and whether the encoder returns or
    raises, the track list it was called on, the sequence of entries and
    every field of each, is afterwards what it was before. *)
Theorem toTlst_keeps_self :
  forall w : world, self (snd (toTlst w)) = self w.
Proof.
  change (keeps_self toTlst). unfold toTlst.
  repeat first [ solve [auto with frame]
               | apply keeps_self_for_each
               | apply keeps_self_bind; [|intros] ].
Qed.

(** ** Termination of the string reader *)

Lemma skipn_succ {A} p (l : list A) b r :
  skipn p l = b :: r -> skipn (S p) l = r.
Proof.
  intros H. change (S p) with (1 + p)%nat.
  now rewrite <- skipn_skipn, H.
Qed.

Lemma f_read_1_byte (f : file) b r :
  skipn (pos f) (data f) = b :: r ->
  f_read 1 f = (Ret [b], {| data := data f; pos := pos f + 1 |}).
Proof. intros H. unfold f_read. now rewrite H. Qed.

Lemma bytes_eqb_nul b : bytes_eqb [b] [x00] = true <-> b = x00.
Proof.
  cbn. rewrite andb_true_r. unfold byte_eqb. split.
  - apply byte_dec_bl.
  - apply byte_dec_lb.
Qed.

(** With a NUL ahead the loop stops at the first one and has collected the
    bytes before it. *)
Lemma readNTString_loop_nul bs rest :
  forall fuel acc (f : file),
    skipn (pos f) (data f) = bs ++ x00 :: rest ->
    ~ In x00 bs ->
    (length bs < fuel)%nat ->
    readNTString_loop fuel acc f
    = (Ret (acc ++ bs), {| data := data f; pos := pos f + length bs + 1 |}).
Proof.
  induction bs as [|b bs IH]; intros fuel acc f Hs Hnot Hfuel.
  - destruct fuel as [|fuel]; [cbn in Hfuel; lia|].
    cbn [readNTString_loop]. rewrite (bind_Ret _ _ _ _ _ (f_read_1_byte f _ _ Hs)).
    cbn. now rewrite app_nil_r, Nat.add_0_r.
  - destruct fuel as [|fuel]; [cbn in Hfuel; lia|].
    cbn [readNTString_loop]. cbn [app] in Hs.
    rewrite (bind_Ret _ _ _ _ _ (f_read_1_byte f _ _ Hs)).
    destruct (bytes_eqb [b] [x00]) eqn:E.
    + apply bytes_eqb_nul in E. subst b. exfalso. apply Hnot. now left.
    + rewrite IH.
      * rewrite <- app_assoc. cbn [data pos length app]. do 3 f_equal. lia.
      * cbn [data pos]. rewrite Nat.add_1_r. now apply skipn_succ with (b := b).
      * intros Hin. apply Hnot. now right.
      * cbn [length] in Hfuel. lia.
Qed.

(** Without one it goes on for as long as it is given fuel. *)
Lemma readNTString_loop_no_nul fuel :
  forall acc (f : file),
    ~ nul_after (pos f) (data f) ->
    fst (readNTString_loop fuel acc f) = OutOfFuel.
Proof.
  induction fuel as [|fuel IH]; intros acc f Hnot; [reflexivity|].
  cbn [readNTString_loop]. unfold nul_after in Hnot.
  destruct (skipn (pos f) (data f)) as [|b r] eqn:Hs.
  - assert (Hlen : (length (data f) <= pos f)%nat).
    { destruct (Nat.le_gt_cases (length (data f)) (pos f)) as [H|H]; [exact H|].
      apply (f_equal (@length byte)) in Hs. rewrite length_skipn in Hs. cbn in Hs. lia. }
    rewrite (bind_Ret _ _ _ _ _ (f_read_at_eof 1 f Hlen)).
    cbn [bytes_eqb]. apply IH. unfold nul_after. now rewrite Hs.
  - rewrite (bind_Ret _ _ _ _ _ (f_read_1_byte f _ _ Hs)).
    destruct (bytes_eqb [b] [x00]) eqn:E.
    + apply bytes_eqb_nul in E. subst b. exfalso. apply Hnot. now left.
    + apply IH. unfold nul_after. cbn [data pos]. rewrite Nat.add_1_r.
      rewrite (skipn_succ _ _ _ _ Hs). intros Hin. apply Hnot. now right.
Qed.

(** The first NUL of a list that has one. *)
Lemma first_nul (l : list byte) :
  In x00 l -> exists bs rest, l = bs ++ x00 :: rest /\ ~ In x00 bs.
Proof.
  induction l as [|b l IH]; intros Hin; [contradiction|].
  destruct (byte_eq_dec b x00) as [->|Hne].
  - exists [], l. split; [reflexivity | intros []].
  - destruct Hin as [Hb|Hin]; [contradiction|].
    destruct (IH Hin) as (bs & rest & -> & Hnot).
    exists (b :: bs), rest. split; [reflexivity|].
    intros [Hb|Hb]; [now apply Hne | now apply Hnot].
Qed.

Lemma readNTString_nul fuel (f : file) bs rest :
  skipn (pos f) (data f) = bs ++ x00 :: rest ->
  ~ In x00 bs ->
  (length bs < fuel)%nat ->
  readNTString fuel f
  = bytes_decode bs {| data := data f; pos := pos f + length bs + 1 |}.
Proof.
  intros Hs Hnot Hfuel. unfold readNTString.
  now rewrite (bind_Ret _ _ _ _ _ (readNTString_loop_nul bs rest fuel [] f Hs Hnot Hfuel)).
Qed.

Lemma readNTString_no_nul fuel (f : file) :
  ~ nul_after (pos f) (data f) -> fst (readNTString fuel f) = OutOfFuel.
Proof.
  intros Hnot. unfold readNTString, bind.
  pose proof (readNTString_loop_no_nul fuel [] f Hnot) as H.
  destruct (readNTString_loop fuel [] f) as [[a|e|] f']; cbn in H; try discriminate.
  reflexivity.
Qed.

Lemma bytes_decode_halts bs (f : file) : fst (bytes_decode bs f) <> OutOfFuel.
Proof. unfold bytes_decode. destruct (utf8_decode bs); discriminate. Qed.

Lemma readNTString_halts_iff (f : file) :
  (exists fuel, fst (readNTString fuel f) <> OutOfFuel)
  <-> nul_after (pos f) (data f).
Proof.
  split.
  - intros [fuel Hfuel].
    destruct (in_dec byte_eq_dec x00 (skipn (pos f) (data f))) as [Hin|Hnot];
      [exact Hin|].
    exfalso. apply Hfuel. now apply readNTString_no_nul.
  - intros Hin. destruct (first_nul _ Hin) as (bs & rest & Hs & Hnot).
    exists (S (length bs)).
    rewrite (readNTString_nul _ f bs rest Hs Hnot) by lia.
    apply bytes_decode_halts.
Qed.

(** ** Termination of the decoder *)

Lemma bind_halts {S A B} (m : M S A) (k : A -> M S B) s :
  fst (m s) <> OutOfFuel ->
  (forall a s', m s = (Ret a, s') -> fst (k a s') <> OutOfFuel) ->
  fst (bind m k s) <> OutOfFuel.
Proof.
  intros Hm Hk. unfold bind.
  destruct (m s) as [[a|e|] s']; cbn in *; [now apply Hk | discriminate | now elim Hm].
Qed.

Lemma never_diverges_ret {S A} (a : A) : never_diverges (@ret S A a).
Proof. intros s. discriminate. Qed.

Lemma never_diverges_raise {S A} e : never_diverges (@lift S A (Raise e)).
Proof. intros s. discriminate. Qed.

Lemma never_diverges_bind {S A B} (m : M S A) (k : A -> M S B) :
  never_diverges m -> (forall a, never_diverges (k a)) -> never_diverges (bind m k).
Proof. intros Hm Hk s. apply bind_halts; [apply Hm | intros a s' _; apply Hk]. Qed.

Lemma never_diverges_read n : never_diverges (f_read n).
Proof. intros f. discriminate. Qed.

Lemma never_diverges_seek p : never_diverges (f_seek p).
Proof. intros f. discriminate. Qed.

Lemma never_diverges_seek_cur d : never_diverges (f_seek_cur d).
Proof. intros f. discriminate. Qed.

Lemma never_diverges_seek_end : never_diverges f_seek_end.
Proof. intros f. discriminate. Qed.

Lemma never_diverges_tell : never_diverges f_tell.
Proof. intros f. discriminate. Qed.

Lemma never_diverges_unpack_I {S} bs : never_diverges (@struct.unpack_I S bs).
Proof.
  intros f. unfold struct.unpack_I.
  repeat (destruct bs as [|? bs]; try discriminate).
Qed.

Lemma never_diverges_unpack_H {S} bs : never_diverges (@struct.unpack_H S bs).
Proof.
  intros f. unfold struct.unpack_H.
  repeat (destruct bs as [|? bs]; try discriminate).
Qed.

Lemma never_diverges_unpack_b {S} bs : never_diverges (@struct.unpack_b S bs).
Proof.
  intros f. unfold struct.unpack_b.
  repeat (destruct bs as [|? bs]; try discriminate).
Qed.

Lemma never_diverges_unpack_bool {S} bs : never_diverges (@struct.unpack_bool S bs).
Proof.
  intros f. unfold struct.unpack_bool.
  repeat (destruct bs as [|? bs]; try discriminate).
Qed.

Create HintDb halting.
#[local] Hint Resolve never_diverges_ret never_diverges_raise never_diverges_read
  never_diverges_seek never_diverges_seek_cur never_diverges_seek_end
  never_diverges_tell never_diverges_unpack_I never_diverges_unpack_H
  never_diverges_unpack_b never_diverges_unpack_bool : halting.

Ltac halting :=
  repeat first [ solve [auto with halting] | apply never_diverges_bind; [|intros] ].

Lemma never_diverges_read_fixed x : never_diverges (read_fixed x).
Proof. unfold read_fixed. halting. Qed.

Lemma never_diverges_read_header : never_diverges read_header.
Proof. unfold read_header. halting. Qed.

Lemma keeps_data_at {A} (m : M file A) (f : file) a f' :
  keeps_data m -> m f = (Ret a, f') -> data f' = data f.
Proof. intros Hk Hm. specialize (Hk f). now rewrite Hm in Hk. Qed.

Lemma read_fixed_any_pos x (f : file) :
  read_fixed x f = read_fixed x {| data := data f; pos := 0 |}.
Proof. unfold read_fixed. reflexivity. Qed.

(** Enough fuel for any string of the buffer: more than its length. *)
Lemma readNTString_halts fuel (f : file) :
  nul_after (pos f) (data f) ->
  (length (data f) < fuel)%nat ->
  fst (readNTString fuel f) <> OutOfFuel.
Proof.
  intros Hin Hfuel. destruct (first_nul _ Hin) as (bs & rest & Hs & Hnot).
  rewrite (readNTString_nul fuel f bs rest Hs Hnot).
  - apply bytes_decode_halts.
  - apply (f_equal (@length byte)) in Hs.
    rewrite length_skipn, length_app in Hs. cbn [length] in Hs. lia.
Qed.

Lemma read_string_at_halts fuel (f : file) p (set : pystr -> TLSTEntry) :
  nul_after p (data f) ->
  (length (data f) < fuel)%nat ->
  fst ((f_seek p >> s <- readNTString fuel ;; ret (set s)) f) <> OutOfFuel.
Proof.
  intros Hin Hfuel.
  apply bind_halts; [discriminate|]. intros a f' Hseek.
  injection Hseek as _ <-.
  apply bind_halts; [now apply readNTString_halts | intros; discriminate].
Qed.

Lemma keeps_data_read_string_at fuel p (set : pystr -> TLSTEntry) :
  keeps_data (f_seek p >> s <- readNTString fuel ;; ret (set s)).
Proof. readonly. Qed.

Lemma read_strings_halts fuel so entry fo to (f : file) :
  (to <> 0xFFFF -> nul_after (Z.to_nat (to + so)) (data f)) ->
  (fo <> 0xFFFF -> nul_after (Z.to_nat (fo + so)) (data f)) ->
  (length (data f) < fuel)%nat ->
  fst (read_strings fuel so entry fo to f) <> OutOfFuel.
Proof.
  intros Ht Hf Hfuel. unfold read_strings.
  apply bind_halts.
  - destruct (to =? 0xFFFF) eqn:E; [discriminate|].
    apply Z.eqb_neq in E. now apply read_string_at_halts; [apply Ht|].
  - intros e' f' H1.
    assert (Hd : data f' = data f).
    { destruct (to =? 0xFFFF).
      - now injection H1 as _ <-.
      - exact (keeps_data_at _ _ _ _ (keeps_data_read_string_at _ _ _) H1). }
    apply bind_halts; [|intros; discriminate].
    destruct (fo =? 0xFFFF) eqn:E; [discriminate|].
    apply Z.eqb_neq in E. rewrite <- Hd in Hf, Hfuel.
    now apply read_string_at_halts; [apply Hf|].
Qed.

Section DecoderHalts.

Variables (buf : list byte) (count : nat) (so : Z) (fuel : nat).

(** Every string that one of the [count] records refers to has its
    terminator. *)
Hypothesis terminated :
  forall x e fo to,
    (x < count)%nat ->
    fixed_at x buf = Ret (e, fo, to) ->
    (to <> 0xFFFF -> nul_after (Z.to_nat (to + so)) buf) /\
    (fo <> 0xFFFF -> nul_after (Z.to_nat (fo + so)) buf).

Hypothesis enough : (length buf < fuel)%nat.

Lemma read_entry_halts x (f : file) :
  (x < count)%nat -> data f = buf -> fst (read_entry fuel so x f) <> OutOfFuel.
Proof.
  intros Hx Hf. unfold read_entry.
  apply bind_halts; [apply never_diverges_read_fixed|].
  intros [[e fo] to] f' Hfix. cbv beta iota.
  assert (Hd : data f' = buf).
  { rewrite <- Hf. exact (keeps_data_at _ _ _ _ (keeps_data_read_fixed x) Hfix). }
  assert (Hat : fixed_at x buf = Ret (e, fo, to)).
  { unfold fixed_at. rewrite <- Hf, <- read_fixed_any_pos. now rewrite Hfix. }
  destruct (terminated x e fo to Hx Hat) as [Ht Hfo].
  apply read_strings_halts; rewrite Hd; assumption.
Qed.

Lemma entries_loop_halts n :
  forall x acc (f : file),
    (x + n <= count)%nat ->
    data f = buf -> fst (entries_loop fuel so n x acc f) <> OutOfFuel.
Proof.
  induction n as [|n IH]; intros x acc f Hx Hf; [discriminate|].
  cbn [entries_loop].
  apply bind_halts; [apply read_entry_halts; [lia | exact Hf]|].
  intros e f' He.
  assert (Hd : data f' = buf).
  { rewrite <- Hf. exact (keeps_data_at _ _ _ _ (keeps_data_read_entry fuel so x) He). }
  apply bind_halts; [discriminate|]. intros here f1 H1. injection H1 as _ <-.
  apply bind_halts; [discriminate|]. intros eof f2 H2. injection H2 as _ <-.
  destruct (here =? eof)%nat; [discriminate|].
  apply IH; [lia | exact Hd].
Qed.

End DecoderHalts.

Lemma fromTlst_halts (buf : list byte) (fuel : nat) :
  (forall n so, header_of buf = Ret (n, so) ->
     forall x e fo to,
       (x < Z.to_nat n)%nat ->
       fixed_at x buf = Ret (e, fo, to) ->
       (to <> 0xFFFF -> nul_after (Z.to_nat (to + so)) buf) /\
       (fo <> 0xFFFF -> nul_after (Z.to_nat (fo + so)) buf)) ->
  (length buf < fuel)%nat ->
  fromTlst fuel buf <> OutOfFuel.
Proof.
  intros Hterm Hfuel. unfold fromTlst, fromTlst_body.
  apply bind_halts; [apply never_diverges_read_header|].
  intros [n so] f' Hh. cbv beta iota.
  assert (Hd : data f' = buf).
  { apply (keeps_data_at read_header {| data := buf; pos := 0 |} (n, so)); [|exact Hh].
    unfold read_header. readonly. }
  apply bind_halts; [|intros; discriminate].
  apply (entries_loop_halts buf (Z.to_nat n) so fuel); [|exact Hfuel|lia|exact Hd].
  apply (Hterm n). unfold header_of. now rewrite Hh.
Qed.



(** ** Running the encoder *)

Lemma bind_ret_l {S A B} (a : A) (k : A -> M S B) s : bind (ret a) k s = k a s.
Proof. reflexivity. Qed.

Lemma pack_I_run {S} v (s : S) :
  struct.pack_I v s
  = if struct.in_range 0 0xFFFFFFFF v then (Ret (be32 v), s) else (Raise StructError, s).
Proof. unfold struct.pack_I. now destruct (struct.in_range _ _ _). Qed.

Lemma pack_H_run {S} v (s : S) :
  struct.pack_H v s
  = if struct.in_range 0 0xFFFF v then (Ret (be16 v), s) else (Raise StructError, s).
Proof. unfold struct.pack_H. now destruct (struct.in_range _ _ _). Qed.

Lemma pack_b_run {S} v (s : S) :
  struct.pack_b v s
  = if struct.in_range (-128) 127 v then (Ret [byte_of v], s) else (Raise StructError, s).
Proof. unfold struct.pack_b. now destruct (struct.in_range _ _ _). Qed.

Lemma pack_bool_run {S} v (s : S) : struct.pack_bool v s = (Ret [bool_byte v], s).
Proof. reflexivity. Qed.

Lemma w_tell_run t d p : on_file f_tell (mk t d p) = (Ret p, mk t d p).
Proof. reflexivity. Qed.

Lemma w_seek_run t d p q : on_file (f_seek q) (mk t d p) = (Ret q, mk t d q).
Proof. reflexivity. Qed.

Lemma get_tracks_run t d p : get_tracks (mk t d p) = (Ret (tracks t), mk t d p).
Proof. reflexivity. Qed.

(** Writing at the end, or past it, appends. *)
Lemma w_write_gap t d p bs :
  bs <> [] -> (length d <= p)%nat ->
  w_write bs (mk t d p)
  = (Ret tt, mk t (d ++ repeat x00 (p - length d) ++ bs)
               (length (d ++ repeat x00 (p - length d) ++ bs))).
Proof.
  intros Hbs Hp. unfold w_write, on_file, f_write, mk. cbn [out data pos self].
  destruct bs as [|b bs]; [contradiction|].
  rewrite firstn_all2 by exact Hp. rewrite skipn_all2 by lia.
  rewrite app_nil_r. do 3 f_equal.
  rewrite !length_app, repeat_length. lia.
Qed.

Lemma w_write_end t d bs :
  w_write bs (mk t d (length d)) = (Ret tt, mk t (d ++ bs) (length (d ++ bs))).
Proof.
  destruct bs as [|b bs].
  - unfold w_write, on_file, f_write, mk. cbn [out data pos self].
    now rewrite app_nil_r.
  - rewrite w_write_gap by (discriminate || lia).
    now rewrite Nat.sub_diag.
Qed.

(** Writing over bytes inside the file replaces them. *)
Lemma w_write_patch t l1 old l3 bs :
  length old = length bs ->
  w_write bs (mk t (l1 ++ old ++ l3) (length l1))
  = (Ret tt, mk t (l1 ++ bs ++ l3) (length l1 + length bs)).
Proof.
  intros Hlen. unfold w_write, on_file, f_write, mk. cbn [out data pos self].
  destruct bs as [|b bs].
  - destruct old; [|discriminate]. cbn [app length]. now rewrite Nat.add_0_r.
  - rewrite firstn_app, Nat.sub_diag, firstn_all, firstn_O, app_nil_r.
    replace (length l1 - length (l1 ++ old ++ l3))%nat with 0%nat
      by (rewrite length_app; lia).
    cbn [repeat app]. rewrite <- Hlen.
    rewrite skipn_app, skipn_all2 by lia.
    replace (length l1 + length old - length l1)%nat with (length old) by lia.
    rewrite skipn_app, skipn_all, Nat.sub_diag. cbn [skipn app].
    now rewrite Hlen.
Qed.

Lemma fails_raise {A} e (w : world) :
  e = StructError \/ e = UnicodeEncodeError -> @fails A (Raise e, w).
Proof. intros H. now exists e, w. Qed.

Lemma fails_bind {A B} (m : M world A) (k : A -> M world B) w :
  fails (m w) -> fails (bind m k w).
Proof.
  intros (e & w' & H & He). exists e, w'. split; [|exact He].
  now apply bind_Raise.
Qed.

Lemma fails_bind_Ret {A B} (m : M world A) (k : A -> M world B) w a w' :
  m w = (Ret a, w') -> fails (k a w') -> fails (bind m k w).
Proof. intros H Hk. now rewrite (bind_Ret _ _ _ _ _ H). Qed.

Lemma bind_pack_I {S B} v (k : list byte -> M S B) s :
  bind (struct.pack_I v) k s
  = if struct.in_range 0 0xFFFFFFFF v then k (be32 v) s else (Raise StructError, s).
Proof. unfold bind. rewrite pack_I_run. now destruct (struct.in_range _ _ _). Qed.

Lemma bind_pack_H {S B} v (k : list byte -> M S B) s :
  bind (struct.pack_H v) k s
  = if struct.in_range 0 0xFFFF v then k (be16 v) s else (Raise StructError, s).
Proof. unfold bind. rewrite pack_H_run. now destruct (struct.in_range _ _ _). Qed.

Lemma bind_pack_b {S B} v (k : list byte -> M S B) s :
  bind (struct.pack_b v) k s
  = if struct.in_range (-128) 127 v then k [byte_of v] s else (Raise StructError, s).
Proof. unfold bind. rewrite pack_b_run. now destruct (struct.in_range _ _ _). Qed.

Lemma bind_pack_bool {S B} v (k : list byte -> M S B) s :
  bind (struct.pack_bool v) k s = k [bool_byte v] s.
Proof. reflexivity. Qed.

Lemma bind_w_write_end {B} t d bs (k : unit -> M world B) :
  bind (w_write bs) k (mk t d (length d)) = k tt (mk t (d ++ bs) (length (d ++ bs))).
Proof. unfold bind. now rewrite w_write_end. Qed.

Lemma bind_w_write_gap {B} t d p bs (k : unit -> M world B) :
  bs <> [] -> (length d <= p)%nat ->
  bind (w_write bs) k (mk t d p)
  = k tt (mk t (d ++ repeat x00 (p - length d) ++ bs)
             (length (d ++ repeat x00 (p - length d) ++ bs))).
Proof. intros Hbs Hp. unfold bind. now rewrite w_write_gap. Qed.

Ltac raised := apply fails_raise; (now left) || (now right).

(** One fixed record: sixteen bytes at the cursor, or struct.error. *)
Lemma write_fixed_run t d p e :
  (length d <= p)%nat ->
  if fields_ok e
  then write_fixed e (mk t d p)
       = (Ret tt, mk t (d ++ repeat x00 (p - length d) ++ fixed_bytes e 0xFFFF 0xFFFF)
                    (length (d ++ repeat x00 (p - length d)
                             ++ fixed_bytes e 0xFFFF 0xFFFF)))
  else fails (write_fixed e (mk t d p)).
Proof.
  intros Hp. unfold write_fixed, fields_ok, placeholder.
  rewrite !bind_assoc, bind_pack_I.
  destruct (struct.in_range 0 0xFFFFFFFF (songId e)); cbv beta iota; cbn [andb];
    [|raised].
  rewrite bind_w_write_gap by (discriminate || exact Hp).
  rewrite !bind_assoc, bind_pack_H.
  destruct (struct.in_range 0 0xFFFF (delay e)); cbv beta iota; cbn [andb];
    [|raised].
  rewrite bind_w_write_end, !bind_assoc, bind_pack_b.
  destruct (struct.in_range (-128) 127 (volume e)); cbv beta iota; cbn [andb];
    [|raised].
  rewrite bind_w_write_end, !bind_assoc, bind_pack_b.
  destruct (struct.in_range (-128) 127 (frequency e)); cbv beta iota; cbn [andb];
    [|raised].
  rewrite bind_w_write_end, !bind_assoc, bind_pack_H.
  change (struct.in_range 0 0xFFFF 0xFFFF) with true. cbv beta iota.
  rewrite bind_w_write_end, !bind_assoc, bind_pack_H.
  change (struct.in_range 0 0xFFFF 0xFFFF) with true. cbv beta iota.
  rewrite bind_w_write_end, !bind_assoc, bind_pack_H.
  destruct (struct.in_range 0 0xFFFF (switch e)); cbv beta iota; cbn [andb];
    [|raised].
  rewrite bind_w_write_end, !bind_assoc, bind_pack_bool.
  rewrite bind_w_write_end, bind_pack_bool, w_write_end.
  unfold fixed_bytes. rewrite <- !app_assoc. reflexivity.
Qed.

Lemma for_each_write_fixed_run t es :
  forall d,
    if forallb fields_ok es
    then for_each es write_fixed (mk t d (length d))
         = (Ret tt, mk t (d ++ placeholder_records es)
                      (length (d ++ placeholder_records es)))
    else fails (for_each es write_fixed (mk t d (length d))).
Proof.
  induction es as [|e es IH]; intros d.
  - cbn. now rewrite app_nil_r.
  - cbn [forallb for_each].
    pose proof (write_fixed_run t d (length d) e (Nat.le_refl _)) as He.
    rewrite Nat.sub_diag in He. cbn [repeat app] in He.
    destruct (fields_ok e); cbn [andb].
    + rewrite (bind_Ret _ _ _ _ _ He).
      specialize (IH (d ++ fixed_bytes e 0xFFFF 0xFFFF)).
      unfold placeholder_records in *. cbn [map concat].
      rewrite <- app_assoc in IH. exact IH.
    + now apply fails_bind.
Qed.

Lemma bind_w_tell {B} t d p (k : nat -> M world B) :
  bind (on_file f_tell) k (mk t d p) = k p (mk t d p).
Proof. reflexivity. Qed.

Lemma bind_w_seek {B} t d p q (k : nat -> M world B) :
  bind (on_file (f_seek q)) k (mk t d p) = k q (mk t d q).
Proof. reflexivity. Qed.

Lemma bind_get_tracks {B} t d p (k : list TLSTEntry -> M world B) :
  bind get_tracks k (mk t d p) = k (tracks t) (mk t d p).
Proof. reflexivity. Qed.

Lemma bind_str_encode {S B} s (k : list byte -> M S B) w :
  bind (str_encode s) k w
  = match utf8_encode s with
    | Some bs => k bs w
    | None => (Raise UnicodeEncodeError, w)
    end.
Proof. unfold bind, str_encode. now destruct (utf8_encode s). Qed.

Lemma bind_w_write_patch {B} t l1 old l3 bs (k : unit -> M world B) :
  length old = length bs ->
  bind (w_write bs) k (mk t (l1 ++ old ++ l3) (length l1))
  = k tt (mk t (l1 ++ bs ++ l3) (length l1 + length bs)).
Proof. intros H. unfold bind. now rewrite w_write_patch. Qed.

Lemma length_be16 v : length (be16 v) = 2%nat.
Proof. reflexivity. Qed.

(** One string field: the string goes to the end of the file and its
    offset over the placeholder of its slot. *)
Lemma write_string_run t l1 l3 region so x slotc s :
  length l1 = (x * 0x10 + 0xC + slotc)%nat ->
  so = (length l1 + 2 + length l3)%nat ->
  match place s region with
  | Some (off, region') =>
      write_string so x slotc s
        (mk t (l1 ++ be16 0xFFFF ++ l3 ++ region)
              (length (l1 ++ be16 0xFFFF ++ l3 ++ region)))
      = (Ret tt, mk t (l1 ++ be16 off ++ l3 ++ region')
                   (length (l1 ++ be16 off ++ l3 ++ region')))
  | None =>
      fails (write_string so x slotc s
               (mk t (l1 ++ be16 0xFFFF ++ l3 ++ region)
                     (length (l1 ++ be16 0xFFFF ++ l3 ++ region))))
  end.
Proof.
  intros Hl1 Hso. unfold write_string, place. rewrite bind_w_tell.
  destruct s as [|c s]; [reflexivity|].
  rewrite !bind_assoc, bind_str_encode.
  destruct (utf8_encode (c :: s)) as [bs|]; [|raised].
  rewrite bind_w_write_end, bind_w_write_end, bind_w_tell, bind_w_seek.
  rewrite !bind_assoc, bind_pack_H.
  replace (Z.of_nat (length (l1 ++ be16 65535 ++ l3 ++ region)) - Z.of_nat so)
    with (Z.of_nat (length region))
    by (rewrite !length_app, length_be16; lia).
  destruct (struct.in_range 0 0xFFFF (Z.of_nat (length region))); [|raised].
  rewrite <- Hl1.
  replace (((l1 ++ be16 65535 ++ l3 ++ region) ++ bs) ++ [x00])
    with (l1 ++ be16 65535 ++ (l3 ++ region ++ bs ++ [x00]))
    by (now rewrite <- !app_assoc).
  rewrite bind_w_write_patch by reflexivity.
  rewrite bind_w_seek. unfold ret. do 2 f_equal.
  now rewrite !length_app, !length_be16.
Qed.

Lemma fixed_bytes_split e fo to :
  fixed_bytes e fo to = head8 e ++ be16 fo ++ be16 to ++ tail4 e.
Proof. reflexivity. Qed.

Lemma length_fixed_bytes e fo to : length (fixed_bytes e fo to) = 16%nat.
Proof. reflexivity. Qed.

Lemma length_head8 e : length (head8 e) = 8%nat.
Proof. reflexivity. Qed.

Lemma length_tail4 e : length (tail4 e) = 4%nat.
Proof. reflexivity. Qed.

Lemma length_placeholder_records es :
  length (placeholder_records es) = (16 * length es)%nat.
Proof.
  induction es as [|e es IH]; [reflexivity|].
  unfold placeholder_records in *. cbn [map concat].
  rewrite length_app, IH, length_fixed_bytes. cbn [length]. lia.
Qed.

Lemma bind_getitem {S A B} (l : list A) x a (k : A -> M S B) s :
  nth_error l x = Some a -> bind (getitem l x) k s = k a s.
Proof. intros H. unfold bind, getitem. now rewrite H. Qed.

(** The second pass over the entries [rest], the entries [done] being
    behind it: the records get their offsets, the strings line up at the
    end, as [lay_entries] says. *)
Lemma strings_loop_run t so :
  forall rest done pre region,
    tracks t = done ++ rest ->
    length pre = (12 + 16 * length done)%nat ->
    so = (12 + 16 * length (tracks t))%nat ->
    match lay_entries rest region with
    | Some (recs, region') =>
        strings_loop so (length rest) (length done)
          (mk t (pre ++ placeholder_records rest ++ region)
                (length (pre ++ placeholder_records rest ++ region)))
        = (Ret tt, mk t (pre ++ recs ++ region') (length (pre ++ recs ++ region')))
    | None =>
        fails (strings_loop so (length rest) (length done)
                 (mk t (pre ++ placeholder_records rest ++ region)
                       (length (pre ++ placeholder_records rest ++ region))))
    end.
Proof.
  induction rest as [|e rest IH]; intros done pre region Ht Hpre Hso.
  - cbn [lay_entries length strings_loop placeholder_records map concat app].
    reflexivity.
  - cbn [lay_entries length strings_loop].
    rewrite bind_get_tracks.
    rewrite (bind_getitem _ _ e)
      by (rewrite Ht, nth_error_app2, Nat.sub_diag by lia; reflexivity).
    assert (Hlen : length (tracks t) = (length done + S (length rest))%nat)
      by (rewrite Ht, length_app; reflexivity).
    (* the filename *)
    assert (Hd1 : pre ++ placeholder_records (e :: rest) ++ region
                  = (pre ++ head8 e) ++ be16 0xFFFF
                    ++ (be16 0xFFFF ++ tail4 e ++ placeholder_records rest) ++ region).
    { unfold placeholder_records. cbn [map concat].
      rewrite fixed_bytes_split, <- !app_assoc. reflexivity. }
    rewrite Hd1.
    pose proof (write_string_run t (pre ++ head8 e)
                  (be16 0xFFFF ++ tail4 e ++ placeholder_records rest)
                  region so (length done) 0x8 (filename e)) as H1.
    destruct (place (filename e) region) as [[fo r1]|].
    2: { apply fails_bind, H1.
         - rewrite length_app, length_head8. lia.
         - rewrite !length_app, length_head8, length_be16, length_tail4,
             length_placeholder_records. lia. }
    rewrite (bind_Ret _ _ _ tt _ (H1 ltac:(rewrite length_app, length_head8; lia)
      ltac:(rewrite !length_app, length_head8, length_be16, length_tail4,
              length_placeholder_records; lia))).
    clear H1 Hd1.
    (* the title *)
    assert (Hd2 : (pre ++ head8 e) ++ be16 fo
                  ++ (be16 0xFFFF ++ tail4 e ++ placeholder_records rest) ++ r1
                  = (pre ++ head8 e ++ be16 fo) ++ be16 0xFFFF
                    ++ (tail4 e ++ placeholder_records rest) ++ r1).
    { rewrite <- !app_assoc. reflexivity. }
    rewrite Hd2.
    pose proof (write_string_run t (pre ++ head8 e ++ be16 fo)
                  (tail4 e ++ placeholder_records rest)
                  r1 so (length done) 0xA (title e)) as H2.
    destruct (place (title e) r1) as [[to r2]|].
    2: { apply fails_bind, H2.
         - rewrite !length_app, length_head8, length_be16. lia.
         - rewrite !length_app, length_head8, length_be16, length_tail4,
             length_placeholder_records. lia. }
    rewrite (bind_Ret _ _ _ tt _ (H2
      ltac:(rewrite !length_app, length_head8, length_be16; lia)
      ltac:(rewrite !length_app, length_head8, length_be16, length_tail4,
              length_placeholder_records; lia))).
    clear H2 Hd2.
    (* the entries behind *)
    specialize (IH (done ++ [e]) (pre ++ fixed_bytes e fo to) r2).
    rewrite (length_app done [e]) in IH. cbn [length] in IH.
    rewrite Nat.add_1_r in IH.
    assert (Hd3 : (pre ++ head8 e ++ be16 fo) ++ be16 to
                  ++ (tail4 e ++ placeholder_records rest) ++ r2
                  = (pre ++ fixed_bytes e fo to) ++ placeholder_records rest ++ r2).
    { rewrite fixed_bytes_split, <- !app_assoc. reflexivity. }
    rewrite Hd3.
    specialize (IH ltac:(rewrite <- app_assoc; exact Ht)
                   ltac:(rewrite length_app, length_fixed_bytes; lia) Hso).
    destruct (lay_entries rest r2) as [[recs r3]|]; [|exact IH].
    rewrite IH, <- !app_assoc. reflexivity.
Qed.

Lemma lay_entries_length es :
  forall region recs region',
    lay_entries es region = Some (recs, region') ->
    length recs = (16 * length es)%nat.
Proof.
  induction es as [|e es IH]; intros region recs region' H; cbn [lay_entries] in H.
  - now injection H as <- _.
  - destruct (place (filename e) region) as [[fo r1]|]; [|discriminate].
    destruct (place (title e) r1) as [[to r2]|]; [|discriminate].
    destruct (lay_entries es r2) as [[recs' r3]|] eqn:E; [|discriminate].
    injection H as <- _.
    cbn [length]. rewrite (IH _ _ _ E). lia.
Qed.

Lemma in_range_spec lo hi v : struct.in_range lo hi v = true <-> lo <= v <= hi.
Proof. unfold struct.in_range. rewrite andb_true_iff, !Z.leb_le. tauto. Qed.

Lemma in_range_le lo hi v v' :
  struct.in_range lo hi v = true -> lo <= v' <= v -> struct.in_range lo hi v' = true.
Proof.
  unfold struct.in_range. rewrite !andb_true_iff, !Z.leb_le. lia.
Qed.

(** The encoder writes the layout, or raises when there is none. *)
Lemma toTlst_run t :
  match layout t with
  | Some buf => exists p, toTlst (mk t [] 0) = (Ret tt, mk t buf p)
  | None => fails (toTlst (mk t [] 0))
  end.
Proof.
  unfold toTlst, layout.
  rewrite (bind_w_write_end t [] magic), bind_get_tracks, ?bind_assoc, bind_pack_I.
  destruct (struct.in_range 0 0xFFFFFFFF (Z.of_nat (length (tracks t))));
    cbn [andb]; [|raised].
  rewrite bind_w_write_end, bind_w_seek, bind_get_tracks, ?bind_assoc.
  cbn [app].
  set (hdr8 := magic ++ be32 (Z.of_nat (length (tracks t)))).
  assert (Hh8 : length hdr8 = 8%nat) by reflexivity.
  destruct (tracks t) as [|e es] eqn:Ets.
  - (* no entry: the header alone *)
    cbn [forallb lay_entries for_each length].
    rewrite bind_ret_l, bind_w_tell, bind_get_tracks, Ets.
    cbn [length strings_loop].
    rewrite bind_ret_l, bind_w_tell, bind_w_seek, ?bind_assoc, bind_pack_H.
    change (struct.in_range 0 65535 (Z.of_nat 12)) with true. cbv beta iota.
    rewrite (bind_w_write_end t hdr8), bind_pack_H.
    change (struct.in_range 0 65535 (Z.of_nat 12)) with true. cbv beta iota.
    rewrite w_write_end.
    change (struct.in_range 0 65535 (Z.of_nat (12 + 16 * 0 + length (@nil byte))))
      with true. cbv beta iota.
    eexists. unfold hdr8. rewrite <- !app_assoc, !app_nil_r. reflexivity.
  - (* the records *)
    cbn [forallb for_each]. rewrite bind_assoc.
    pose proof (write_fixed_run t hdr8 12 e ltac:(rewrite Hh8; lia)) as He.
    rewrite Hh8 in He. change (repeat x00 (12 - 8)) with [x00; x00; x00; x00] in He.
    destruct (fields_ok e); cbn [andb]; [|now apply fails_bind].
    rewrite (bind_Ret _ _ _ _ _ He). clear He.
    pose proof (for_each_write_fixed_run t es
                  (hdr8 ++ [x00; x00; x00; x00] ++ fixed_bytes e 0xFFFF 0xFFFF)) as Hes.
    destruct (forallb fields_ok es); [|now apply fails_bind].
    rewrite (bind_Ret _ _ _ _ _ Hes). clear Hes.
    rewrite bind_w_tell, bind_get_tracks, Ets.
    (* the strings *)
    assert (Hd : (hdr8 ++ [x00; x00; x00; x00] ++ fixed_bytes e 0xFFFF 0xFFFF)
                 ++ placeholder_records es
                 = (hdr8 ++ [x00; x00; x00; x00]) ++ placeholder_records (e :: es) ++ []).
    { unfold placeholder_records. cbn [map concat].
      rewrite <- !app_assoc, app_nil_r. reflexivity. }
    rewrite Hd. clear Hd.
    set (pre := hdr8 ++ [x00; x00; x00; x00]).
    assert (Hpre : length pre = 12%nat) by reflexivity.
    assert (Hso : length (pre ++ placeholder_records (e :: es) ++ [])
                  = (12 + 16 * length (e :: es))%nat).
    { rewrite !length_app, Hpre, length_placeholder_records. cbn [length]. lia. }
    pose proof (strings_loop_run t _ (e :: es) [] pre [] Ets Hpre
                  ltac:(rewrite Ets; exact Hso)) as Hloop.
    destruct (lay_entries (e :: es) []) as [[recs region]|] eqn:El;
      [|now apply fails_bind].
    rewrite (bind_Ret _ _ _ tt _ Hloop). clear Hloop.
    pose proof (lay_entries_length _ _ _ _ El) as Hrecs.
    (* the two header fields *)
    rewrite bind_w_tell, bind_w_seek, ?bind_assoc, bind_pack_H.
    replace (length (pre ++ recs ++ region))
      with (12 + 16 * length (e :: es) + length region)%nat
      by (rewrite !length_app, Hpre, Hrecs; lia).
    rewrite Hso.
    destruct (struct.in_range 0 65535
                (Z.of_nat (12 + 16 * length (e :: es) + length region))) eqn:Etot;
      [|raised].
    replace (pre ++ recs ++ region)
      with (hdr8 ++ [x00; x00] ++ ([x00; x00] ++ recs ++ region))
      by (unfold pre; rewrite <- !app_assoc; reflexivity).
    rewrite (bind_w_write_patch t hdr8 [x00; x00]) by reflexivity.
    rewrite bind_pack_H.
    rewrite (in_range_le _ _ _ (Z.of_nat (12 + 16 * length (e :: es))) Etot) by lia.
    replace (hdr8 ++ be16 (Z.of_nat (12 + 16 * length (e :: es) + length region))
             ++ [x00; x00] ++ recs ++ region)
      with ((hdr8 ++ be16 (Z.of_nat (12 + 16 * length (e :: es) + length region)))
            ++ [x00; x00] ++ recs ++ region)
      by (rewrite <- !app_assoc; reflexivity).
    rewrite (w_write_patch t (hdr8 ++ be16 _) [x00; x00]) by reflexivity.
    eexists. unfold hdr8. rewrite <- !app_assoc. reflexivity.
Qed.

(** The encoder against its layout: the bytes of the layout when there is
    one, otherwise struct.error or UnicodeEncodeError. *)
Lemma toTlst_bytes_layout t :
  match layout t with
  | Some buf => toTlst_bytes t = Ret buf
  | None =>
      exists e, toTlst_bytes t = Raise e /\ (e = StructError \/ e = UnicodeEncodeError)
  end.
Proof.
  pose proof (toTlst_run t) as H. unfold toTlst_bytes.
  change (fresh t) with (mk t [] 0).
  destruct (layout t) as [buf|].
  - destruct H as [p H]. now rewrite H.
  - destruct H as (e & w & H & He). rewrite H. now exists e.
Qed.

(** ** Bytes and 16-bit fields *)

Lemma byte_val_range b : 0 <= byte_val b < 256.
Proof.
  unfold byte_val. pose proof (Byte.to_N_bounded b) as H. lia.
Qed.

Lemma byte_val_byte_of z : byte_val (byte_of z) = z mod 256.
Proof.
  unfold byte_val, byte_of.
  pose proof (Z.mod_pos_bound z 256 eq_refl) as Hr.
  destruct (Byte.of_N (Z.to_N (z mod 256))) as [b|] eqn:E.
  - apply Byte.to_of_N in E. rewrite E. lia.
  - apply Byte.of_N_None_iff in E. lia.
Qed.

Lemma byte_of_byte_val b : byte_of (byte_val b) = b.
Proof.
  unfold byte_of, byte_val.
  pose proof (Byte.to_N_bounded b) as H.
  rewrite Z.mod_small by lia. rewrite N2Z.id, Byte.of_to_N. reflexivity.
Qed.

Lemma be16_value v :
  0 <= v <= 0xFFFF ->
  byte_val (byte_of (v / 256)) * 256 + byte_val (byte_of v) = v.
Proof.
  intros Hv. rewrite !byte_val_byte_of.
  rewrite (Z.mod_small (v / 256)) by (split; [apply Z.div_pos; lia | apply Z.div_lt_upper_bound; lia]).
  pose proof (Z.div_mod v 256 ltac:(lia)). lia.
Qed.

(** A 16-bit field reads back as the value that was packed into it. *)
Lemma stored_H_at l1 v l3 :
  0 <= v <= 0xFFFF -> stored_H (l1 ++ be16 v ++ l3) (length l1) = Ret v.
Proof.
  intros Hv. unfold stored_H, bind, f_seek, f_read. cbn [data pos fst].
  rewrite skipn_app, skipn_all, Nat.sub_diag. cbn [skipn app be16 firstn].
  unfold struct.unpack_H, ret. cbn [fst]. now rewrite be16_value.
Qed.

(** ** Offsets of the layout *)

Lemma place_spec s region off region' :
  place s region = Some (off, region') ->
  length region' = (length region + string_size s)%nat /\
  (s <> [] -> off = Z.of_nat (length region) /\ (1 <= string_size s)%nat).
Proof.
  unfold place, string_size. destruct s as [|c s].
  - intros H. injection H as <- <-. split; [lia | intros Hne; now elim Hne].
  - destruct (utf8_encode (c :: s)) as [bs|]; [|discriminate].
    destruct (struct.in_range _ _ _); [|discriminate].
    intros H. injection H as <- <-. split.
    + rewrite !length_app. cbn [length]. lia.
    + intros _. split; [reflexivity | lia].
Qed.

Lemma list_sum_cons a l : list_sum (a :: l) = (a + list_sum l)%nat.
Proof. reflexivity. Qed.

(** Where the record of entry [x] sits among the records, and what its
    two offsets are. *)
Lemma lay_entries_spec es :
  forall region recs region',
    lay_entries es region = Some (recs, region') ->
    length region' = (length region + list_sum (map entry_size es))%nat /\
    forall x e,
      nth_error es x = Some e ->
      exists before fo to after,
        recs = before ++ fixed_bytes e fo to ++ after /\
        length before = (16 * x)%nat /\
        (length region + list_sum (map entry_size (firstn x es)) + entry_size e
         <= length region')%nat /\
        (filename e <> [] ->
         fo = Z.of_nat (length region + list_sum (map entry_size (firstn x es)))
         /\ (1 <= string_size (filename e))%nat) /\
        (title e <> [] ->
         to = Z.of_nat (length region + list_sum (map entry_size (firstn x es))
                        + string_size (filename e))
         /\ (1 <= string_size (title e))%nat).
Proof.
  induction es as [|e0 es IH]; intros region recs region' H; cbn [lay_entries] in H.
  - injection H as <- <-. split; [cbn; lia|]. intros [|x] e Hx; discriminate Hx.
  - destruct (place (filename e0) region) as [[fo r1]|] eqn:E1; [|discriminate].
    destruct (place (title e0) r1) as [[to r2]|] eqn:E2; [|discriminate].
    destruct (lay_entries es r2) as [[recs' r3]|] eqn:E3; [|discriminate].
    assert (Hrecs : recs = fixed_bytes e0 fo to ++ recs' /\ region' = r3).
    { split; congruence. }
    destruct Hrecs as [-> ->]. clear H.
    destruct (place_spec _ _ _ _ E1) as [L1 O1].
    destruct (place_spec _ _ _ _ E2) as [L2 O2].
    destruct (IH _ _ _ E3) as [L3 Hx3].
    assert (Hsize : length r2 = (length region + entry_size e0)%nat)
      by (unfold entry_size; lia).
    split; [cbn [map]; rewrite list_sum_cons; lia|].
    intros [|x] e Hx.
    + injection Hx as <-. exists [], fo, to, recs'.
      cbn [firstn map app length]. change (list_sum []) with 0%nat.
      rewrite Nat.add_0_r.
      split; [reflexivity|]. split; [reflexivity|]. split; [lia|].
      split; intros Hne.
      * exact (O1 Hne).
      * destruct (O2 Hne) as [-> Hs]. split; [f_equal; lia | exact Hs].
    + cbn [nth_error] in Hx.
      destruct (Hx3 x e Hx) as (before & fo' & to' & after & -> & Hb & Hle & Hf & Ht).
      exists (fixed_bytes e0 fo to ++ before), fo', to', after.
      cbn [firstn map]. rewrite list_sum_cons.
      split; [now rewrite <- app_assoc|].
      split; [rewrite length_app, length_fixed_bytes, Hb; lia|].
      split; [lia|].
      split; intros Hne.
      * destruct (Hf Hne) as [-> Hs]. split; [f_equal; lia | exact Hs].
      * destruct (Ht Hne) as [-> Hs]. split; [f_equal; lia | exact Hs].
Qed.

Lemma layout_offsets t buf :
  layout t = Some buf ->
  forall x e,
    nth_error (tracks t) x = Some e ->
    (filename e <> [] ->
     stored_H buf (x * 0x10 + 0xC + 0x8) = Ret (filename_offset t x)
     /\ filename_offset t x <= 0xFFFE) /\
    (title e <> [] ->
     stored_H buf (x * 0x10 + 0xC + 0xA) = Ret (title_offset t x)
     /\ title_offset t x <= 0xFFFE).
Proof.
  unfold layout. intros HL x e Hx.
  destruct (struct.in_range 0 0xFFFFFFFF _ && forallb fields_ok (tracks t));
    [|discriminate].
  destruct (lay_entries (tracks t) []) as [[recs region]|] eqn:El; [|discriminate].
  destruct (struct.in_range 0 0xFFFF _) eqn:Etot; [|discriminate].
  injection HL as <-.
  unfold struct.in_range in Etot. apply andb_true_iff in Etot.
  destruct Etot as [_ Etot]. apply Z.leb_le in Etot.
  destruct (lay_entries_spec _ _ _ _ El) as [_ Hspec].
  destruct (Hspec x e Hx) as (before & fo & to & after & -> & Hb & Hle & Hf & Ht).
  cbn [length] in Hle, Hf, Ht. rewrite Nat.add_0_l in Hle, Hf, Ht.
  assert (Hn : (x < length (tracks t))%nat) by (apply nth_error_Some; congruence).
  unfold title_offset, filename_offset. rewrite Hx.
  pose proof (eq_refl : entry_size e = (string_size (filename e) + string_size (title e))%nat)
    as Hsize.
  split; intros Hne.
  - destruct (Hf Hne) as [-> Hs].
    split; [|lia].
    replace (x * 0x10 + 0xC + 0x8)%nat
      with (length (magic ++ be32 (Z.of_nat (length (tracks t)))
                    ++ be16 (Z.of_nat (12 + 16 * length (tracks t) + length region))
                    ++ be16 (Z.of_nat (12 + 16 * length (tracks t)))
                    ++ before ++ head8 e))
      by (cbn [magic be32 be16 app length]; rewrite length_app, Hb, length_head8; lia).
    rewrite <- stored_H_at
      with (l1 := magic ++ be32 (Z.of_nat (length (tracks t)))
                    ++ be16 (Z.of_nat (12 + 16 * length (tracks t) + length region))
                    ++ be16 (Z.of_nat (12 + 16 * length (tracks t)))
                    ++ before ++ head8 e)
           (l3 := be16 to ++ tail4 e ++ after ++ region) by lia.
    f_equal. rewrite fixed_bytes_split, <- !app_assoc. reflexivity.
  - destruct (Ht Hne) as [-> Hs].
    split; [|lia].
    replace (x * 0x10 + 0xC + 0xA)%nat
      with (length (magic ++ be32 (Z.of_nat (length (tracks t)))
                    ++ be16 (Z.of_nat (12 + 16 * length (tracks t) + length region))
                    ++ be16 (Z.of_nat (12 + 16 * length (tracks t)))
                    ++ before ++ head8 e ++ be16 fo))
      by (cbn [magic be32 be16 app length];
          rewrite !length_app, Hb, length_head8, length_be16; lia).
    rewrite Nat2Z.inj_add.
    rewrite <- stored_H_at
      with (l1 := magic ++ be32 (Z.of_nat (length (tracks t)))
                    ++ be16 (Z.of_nat (12 + 16 * length (tracks t) + length region))
                    ++ be16 (Z.of_nat (12 + 16 * length (tracks t)))
                    ++ before ++ head8 e ++ be16 fo)
           (l3 := tail4 e ++ after ++ region) by lia.
    f_equal. rewrite fixed_bytes_split, <- !app_assoc. reflexivity.
Qed.

Lemma layout_entry_end t buf :
  layout t = Some buf ->
  forall x e,
    nth_error (tracks t) x = Some e ->
    filename_offset t x + Z.of_nat (entry_size e) <= 0xFFFE.
Proof.
  unfold layout. intros HL x e Hx.
  destruct (struct.in_range 0 0xFFFFFFFF _ && forallb fields_ok (tracks t));
    [|discriminate].
  destruct (lay_entries (tracks t) []) as [[recs region]|] eqn:El; [|discriminate].
  destruct (struct.in_range 0 0xFFFF _) eqn:Etot; [|discriminate].
  apply in_range_spec in Etot.
  destruct (lay_entries_spec _ _ _ _ El) as [_ Hspec].
  destruct (Hspec x e Hx) as (_ & _ & _ & _ & _ & _ & Hle & _).
  cbn [length] in Hle. rewrite Nat.add_0_l in Hle.
  unfold filename_offset. lia.
Qed.

(** The encoder either raises (struct.error or UnicodeEncodeError; in
    particular when the entry count exceeds 0xFFFFFFFF, when a non-empty
    string would get an offset above 0xFFFE, or when the strings of an
    entry would end above 0xFFFE), or returns a buffer in which the slot
    of every non-empty string holds the offset of that string in the
    string region, which is at most 0xFFFE and so never the sentinel
    0xFFFF. *)
Lemma toTlst_offsets_or_raises (t : TLST) :
  match toTlst_bytes t with
  | Ret buf =>
      forall x e,
        nth_error (tracks t) x = Some e ->
        (filename e <> [] ->
         stored_H buf (x * 0x10 + 0xC + 0x8) = Ret (filename_offset t x)
         /\ filename_offset t x <= 0xFFFE) /\
        (title e <> [] ->
         stored_H buf (x * 0x10 + 0xC + 0xA) = Ret (title_offset t x)
         /\ title_offset t x <= 0xFFFE)
  | Raise err =>
      (err = StructError \/ err = UnicodeEncodeError) /\
      (0xFFFFFFFF < Z.of_nat (length (tracks t)) -> err = StructError)
  | OutOfFuel => False
  end /\
  (0xFFFFFFFF < Z.of_nat (length (tracks t)) ->
   exists err, toTlst_bytes t = Raise err) /\
  (forall x e,
     nth_error (tracks t) x = Some e ->
     (filename e <> [] /\ 0xFFFE < filename_offset t x) \/
     (title e <> [] /\ 0xFFFE < title_offset t x) \/
     0xFFFE < filename_offset t x + Z.of_nat (entry_size e) ->
     exists err, toTlst_bytes t = Raise err).
Proof.
  pose proof (toTlst_bytes_layout t) as H.
  destruct (layout t) as [buf|] eqn:El.
  - rewrite H. split; [exact (layout_offsets t buf El)|].
    split.
    + intros Hn. exfalso. unfold layout in El.
      destruct (struct.in_range 0 0xFFFFFFFF (Z.of_nat (length (tracks t)))) eqn:E;
        [|discriminate El].
      apply in_range_spec in E. lia.
    + intros x e Hx Hover. exfalso.
      destruct (layout_offsets t buf El x e Hx) as [Hf Ht].
      pose proof (layout_entry_end t buf El x e Hx) as Hend.
      destruct Hover as [[Hne Hgt]|[[Hne Hgt]|Hgt]];
        [destruct (Hf Hne) | destruct (Ht Hne) | ]; lia.
  - destruct H as (err & H & Herr). rewrite H.
    split; [split; [exact Herr|] | split; [now exists err | now exists err]].
    intros Hn. unfold toTlst_bytes, toTlst in H. change (fresh t) with (mk t [] 0) in H.
    rewrite (bind_w_write_end t [] magic), bind_get_tracks, ?bind_assoc, bind_pack_I in H.
    assert (E : struct.in_range 0 0xFFFFFFFF (Z.of_nat (length (tracks t))) = false).
    { unfold struct.in_range. apply andb_false_iff. right. apply Z.leb_gt. lia. }
    rewrite E in H. congruence.
Qed.

(** ** UTF-8: decoding undoes encoding *)

Lemma byte_val_byte_of_small z : 0 <= z < 256 -> byte_val (byte_of z) = z.
Proof. intros H. rewrite byte_val_byte_of. now apply Z.mod_small. Qed.

Ltac bytes_small :=
  rewrite ?byte_val_byte_of_small by (Z.div_mod_to_equations; lia).

Ltac decide_test :=
  match goal with
  | |- context [?a <? ?b] =>
      first [ replace (a <? b) with true
                by (symmetry; apply Z.ltb_lt; Z.div_mod_to_equations; lia)
            | replace (a <? b) with false
                by (symmetry; apply Z.ltb_ge; Z.div_mod_to_equations; lia) ]
  | |- context [?a <=? ?b] =>
      first [ replace (a <=? b) with true
                by (symmetry; apply Z.leb_le; Z.div_mod_to_equations; lia)
            | replace (a <=? b) with false
                by (symmetry; apply Z.leb_gt; Z.div_mod_to_equations; lia) ]
  end.

Lemma Some_inj {A} (a b : A) : Some a = Some b -> a = b.
Proof. congruence. Qed.

Lemma utf8_decode_cp c cb rest :
  utf8_encode_cp c = Some cb ->
  utf8_decode (cb ++ rest) = cons_opt c (utf8_decode rest).
Proof.
  unfold utf8_encode_cp.
  destruct (c <? 0) eqn:E0; [discriminate|]. apply Z.ltb_ge in E0.
  destruct (c <? 0x80) eqn:E1.
  { apply Z.ltb_lt in E1. intros H. apply Some_inj in H. subst cb.
    cbn [app utf8_decode]. bytes_small. repeat decide_test. reflexivity. }
  apply Z.ltb_ge in E1.
  destruct (c <? 0x800) eqn:E2.
  { apply Z.ltb_lt in E2. intros H. apply Some_inj in H. subst cb.
    cbn [app utf8_decode]. unfold is_cont. bytes_small.
    repeat decide_test. cbn [andb]. f_equal. Z.div_mod_to_equations. lia. }
  apply Z.ltb_ge in E2.
  destruct (c <? 0x10000) eqn:E3.
  { apply Z.ltb_lt in E3.
    destruct (is_surrogate c) eqn:Es; [discriminate|].
    intros H. apply Some_inj in H. subst cb.
    cbn [app utf8_decode]. unfold is_cont. bytes_small.
    replace ((0xE0 + c / 4096 - 0xE0) * 4096 + (0x80 + (c / 64) mod 64 - 0x80) * 64
             + (0x80 + c mod 64 - 0x80)) with c
      by (Z.div_mod_to_equations; lia).
    rewrite Es. repeat decide_test. reflexivity. }
  apply Z.ltb_ge in E3.
  destruct (c <? 0x110000) eqn:E4; [|discriminate].
  apply Z.ltb_lt in E4. intros H. apply Some_inj in H. subst cb.
  cbn [app utf8_decode]. unfold is_cont. bytes_small.
  replace ((0xF0 + c / 262144 - 0xF0) * 262144 + (0x80 + (c / 4096) mod 64 - 0x80) * 4096
           + (0x80 + (c / 64) mod 64 - 0x80) * 64 + (0x80 + c mod 64 - 0x80)) with c
    by (Z.div_mod_to_equations; lia).
  repeat decide_test. reflexivity.
Qed.

Lemma utf8_decode_encode s :
  forall bs, utf8_encode s = Some bs -> utf8_decode bs = Some s.
Proof.
  induction s as [|c s IH]; intros bs H; cbn [utf8_encode] in H.
  - now injection H as <-.
  - destruct (utf8_encode_cp c) as [cb|] eqn:Ec; [|discriminate].
    destruct (utf8_encode s) as [r|]; [|discriminate].
    injection H as <-. rewrite (utf8_decode_cp _ _ _ Ec), (IH r eq_refl). reflexivity.
Qed.

Lemma byte_of_nonzero z : 0 < z < 256 -> byte_of z <> x00.
Proof.
  intros Hz H. apply (f_equal byte_val) in H.
  rewrite byte_val_byte_of_small in H by lia.
  change (byte_val x00) with 0 in H. lia.
Qed.

Ltac nonzero_byte :=
  match goal with
  | H : byte_of ?z = x00 |- _ =>
      revert H; apply byte_of_nonzero; Z.div_mod_to_equations; lia
  end.

(** A string without U+0000 has no 0x00 byte in its encoding. *)
Lemma utf8_encode_cp_no_nul c cb :
  utf8_encode_cp c = Some cb -> c <> 0 -> ~ In x00 cb.
Proof.
  unfold utf8_encode_cp.
  destruct (c <? 0) eqn:E0; [discriminate|]. apply Z.ltb_ge in E0.
  destruct (c <? 0x80) eqn:E1.
  { apply Z.ltb_lt in E1. intros H Hc. apply Some_inj in H. subst cb.
    intros [H|[]]. nonzero_byte. }
  apply Z.ltb_ge in E1.
  destruct (c <? 0x800) eqn:E2.
  { apply Z.ltb_lt in E2. intros H Hc. apply Some_inj in H. subst cb.
    intros [H|[H|[]]]; nonzero_byte. }
  apply Z.ltb_ge in E2.
  destruct (c <? 0x10000) eqn:E3.
  { apply Z.ltb_lt in E3. destruct (is_surrogate c); [discriminate|].
    intros H Hc. apply Some_inj in H. subst cb.
    intros [H|[H|[H|[]]]]; nonzero_byte. }
  apply Z.ltb_ge in E3.
  destruct (c <? 0x110000) eqn:E4; [|discriminate].
  apply Z.ltb_lt in E4. intros H Hc. apply Some_inj in H. subst cb.
  intros [H|[H|[H|[H|[]]]]]; nonzero_byte.
Qed.

Lemma utf8_encode_no_nul s :
  forall bs, utf8_encode s = Some bs -> ~ In 0 s -> ~ In x00 bs.
Proof.
  induction s as [|c s IH]; intros bs H Hs; cbn [utf8_encode] in H.
  - apply Some_inj in H. subst bs. intros [].
  - destruct (utf8_encode_cp c) as [cb|] eqn:Ec; [|discriminate].
    destruct (utf8_encode s) as [r|]; [|discriminate].
    apply Some_inj in H. subst bs. intros Hin. apply in_app_or in Hin.
    destruct Hin as [Hin|Hin].
    + revert Hin. apply (utf8_encode_cp_no_nul _ _ Ec).
      intros ->. apply Hs. now left.
    + revert Hin. apply (IH r eq_refl). intros H0. apply Hs. now right.
Qed.

(** ** Where the strings sit in the layout *)

Lemma place_region s region off region' :
  place s region = Some (off, region') ->
  (s = [] /\ region' = region) \/
  (s <> [] /\ exists bs, utf8_encode s = Some bs /\ region' = region ++ bs ++ [x00]
                         /\ string_size s = (length bs + 1)%nat).
Proof.
  unfold place, string_size. destruct s as [|c s].
  - intros H. apply Some_inj in H. left. split; congruence.
  - destruct (utf8_encode (c :: s)) as [bs|]; [|discriminate].
    destruct (struct.in_range _ _ _); [|discriminate].
    intros H. apply Some_inj in H. right. split; [discriminate|].
    exists bs. repeat split. congruence.
Qed.

Lemma place_prefix s region off region' :
  place s region = Some (off, region') -> exists ext, region' = region ++ ext.
Proof.
  intros H. destruct (place_region _ _ _ _ H) as [[_ ->]|[_ (bs & _ & -> & _)]].
  - exists []. now rewrite app_nil_r.
  - now exists (bs ++ [x00]).
Qed.

Lemma lay_entries_prefix es :
  forall region recs region',
    lay_entries es region = Some (recs, region') -> exists ext, region' = region ++ ext.
Proof.
  induction es as [|e es IH]; intros region recs region' H; cbn [lay_entries] in H.
  - apply Some_inj in H. exists []. rewrite app_nil_r. congruence.
  - destruct (place (filename e) region) as [[fo r1]|] eqn:E1; [|discriminate].
    destruct (place (title e) r1) as [[to r2]|] eqn:E2; [|discriminate].
    destruct (lay_entries es r2) as [[recs' r3]|] eqn:E3; [|discriminate].
    apply Some_inj in H.
    destruct (place_prefix _ _ _ _ E1) as [x1 ->].
    destruct (place_prefix _ _ _ _ E2) as [x2 ->].
    destruct (IH _ _ _ E3) as [x3 ->].
    exists (x1 ++ x2 ++ x3). rewrite <- !app_assoc in H. congruence.
Qed.

Lemma lay_entries_strings es :
  forall region recs region',
    lay_entries es region = Some (recs, region') ->
    forall x e,
      nth_error es x = Some e ->
      (filename e <> [] ->
       exists rb bs ra,
         utf8_encode (filename e) = Some bs /\
         region' = rb ++ bs ++ x00 :: ra /\
         length rb = (length region + list_sum (map entry_size (firstn x es)))%nat /\
         string_size (filename e) = (length bs + 1)%nat) /\
      (title e <> [] ->
       exists rb bs ra,
         utf8_encode (title e) = Some bs /\
         region' = rb ++ bs ++ x00 :: ra /\
         length rb = (length region + list_sum (map entry_size (firstn x es))
                      + string_size (filename e))%nat /\
         string_size (title e) = (length bs + 1)%nat).
Proof.
  induction es as [|e0 es IH]; intros region recs region' H x e Hx;
    cbn [lay_entries] in H.
  - destruct x; discriminate Hx.
  - destruct (place (filename e0) region) as [[fo r1]|] eqn:E1; [|discriminate].
    destruct (place (title e0) r1) as [[to r2]|] eqn:E2; [|discriminate].
    destruct (lay_entries es r2) as [[recs' r3]|] eqn:E3; [|discriminate].
    assert (region' = r3) by congruence. subst region'. clear H.
    destruct (place_spec _ _ _ _ E1) as [L1 _].
    destruct (place_spec _ _ _ _ E2) as [L2 _].
    destruct x as [|x].
    + apply Some_inj in Hx. subst e0.
      cbn [firstn map]. change (list_sum []) with 0%nat. rewrite Nat.add_0_r.
      destruct (place_prefix _ _ _ _ E2) as [x2 Hx2].
      destruct (lay_entries_prefix _ _ _ _ E3) as [x3 Hx3].
      split; intros Hne.
      * destruct (place_region _ _ _ _ E1) as [[He _]|[_ (bs & Hbs & Hr1 & Hsz)]];
          [contradiction|].
        exists region, bs, (x2 ++ x3). repeat split; try assumption.
        rewrite Hx3, Hx2, Hr1, <- !app_assoc. reflexivity.
      * destruct (place_region _ _ _ _ E2) as [[He _]|[_ (bs & Hbs & Hr2 & Hsz)]];
          [contradiction|].
        exists r1, bs, x3. repeat split; try assumption.
        rewrite Hx3, Hr2, <- !app_assoc. reflexivity.
    + cbn [nth_error] in Hx. cbn [firstn map]. rewrite list_sum_cons.
      destruct (IH _ _ _ E3 x e Hx) as [Hf Ht].
      unfold entry_size at 1 3.
      split; intros Hne.
      * destruct (Hf Hne) as (rb & bs & ra & Hbs & Hr & Hlen & Hsz).
        exists rb, bs, ra. repeat split; try assumption. lia.
      * destruct (Ht Hne) as (rb & bs & ra & Hbs & Hr & Hlen & Hsz).
        exists rb, bs, ra. repeat split; try assumption. lia.
Qed.

(** ** Decoding what the encoder lays out *)

Lemma bind_f_read {B} d p n bs tl (k : list byte -> M file B) :
  skipn p d = bs ++ tl -> length bs = n ->
  bind (f_read n) k {| data := d; pos := p |}
  = k bs {| data := d; pos := p + n |}.
Proof.
  intros Hs Hn. unfold bind, f_read. cbn [data pos].
  rewrite Hs, firstn_app, <- Hn, firstn_all, Nat.sub_diag, firstn_O, app_nil_r.
  reflexivity.
Qed.

Lemma skipn_shift {A} p (d bs tl : list A) :
  skipn p d = bs ++ tl -> skipn (p + length bs) d = tl.
Proof.
  intros Hs. rewrite Nat.add_comm, <- skipn_skipn, Hs, skipn_app, skipn_all, Nat.sub_diag.
  reflexivity.
Qed.

Lemma be32_value v :
  0 <= v <= 0xFFFFFFFF ->
  ((byte_val (byte_of (v / 16777216)) * 256 + byte_val (byte_of (v / 65536))) * 256
   + byte_val (byte_of (v / 256))) * 256 + byte_val (byte_of v) = v.
Proof.
  intros Hv. rewrite !byte_val_byte_of.
  replace (v / 65536) with (v / 256 / 256) by (rewrite Z.div_div by lia; reflexivity).
  replace (v / 16777216) with (v / 256 / 256 / 256)
    by (rewrite !Z.div_div by lia; reflexivity).
  pose proof (Z.div_mod v 256 ltac:(lia)) as H1.
  pose proof (Z.mod_pos_bound v 256 ltac:(lia)) as B1.
  pose proof (Z.div_mod (v / 256) 256 ltac:(lia)) as H2.
  pose proof (Z.mod_pos_bound (v / 256) 256 ltac:(lia)) as B2.
  pose proof (Z.div_mod (v / 256 / 256) 256 ltac:(lia)) as H3.
  pose proof (Z.mod_pos_bound (v / 256 / 256) 256 ltac:(lia)) as B3.
  assert (B4 : 0 <= v / 256 / 256 / 256 < 256).
  { split; [repeat apply Z.div_pos; lia|].
    rewrite !Z.div_div by lia. apply Z.div_lt_upper_bound; lia. }
  rewrite (Z.mod_small (v / 256 / 256 / 256)) by lia.
  generalize dependent (v / 256 / 256 / 256).
  generalize dependent (v / 256 / 256 mod 256).
  generalize dependent (v / 256 / 256).
  generalize dependent (v / 256 mod 256).
  generalize dependent (v / 256).
  generalize dependent (v mod 256).
  intros. lia.
Qed.

Lemma bind_unpack_I {S B} v (k : Z -> M S B) s :
  struct.in_range 0 0xFFFFFFFF v = true ->
  bind (struct.unpack_I (be32 v)) k s = k v s.
Proof.
  intros Hv. apply in_range_spec in Hv.
  unfold bind, struct.unpack_I, be32, ret. now rewrite be32_value.
Qed.

Lemma bind_unpack_H {S B} v (k : Z -> M S B) s :
  struct.in_range 0 0xFFFF v = true ->
  bind (struct.unpack_H (be16 v)) k s = k v s.
Proof.
  intros Hv. apply in_range_spec in Hv.
  unfold bind, struct.unpack_H, be16, ret. now rewrite be16_value.
Qed.

Lemma bind_unpack_b {S B} v (k : Z -> M S B) s :
  struct.in_range (-128) 127 v = true ->
  bind (struct.unpack_b [byte_of v]) k s = k v s.
Proof.
  intros Hv. apply in_range_spec in Hv.
  unfold bind, struct.unpack_b, ret. rewrite !byte_val_byte_of.
  destruct (v mod 256 <? 128) eqn:E;
    [apply Z.ltb_lt in E | apply Z.ltb_ge in E]; f_equal;
    Z.div_mod_to_equations; lia.
Qed.

Lemma bind_unpack_bool {S B} v (k : bool -> M S B) s :
  bind (struct.unpack_bool [bool_byte v]) k s = k v s.
Proof. now destruct v. Qed.

(** The fixed record reads back as it was laid out. *)
Lemma read_fixed_layout d p0 x e fo to tl :
  skipn (x * 0x10 + 0xC) d = fixed_bytes e fo to ++ tl ->
  fields_ok e = true ->
  struct.in_range 0 0xFFFF fo = true ->
  struct.in_range 0 0xFFFF to = true ->
  read_fixed x {| data := d; pos := p0 |}
  = (Ret (without_strings e, fo, to), {| data := d; pos := x * 0x10 + 0xC + 16 |}).
Proof.
  intros Hs Hok Hfo Hto. unfold fields_ok in Hok.
  do 4 (apply andb_true_iff in Hok; destruct Hok as [Hok ?]).
  unfold read_fixed, fixed_bytes in *. rewrite <- !app_assoc in Hs.
  unfold bind at 1. cbn [f_seek data pos].
  repeat
    (rewrite ?bind_assoc;
     match goal with
     | H : skipn ?p d = ?bs ++ ?tl'
       |- context [bind (f_read ?n) _ {| data := d; pos := ?p |}] =>
         rewrite (bind_f_read d p n bs tl' _ H eq_refl);
         apply skipn_shift in H; cbn [length be32 be16] in H
     end;
     first [ rewrite bind_unpack_I by assumption
           | rewrite bind_unpack_H by assumption
           | rewrite bind_unpack_b by assumption
           | rewrite bind_unpack_bool ]).
  unfold ret. f_equal. f_equal. lia.
Qed.

Lemma place_offset s region off region' :
  place s region = Some (off, region') ->
  struct.in_range 0 0xFFFF off = true /\
  ((s = [] /\ off = 0xFFFF) \/ (s <> [] /\ off = Z.of_nat (length region))).
Proof.
  unfold place. destruct s as [|c s].
  - intros H. apply Some_inj in H.
    assert (off = 0xFFFF) by congruence. subst off.
    split; [reflexivity | left; now split].
  - destruct (utf8_encode (c :: s)) as [bs|]; [|discriminate].
    destruct (struct.in_range _ _ _) eqn:E; [|discriminate].
    intros H. apply Some_inj in H.
    assert (off = Z.of_nat (length region)) by congruence. subst off.
    split; [exact E | right; split; [discriminate | reflexivity]].
Qed.

(** The record of entry [x] in the layout, with what its offsets are. *)
Lemma lay_entries_record es :
  forall region recs region',
    lay_entries es region = Some (recs, region') ->
    forall x e,
      nth_error es x = Some e ->
      exists before fo to after,
        recs = before ++ fixed_bytes e fo to ++ after /\
        length before = (16 * x)%nat /\
        struct.in_range 0 0xFFFF fo = true /\
        struct.in_range 0 0xFFFF to = true /\
        ((filename e = [] /\ fo = 0xFFFF) \/
         (filename e <> [] /\
          fo = Z.of_nat (length region + list_sum (map entry_size (firstn x es))))) /\
        ((title e = [] /\ to = 0xFFFF) \/
         (title e <> [] /\
          to = Z.of_nat (length region + list_sum (map entry_size (firstn x es))
                         + string_size (filename e)))).
Proof.
  induction es as [|e0 es IH]; intros region recs region' H x e Hx;
    cbn [lay_entries] in H.
  - destruct x; discriminate Hx.
  - destruct (place (filename e0) region) as [[fo r1]|] eqn:E1; [|discriminate].
    destruct (place (title e0) r1) as [[to r2]|] eqn:E2; [|discriminate].
    destruct (lay_entries es r2) as [[recs' r3]|] eqn:E3; [|discriminate].
    assert (recs = fixed_bytes e0 fo to ++ recs') by congruence. subst recs. clear H.
    destruct (place_spec _ _ _ _ E1) as [L1 _].
    destruct (place_spec _ _ _ _ E2) as [L2 _].
    destruct (place_offset _ _ _ _ E1) as [R1 O1].
    destruct (place_offset _ _ _ _ E2) as [R2 O2].
    destruct x as [|x].
    + apply Some_inj in Hx. subst e0. exists [], fo, to, recs'.
      cbn [firstn map app length]. change (list_sum []) with 0%nat.
      rewrite Nat.add_0_r.
      split; [reflexivity|]. split; [reflexivity|].
      split; [exact R1|]. split; [exact R2|].
      split; [exact O1|].
      destruct O2 as [O2|[O2 ->]]; [left; exact O2 | right; split; [exact O2|]].
      f_equal. lia.
    + cbn [nth_error] in Hx.
      destruct (IH _ _ _ E3 x e Hx)
        as (before & fo' & to' & after & -> & Hb & Hrf & Hrt & Hf & Ht).
      exists (fixed_bytes e0 fo to ++ before), fo', to', after.
      cbn [firstn map]. rewrite list_sum_cons. unfold entry_size at 1 3.
      split; [now rewrite <- app_assoc|].
      split; [rewrite length_app, length_fixed_bytes, Hb; lia|].
      split; [exact Hrf|]. split; [exact Hrt|].
      split.
      * destruct Hf as [Hf|[Hf ->]]; [left; exact Hf | right; split; [exact Hf|]].
        f_equal. lia.
      * destruct Ht as [Ht|[Ht ->]]; [left; exact Ht | right; split; [exact Ht|]].
        f_equal. lia.
Qed.

Lemma skipn_app_exact {A} p (l1 l2 : list A) :
  length l1 = p -> skipn p (l1 ++ l2) = l2.
Proof. intros <-. now rewrite skipn_app, skipn_all, Nat.sub_diag. Qed.

(** One string: the seek to its offset and the read up to its NUL. *)
Lemma read_string_at_run fuel d p0 p bs tl s (set : pystr -> TLSTEntry) :
  skipn p d = bs ++ x00 :: tl ->
  ~ In x00 bs ->
  utf8_decode bs = Some s ->
  (length bs < fuel)%nat ->
  (f_seek p >> s' <- readNTString fuel ;; ret (set s')) {| data := d; pos := p0 |}
  = (Ret (set s), {| data := d; pos := p + length bs + 1 |}).
Proof.
  intros Hs Hnot Hdec Hfuel.
  unfold bind at 1. cbn [f_seek data pos].
  pose proof (readNTString_nul fuel {| data := d; pos := p |} bs tl Hs Hnot Hfuel) as H.
  unfold bytes_decode in H. rewrite Hdec in H. cbn [data pos] in H.
  now rewrite (bind_Ret _ _ _ _ _ H).
Qed.

Lemma layout_inv t buf :
  layout t = Some buf ->
  exists recs region,
    lay_entries (tracks t) [] = Some (recs, region) /\
    buf = magic ++ be32 (Z.of_nat (length (tracks t)))
          ++ be16 (Z.of_nat (12 + 16 * length (tracks t) + length region))
          ++ be16 (Z.of_nat (12 + 16 * length (tracks t))) ++ recs ++ region /\
    struct.in_range 0 0xFFFFFFFF (Z.of_nat (length (tracks t))) = true /\
    forallb fields_ok (tracks t) = true /\
    struct.in_range 0 0xFFFF
      (Z.of_nat (12 + 16 * length (tracks t) + length region)) = true /\
    length recs = (16 * length (tracks t))%nat.
Proof.
  unfold layout. intros H.
  destruct (struct.in_range 0 0xFFFFFFFF _) eqn:En; [|discriminate].
  destruct (forallb fields_ok (tracks t)) eqn:Eok; [|discriminate].
  cbn [andb] in H.
  destruct (lay_entries (tracks t) []) as [[recs region]|] eqn:El; [|discriminate].
  destruct (struct.in_range 0 0xFFFF _) eqn:Etot; [|discriminate].
  apply Some_inj in H. exists recs, region.
  repeat split; try assumption; try congruence.
  exact (lay_entries_length _ _ _ _ El).
Qed.

Lemma header_of_layout t buf :
  layout t = Some buf ->
  header_of buf
  = Ret (Z.of_nat (length (tracks t)), Z.of_nat (12 + 16 * length (tracks t))).
Proof.
  intros H. destruct (layout_inv t buf H) as (recs & region & _ & -> & Hn & _ & Htot & _).
  assert (Hso : struct.in_range 0 0xFFFF (Z.of_nat (12 + 16 * length (tracks t))) = true).
  { apply (in_range_le _ _ _ _ Htot). lia. }
  unfold header_of, read_header.
  set (N := Z.of_nat (length (tracks t))).
  set (SO := Z.of_nat (12 + 16 * length (tracks t))).
  set (TOT := Z.of_nat (12 + 16 * length (tracks t) + length region)).
  unfold bind at 1. cbn [f_seek data pos].
  rewrite bind_assoc.
  rewrite (bind_f_read (magic ++ be32 N ++ be16 TOT ++ be16 SO ++ recs ++ region)
             4 4 (be32 N) (be16 TOT ++ be16 SO ++ recs ++ region) _ eq_refl eq_refl).
  rewrite bind_unpack_I by exact Hn.
  unfold bind at 1. cbn [f_seek_cur data pos Nat.add].
  rewrite bind_assoc.
  rewrite (bind_f_read (magic ++ be32 N ++ be16 TOT ++ be16 SO ++ recs ++ region)
             10 2 (be16 SO) (recs ++ region) _ eq_refl eq_refl).
  rewrite bind_unpack_H by exact Hso.
  reflexivity.
Qed.

(** An optional string of the layout: nothing to read behind the sentinel,
    the string itself behind a real offset. *)
Lemma read_opt_string fuel d so p0 off s entry (set : TLSTEntry -> pystr -> TLSTEntry) :
  ~ In 0 s ->
  (s = [] /\ off = 0xFFFF) \/
  (s <> [] /\ off <> 0xFFFF /\
   exists bs tl,
     skipn (Z.to_nat (off + so)) d = bs ++ x00 :: tl /\
     utf8_encode s = Some bs /\ (length bs < fuel)%nat) ->
  (if off =? 0xFFFF then ret entry
   else f_seek (Z.to_nat (off + so)) >>
        s' <- readNTString fuel ;; ret (set entry s'))
    {| data := d; pos := p0 |}
  = (Ret (match s with [] => entry | _ => set entry s end),
     {| data := d;
        pos := match s with
               | [] => p0
               | _ => (Z.to_nat (off + so) + string_size s)%nat
               end |}).
Proof.
  intros Hnul [[-> ->]|(Hne & Hoff & bs & tl & Hs & Henc & Hfuel)].
  - reflexivity.
  - apply Z.eqb_neq in Hoff. rewrite Hoff.
    rewrite (read_string_at_run fuel d p0 _ bs tl s (set entry) Hs
               (utf8_encode_no_nul s bs Henc Hnul) (utf8_decode_encode s bs Henc) Hfuel).
    destruct s as [|c s]; [contradiction|].
    unfold string_size. rewrite Henc. do 2 f_equal. lia.
Qed.

Lemma without_strings_eta e :
  match filename e with
  | [] => match title e with
          | [] => without_strings e
          | _ => set_title (without_strings e) (title e)
          end
  | _ => set_filename
           match title e with
           | [] => without_strings e
           | _ => set_title (without_strings e) (title e)
           end (filename e)
  end = e.
Proof. destruct e as [a b c d f g h ti fi]. destruct ti, fi; reflexivity. Qed.

Section RoundTrip.

Variables (t : TLST) (buf : list byte) (fuel : nat).

Hypothesis laid_out : layout t = Some buf.

Hypothesis strings_nul_free : forall e, In e (tracks t) -> nul_free e.

Hypothesis enough : (length buf < fuel)%nat.

(** Entry [x] of the laid out buffer reads back as entry [x] of the list. *)
Lemma entry_at_layout x e :
  nth_error (tracks t) x = Some e ->
  entry_at fuel (Z.of_nat (12 + 16 * length (tracks t))) x buf
  = Ret (e, cursor_after t x e).
Proof.
  intros Hx.
  destruct (layout_inv t buf laid_out) as (recs & region & El & Hbuf & Hn & Hok & Htot & Hrecs).
  destruct (lay_entries_record _ _ _ _ El x e Hx)
    as (before & fo & to & after & Hsplit & Hb & Hrf & Hrt & Hfo & Hto).
  destruct (lay_entries_strings _ _ _ _ El x e Hx) as [Hsf Hst].
  destruct (lay_entries_spec _ _ _ _ El) as [_ Hspec].
  destruct (Hspec x e Hx) as (_ & _ & _ & _ & _ & _ & Hle & _).
  cbn [length] in Hfo, Hto, Hsf, Hst, Hle. rewrite Nat.add_0_l in Hfo, Hto, Hsf, Hst, Hle.
  destruct (strings_nul_free e (nth_error_In _ _ Hx)) as [Hnt Hnf].
  apply in_range_spec in Htot.
  assert (Hfix : fields_ok e = true).
  { rewrite forallb_forall in Hok. apply Hok. exact (nth_error_In _ _ Hx). }
  set (n := length (tracks t)) in *.
  set (off := list_sum (map entry_size (firstn x (tracks t)))) in *.
  pose proof (eq_refl : entry_size e = (string_size (filename e) + string_size (title e))%nat)
    as Hsize.
  (* the fixed record *)
  assert (Hskip : skipn (x * 0x10 + 0xC) buf = fixed_bytes e fo to ++ after ++ region).
  { rewrite Hbuf, Hsplit.
    replace (magic ++ be32 (Z.of_nat n) ++ be16 (Z.of_nat (12 + 16 * n + length region))
             ++ be16 (Z.of_nat (12 + 16 * n))
             ++ (before ++ fixed_bytes e fo to ++ after) ++ region)
      with ((magic ++ be32 (Z.of_nat n) ++ be16 (Z.of_nat (12 + 16 * n + length region))
             ++ be16 (Z.of_nat (12 + 16 * n)) ++ before)
            ++ fixed_bytes e fo to ++ after ++ region)
      by (rewrite <- !app_assoc; reflexivity).
    apply skipn_app_exact. cbn [magic be32 be16 app length]. lia. }
  unfold entry_at, read_entry.
  rewrite (bind_Ret _ _ _ _ _ (read_fixed_layout buf 0 x e fo to _ Hskip Hfix Hrf Hrt)).
  cbv beta iota. unfold read_strings.
  (* the strings *)
  assert (Hlen : length buf = (12 + 16 * n + length region)%nat).
  { rewrite Hbuf. cbn [magic be32 be16 app length]. rewrite length_app, Hrecs. lia. }
  assert (Hat : forall rb bs ra,
             region = rb ++ bs ++ x00 :: ra ->
             skipn (Z.to_nat (Z.of_nat (length rb) + Z.of_nat (12 + 16 * n))) buf
             = bs ++ x00 :: ra).
  { intros rb bs ra Hr. rewrite Hbuf, Hr.
    replace (magic ++ be32 (Z.of_nat n)
             ++ be16 (Z.of_nat (12 + 16 * n + length (rb ++ bs ++ x00 :: ra)))
             ++ be16 (Z.of_nat (12 + 16 * n)) ++ recs ++ rb ++ bs ++ x00 :: ra)
      with ((magic ++ be32 (Z.of_nat n)
             ++ be16 (Z.of_nat (12 + 16 * n + length (rb ++ bs ++ x00 :: ra)))
             ++ be16 (Z.of_nat (12 + 16 * n)) ++ recs ++ rb) ++ bs ++ x00 :: ra)
      by (rewrite <- !app_assoc; reflexivity).
    apply skipn_app_exact. cbn [magic be32 be16 app length].
    rewrite length_app, Hrecs. lia. }
  assert (Ht_case :
            (title e = [] /\ to = 0xFFFF) \/
            (title e <> [] /\ to <> 0xFFFF /\
             exists bs tl,
               skipn (Z.to_nat (to + Z.of_nat (12 + 16 * n))) buf = bs ++ x00 :: tl /\
               utf8_encode (title e) = Some bs /\ (length bs < fuel)%nat)).
  { destruct Hto as [Hto|[Hne ->]]; [left; exact Hto | right].
    destruct (Hst Hne) as (rb & bs & ra & Henc & Hr & Hrb & Hsz).
    split; [exact Hne|]. split; [lia|].
    exists bs, ra. rewrite <- Hrb. split; [exact (Hat rb bs ra Hr)|].
    split; [exact Henc|]. lia. }
  assert (Hf_case :
            (filename e = [] /\ fo = 0xFFFF) \/
            (filename e <> [] /\ fo <> 0xFFFF /\
             exists bs tl,
               skipn (Z.to_nat (fo + Z.of_nat (12 + 16 * n))) buf = bs ++ x00 :: tl /\
               utf8_encode (filename e) = Some bs /\ (length bs < fuel)%nat)).
  { destruct Hfo as [Hfo|[Hne ->]]; [left; exact Hfo | right].
    destruct (Hsf Hne) as (rb & bs & ra & Henc & Hr & Hrb & Hsz).
    split; [exact Hne|]. split; [lia|].
    exists bs, ra. rewrite <- Hrb. split; [exact (Hat rb bs ra Hr)|].
    split; [exact Henc|]. lia. }
  rewrite (bind_Ret _ _ _ _ _
             (read_opt_string fuel buf _ _ to (title e) (without_strings e) set_title
                Hnt Ht_case)).
  rewrite (bind_Ret _ _ _ _ _
             (read_opt_string fuel buf _ _ fo (filename e) _ set_filename
                Hnf Hf_case)).
  unfold ret. cbn [pos].
  f_equal. f_equal.
  - apply without_strings_eta.
  - unfold cursor_after, title_offset, filename_offset. rewrite Hx. fold n off.
    destruct (filename e) as [|cf sf] eqn:Ef.
    + destruct (title e) as [|ct st] eqn:Et; [reflexivity|].
      destruct Hto as [[Hto _]|[_ ->]]; [discriminate|].
      change (string_size []) with 0%nat. lia.
    + destruct Hfo as [[Hfo _]|[_ ->]]; [discriminate|]. lia.
Qed.

End RoundTrip.

(** The loop reads every entry when the end-of-file test can only hold
    after the last one. *)
Lemma entries_loop_all fuel so buf :
  forall rest n x acc (f : file),
    data f = buf ->
    n = length rest ->
    (forall i e_i, nth_error rest i = Some e_i ->
       exists p, entry_at fuel so (x + i) buf = Ret (e_i, p) /\
                 (S i < length rest -> p <> length buf)%nat) ->
    fst (entries_loop fuel so n x acc f) = Ret (acc ++ rest).
Proof.
  induction rest as [|e0 rest IH]; intros n x acc f Hf Hn Hrest; subst n buf.
  - cbn. now rewrite app_nil_r.
  - cbn [length].
    destruct (Hrest 0%nat e0 eq_refl) as (p & Hp & Hne).
    rewrite Nat.add_0_r in Hp.
    rewrite (entries_loop_step _ _ _ _ _ _ _ _ Hp).
    destruct (p =? length (data f))%nat eqn:E.
    + apply Nat.eqb_eq in E. destruct rest as [|e1 rest]; [reflexivity|].
      exfalso. apply Hne; [cbn [length]; lia | exact E].
    + rewrite (IH (length rest) (S x) (acc ++ [e0])); cbn [data].
      * now rewrite <- app_assoc.
      * reflexivity.
      * reflexivity.
      * intros i e_i Hi. destruct (Hrest (S i) e_i Hi) as (q & Hq & Hqne).
        exists q. split; [now rewrite Nat.add_succ_comm|].
        intros Hlt. apply Hqne. cbn [length]. lia.
Qed.

(** X1: The round trip through the binary format, as far as it holds: a track
    list that encodes, whose strings are free of U+0000, decodes to itself
    provided no entry but the last leaves the cursor at the end of the
    buffer. *)
Theorem fromTlst_toTlst_unless_early_stop (t : TLST) (buf : list byte) (fuel : nat) :
  toTlst_bytes t = Ret buf ->
  (forall e, In e (tracks t) -> nul_free e) ->
  (forall x e, nth_error (tracks t) x = Some e ->
     (S x < length (tracks t))%nat -> cursor_after t x e <> length buf) ->
  (length buf < fuel)%nat ->
  fromTlst fuel buf = Ret t.
Proof.
  intros Henc Hnul Hstop Hfuel.
  assert (Hlay : layout t = Some buf).
  { pose proof (toTlst_bytes_layout t) as H. destruct (layout t) as [b|].
    - congruence.
    - destruct H as (e & H & _). congruence. }
  pose proof (header_of_layout t buf Hlay) as Hh.
  unfold fromTlst, fromTlst_body. unfold header_of in Hh.
  assert (Hd : keeps_data read_header) by (unfold read_header; readonly).
  specialize (Hd {| data := buf; pos := 0 |}).
  destruct (read_header {| data := buf; pos := 0 |}) as [[h|?|] f'] eqn:E;
    cbn in Hh; try discriminate.
  injection Hh as ->. cbn in Hd.
  rewrite (bind_Ret _ _ _ _ _ E). cbv beta iota. rewrite Nat2Z.id.
  pose proof (entries_loop_all fuel (Z.of_nat (12 + 16 * length (tracks t))) buf
                (tracks t) (length (tracks t)) 0 [] f' Hd eq_refl) as HL.
  unfold bind.
  destruct (entries_loop fuel _ (length (tracks t)) 0 [] f') as [[r|?|] f''].
  - cbn in HL. unfold ret. cbn [fst].
    assert (Hr : Ret r = Ret (tracks t)).
    { apply HL. intros i e_i Hi. exists (cursor_after t i e_i).
      split; [exact (entry_at_layout t buf fuel Hlay Hnul Hfuel i e_i Hi)|].
      intros Hlt. exact (Hstop i e_i Hi Hlt). }
    injection Hr as ->. now destruct t.
  - cbn in HL. exfalso.
    assert (Hr : @Raise (list TLSTEntry) e = Ret (tracks t)); [|discriminate Hr].
    apply HL. intros i e_i Hi. exists (cursor_after t i e_i).
    split; [exact (entry_at_layout t buf fuel Hlay Hnul Hfuel i e_i Hi)|].
    intros Hlt. exact (Hstop i e_i Hi Hlt).
  - cbn in HL. exfalso.
    assert (Hr : @OutOfFuel (list TLSTEntry) = Ret (tracks t)); [|discriminate Hr].
    apply HL. intros i e_i Hi. exists (cursor_after t i e_i).
    split; [exact (entry_at_layout t buf fuel Hlay Hnul Hfuel i e_i Hi)|].
    intros Hlt. exact (Hstop i e_i Hi Hlt).
Qed.

(** Two entries with strings go through the round trip. *)
Lemma fromTlst_toTlst_unless_early_stop_witness :
  toTlst_bytes two_songs = Ret two_songs_buf /\
  fromTlst 100 two_songs_buf = Ret two_songs.
Proof.
  assert (E : toTlst_bytes two_songs = Ret two_songs_buf) by (vm_compute; reflexivity).
  split; [exact E|].
  apply (fromTlst_toTlst_unless_early_stop two_songs two_songs_buf 100 E).
  - intros e [<-|[<-|[]]]; split; vm_compute; intuition discriminate.
  - intros [|[|x]] e Hx Hlt; cbn in Hlt; try lia.
    apply Some_inj in Hx. subst e. vm_compute. discriminate.
  - vm_compute. lia.
Defined.

(** ** The encoder's output: header, sentinels, and when there is one *)

Lemma toTlst_bytes_Ret_layout t buf :
  toTlst_bytes t = Ret buf -> layout t = Some buf.
Proof.
  intros H. pose proof (toTlst_bytes_layout t) as HL.
  destruct (layout t) as [b|].
  - congruence.
  - destruct HL as (e & HL & _). congruence.
Qed.

Lemma stored_I_at l1 v l3 :
  0 <= v <= 0xFFFFFFFF -> stored_I (l1 ++ be32 v ++ l3) (length l1) = Ret v.
Proof.
  intros Hv. unfold stored_I, bind, f_seek, f_read. cbn [data pos fst].
  rewrite skipn_app, skipn_all, Nat.sub_diag. cbn [skipn app be32 firstn].
  unfold struct.unpack_I, ret. cbn [fst]. now rewrite be32_value.
Qed.

(** X2: The header of every encoded file: the tag, the entry count, the size
    of the whole file and the start of the string region, which is right
    behind the fixed records; the strings add their bytes and one NUL
    each. *)
Theorem toTlst_header (t : TLST) (buf : list byte) :
  toTlst_bytes t = Ret buf ->
  firstn 4 buf = magic /\
  stored_I buf 0x4 = Ret (Z.of_nat (length (tracks t))) /\
  stored_H buf 0x8 = Ret (Z.of_nat (length buf)) /\
  stored_H buf 0xA = Ret (Z.of_nat (0xC + 0x10 * length (tracks t))) /\
  length buf = (0xC + 0x10 * length (tracks t)
                + list_sum (map entry_size (tracks t)))%nat.
Proof.
  intros H. apply toTlst_bytes_Ret_layout in H.
  destruct (layout_inv t buf H) as (recs & region & El & -> & Hn & _ & Htot & Hrecs).
  destruct (lay_entries_spec _ _ _ _ El) as [Hreg _]. cbn [length] in Hreg.
  apply in_range_spec in Hn. apply in_range_spec in Htot.
  set (n := length (tracks t)) in *.
  assert (Hlen : length (magic ++ be32 (Z.of_nat n)
                         ++ be16 (Z.of_nat (12 + 16 * n + length region))
                         ++ be16 (Z.of_nat (12 + 16 * n)) ++ recs ++ region)
                 = (12 + 16 * n + length region)%nat).
  { cbn [magic be32 be16 app length]. rewrite length_app, Hrecs. lia. }
  split; [reflexivity|].
  split; [exact (stored_I_at magic (Z.of_nat n) _ Hn)|].
  split.
  { rewrite Hlen.
    exact (stored_H_at (magic ++ be32 (Z.of_nat n))
             (Z.of_nat (12 + 16 * n + length region)) _ Htot). }
  split.
  { change (magic ++ be32 (Z.of_nat n)
            ++ be16 (Z.of_nat (12 + 16 * n + length region))
            ++ be16 (Z.of_nat (12 + 16 * n)) ++ recs ++ region)
      with ((magic ++ be32 (Z.of_nat n)
             ++ be16 (Z.of_nat (12 + 16 * n + length region)))
            ++ be16 (Z.of_nat (12 + 16 * n)) ++ recs ++ region).
    apply (stored_H_at (magic ++ be32 (Z.of_nat n)
                        ++ be16 (Z.of_nat (12 + 16 * n + length region)))).
    lia. }
  rewrite Hlen, Hreg. lia.
Qed.

Lemma toTlst_header_witness :
  stored_H song_a_buf 0x8 = Ret (Z.of_nat (length song_a_buf)) /\
  length song_a_buf = 48%nat.
Proof.
  assert (E : toTlst_bytes {| tracks := [song_a] |} = Ret song_a_buf)
    by (vm_compute; reflexivity).
  destruct (toTlst_header _ _ E) as (_ & _ & Hsize & _ & Hlen).
  split; [exact Hsize|]. rewrite Hlen. vm_compute. reflexivity.
Defined.

(** The two stored offsets of entry [x] of a layout. *)
Lemma layout_slots t buf :
  layout t = Some buf ->
  forall x e,
    nth_error (tracks t) x = Some e ->
    exists fo to,
      stored_H buf (x * 0x10 + 0xC + 0x8) = Ret fo /\
      stored_H buf (x * 0x10 + 0xC + 0xA) = Ret to /\
      ((filename e = [] /\ fo = 0xFFFF) \/
       (filename e <> [] /\ fo = filename_offset t x)) /\
      ((title e = [] /\ to = 0xFFFF) \/
       (title e <> [] /\ to = title_offset t x)).
Proof.
  intros HL x e Hx.
  destruct (layout_inv t buf HL) as (recs & region & El & -> & _ & _ & _ & _).
  destruct (lay_entries_record _ _ _ _ El x e Hx)
    as (before & fo & to & after & -> & Hb & Hrf & Hrt & Hfo & Hto).
  cbn [length] in Hfo, Hto. rewrite Nat.add_0_l in Hfo, Hto.
  apply in_range_spec in Hrf. apply in_range_spec in Hrt.
  exists fo, to. split; [|split].
  - replace (x * 0x10 + 0xC + 0x8)%nat
      with (length (magic ++ be32 (Z.of_nat (length (tracks t)))
                    ++ be16 (Z.of_nat (12 + 16 * length (tracks t) + length region))
                    ++ be16 (Z.of_nat (12 + 16 * length (tracks t)))
                    ++ before ++ head8 e))
      by (cbn [magic be32 be16 app length]; rewrite length_app, Hb, length_head8; lia).
    rewrite <- stored_H_at
      with (l1 := magic ++ be32 (Z.of_nat (length (tracks t)))
                    ++ be16 (Z.of_nat (12 + 16 * length (tracks t) + length region))
                    ++ be16 (Z.of_nat (12 + 16 * length (tracks t)))
                    ++ before ++ head8 e)
           (l3 := be16 to ++ tail4 e ++ after ++ region) by exact Hrf.
    f_equal. rewrite fixed_bytes_split, <- !app_assoc. reflexivity.
  - replace (x * 0x10 + 0xC + 0xA)%nat
      with (length (magic ++ be32 (Z.of_nat (length (tracks t)))
                    ++ be16 (Z.of_nat (12 + 16 * length (tracks t) + length region))
                    ++ be16 (Z.of_nat (12 + 16 * length (tracks t)))
                    ++ before ++ head8 e ++ be16 fo))
      by (cbn [magic be32 be16 app length];
          rewrite !length_app, Hb, length_head8, length_be16; lia).
    rewrite <- stored_H_at
      with (l1 := magic ++ be32 (Z.of_nat (length (tracks t)))
                    ++ be16 (Z.of_nat (12 + 16 * length (tracks t) + length region))
                    ++ be16 (Z.of_nat (12 + 16 * length (tracks t)))
                    ++ before ++ head8 e ++ be16 fo)
           (l3 := tail4 e ++ after ++ region) by exact Hrt.
    f_equal. rewrite fixed_bytes_split, <- !app_assoc. reflexivity.
  - unfold title_offset, filename_offset. rewrite Hx. split.
    + exact Hfo.
    + destruct Hto as [Hto|[Hne ->]]; [left; exact Hto | right; split; [exact Hne|]].
      now rewrite Nat2Z.inj_add.
Qed.

(** X3: In an encoded file a slot holds the sentinel 0xFFFF exactly when the
    string of that slot is empty. *)
Theorem toTlst_sentinel_iff_empty (t : TLST) (buf : list byte) (x : nat) (e : TLSTEntry) :
  toTlst_bytes t = Ret buf ->
  nth_error (tracks t) x = Some e ->
  (stored_H buf (x * 0x10 + 0xC + 0x8) = Ret 0xFFFF <-> filename e = []) /\
  (stored_H buf (x * 0x10 + 0xC + 0xA) = Ret 0xFFFF <-> title e = []).
Proof.
  intros H Hx. apply toTlst_bytes_Ret_layout in H.
  destruct (layout_slots t buf H x e Hx) as (fo & to & Hsf & Hst & Hfo & Hto).
  destruct (layout_offsets t buf H x e Hx) as [Hbf Hbt].
  rewrite Hsf, Hst. split; split.
  - intros Heq. destruct Hfo as [[He _]|[Hne ->]]; [exact He|].
    destruct (Hbf Hne) as [_ Hle]. injection Heq as Heq. lia.
  - intros He. destruct Hfo as [[_ ->]|[Hne _]]; [reflexivity | contradiction].
  - intros Heq. destruct Hto as [[He _]|[Hne ->]]; [exact He|].
    destruct (Hbt Hne) as [_ Hle]. injection Heq as Heq. lia.
  - intros He. destruct Hto as [[_ ->]|[Hne _]]; [reflexivity | contradiction].
Qed.

Lemma toTlst_sentinel_iff_empty_witness :
  stored_H two_tracks_buf (1 * 0x10 + 0xC + 0x8) = Ret 0xFFFF /\
  stored_H two_tracks_buf (0 * 0x10 + 0xC + 0xA) = Ret 0xFFFF.
Proof.
  assert (E : toTlst_bytes two_tracks = Ret two_tracks_buf) by (vm_compute; reflexivity).
  split.
  - apply (toTlst_sentinel_iff_empty two_tracks two_tracks_buf 1 TLSTEntry_init E eq_refl).
    reflexivity.
  - apply (toTlst_sentinel_iff_empty two_tracks two_tracks_buf 0 named_entry E eq_refl).
    reflexivity.
Defined.

Lemma place_exists s region :
  utf8_encode s <> None ->
  Z.of_nat (length region) <= 0xFFFF ->
  exists off region', place s region = Some (off, region').
Proof.
  intros Henc Hlen. unfold place. destruct s as [|c s]; [now eexists; eexists|].
  destruct (utf8_encode (c :: s)) as [bs|]; [|contradiction].
  replace (struct.in_range 0 0xFFFF (Z.of_nat (length region))) with true
    by (symmetry; apply in_range_spec; lia).
  now eexists; eexists.
Qed.

Lemma place_encodable s region off region' :
  place s region = Some (off, region') -> utf8_encode s <> None.
Proof.
  unfold place. destruct s as [|c s]; [discriminate|].
  destruct (utf8_encode (c :: s)); [discriminate | discriminate].
Qed.

Lemma lay_entries_exists es :
  forall region,
    (forall e, In e es -> strings_encodable e) ->
    Z.of_nat (length region + list_sum (map entry_size es)) <= 0xFFFF ->
    exists recs region', lay_entries es region = Some (recs, region').
Proof.
  induction es as [|e es IH]; intros region Henc Hlen; cbn [lay_entries].
  - now eexists; eexists.
  - cbn [map] in Hlen. rewrite list_sum_cons in Hlen. unfold entry_size at 1 in Hlen.
    destruct (Henc e (or_introl eq_refl)) as [Hf Ht].
    destruct (place_exists (filename e) region Hf ltac:(lia)) as (fo & r1 & E1).
    rewrite E1. destruct (place_spec _ _ _ _ E1) as [L1 _].
    destruct (place_exists (title e) r1 Ht ltac:(lia)) as (to & r2 & E2).
    rewrite E2. destruct (place_spec _ _ _ _ E2) as [L2 _].
    destruct (IH r2 (fun e' H => Henc e' (or_intror H)) ltac:(lia)) as (recs & r3 & E3).
    rewrite E3. now eexists; eexists.
Qed.

Lemma lay_entries_encodable es :
  forall region recs region',
    lay_entries es region = Some (recs, region') ->
    forall e, In e es -> strings_encodable e.
Proof.
  induction es as [|e0 es IH]; intros region recs region' H e Hin;
    cbn [lay_entries] in H; [contradiction|].
  destruct (place (filename e0) region) as [[fo r1]|] eqn:E1; [|discriminate].
  destruct (place (title e0) r1) as [[to r2]|] eqn:E2; [|discriminate].
  destruct (lay_entries es r2) as [[recs' r3]|] eqn:E3; [|discriminate].
  destruct Hin as [<-|Hin].
  - split; [exact (place_encodable _ _ _ _ E1) | exact (place_encodable _ _ _ _ E2)].
  - exact (IH _ _ _ E3 e Hin).
Qed.

(** X4: When the encoder returns a file: exactly when every numeric field is in
    the range of its format, every string can be encoded as UTF-8, and the
    whole file, header, records and strings, is at most 0xFFFF bytes long.
    So the 16-bit size field, not the 32-bit count field, bounds the list:
    no list of more than 4095 entries encodes. *)
Theorem toTlst_succeeds_iff (t : TLST) :
  ((exists buf, toTlst_bytes t = Ret buf) <->
   (forallb fields_ok (tracks t) = true /\
    (forall e, In e (tracks t) -> strings_encodable e) /\
    Z.of_nat (0xC + 0x10 * length (tracks t)
              + list_sum (map entry_size (tracks t))) <= 0xFFFF)) /\
  ((4095 < length (tracks t))%nat -> exists err, toTlst_bytes t = Raise err).
Proof.
  assert (Hiff : (exists buf, toTlst_bytes t = Ret buf) <->
                 (forallb fields_ok (tracks t) = true /\
                  (forall e, In e (tracks t) -> strings_encodable e) /\
                  Z.of_nat (0xC + 0x10 * length (tracks t)
                            + list_sum (map entry_size (tracks t))) <= 0xFFFF)).
  { split.
    - intros [buf H]. apply toTlst_bytes_Ret_layout in H.
      destruct (layout_inv t buf H) as (recs & region & El & _ & _ & Hok & Htot & _).
      destruct (lay_entries_spec _ _ _ _ El) as [Hreg _]. cbn [length] in Hreg.
      apply in_range_spec in Htot.
      split; [exact Hok|]. split; [exact (lay_entries_encodable _ _ _ _ El)|].
      rewrite Hreg in Htot. lia.
    - intros (Hok & Henc & Htot).
      destruct (lay_entries_exists (tracks t) [] Henc ltac:(cbn [length]; lia))
        as (recs & region & El).
      destruct (lay_entries_spec _ _ _ _ El) as [Hreg _]. cbn [length] in Hreg.
      pose proof (toTlst_bytes_layout t) as HL. unfold layout in HL.
      rewrite Hok, El in HL.
      replace (struct.in_range 0 0xFFFFFFFF (Z.of_nat (length (tracks t)))) with true in HL
        by (symmetry; apply in_range_spec; lia).
      replace (struct.in_range 0 0xFFFF
                 (Z.of_nat (12 + 16 * length (tracks t) + length region))) with true in HL
        by (symmetry; apply in_range_spec; rewrite Hreg; lia).
      cbn [andb] in HL. eexists. exact HL. }
  split; [exact Hiff|].
  intros Hn. pose proof (toTlst_bytes_layout t) as HL.
  destruct (layout t) as [buf|] eqn:El.
  - exfalso. destruct (proj1 Hiff (ex_intro _ buf HL)) as (_ & _ & Htot). lia.
  - destruct HL as (err & HL & _). now exists err.
Qed.

Lemma toTlst_succeeds_iff_witness :
  exists buf, toTlst_bytes {| tracks := [song_a] |} = Ret buf.
Proof.
  apply (proj1 (toTlst_succeeds_iff {| tracks := [song_a] |})).
  split; [reflexivity|]. split.
  - intros e [<-|[]]. split; vm_compute; discriminate.
  - vm_compute. discriminate.
Defined.

(** ** UTF-8: what the strict decoder accepts *)

Lemma utf8_encode_cp_1 c : 0 <= c < 0x80 -> utf8_encode_cp c = Some [byte_of c].
Proof. intros H. unfold utf8_encode_cp. repeat decide_test. reflexivity. Qed.

Lemma utf8_encode_cp_2 c :
  0x80 <= c < 0x800 ->
  utf8_encode_cp c = Some [byte_of (0xC0 + c / 64); byte_of (0x80 + c mod 64)].
Proof. intros H. unfold utf8_encode_cp. repeat decide_test. reflexivity. Qed.

Lemma utf8_encode_cp_3 c :
  0x800 <= c < 0x10000 -> is_surrogate c = false ->
  utf8_encode_cp c
  = Some [byte_of (0xE0 + c / 4096); byte_of (0x80 + (c / 64) mod 64);
          byte_of (0x80 + c mod 64)].
Proof.
  intros H Hs. unfold utf8_encode_cp. rewrite Hs. repeat decide_test. reflexivity.
Qed.

Lemma utf8_encode_cp_4 c :
  0x10000 <= c < 0x110000 ->
  utf8_encode_cp c
  = Some [byte_of (0xF0 + c / 262144); byte_of (0x80 + (c / 4096) mod 64);
          byte_of (0x80 + (c / 64) mod 64); byte_of (0x80 + c mod 64)].
Proof. intros H. unfold utf8_encode_cp. repeat decide_test. reflexivity. Qed.

Lemma is_cont_range b : is_cont b = true -> 0x80 <= byte_val b <= 0xBF.
Proof. unfold is_cont. rewrite andb_true_iff, !Z.leb_le. tauto. Qed.

Lemma byte_of_eq z b : z = byte_val b -> byte_of z = b.
Proof. intros ->. apply byte_of_byte_val. Qed.

Lemma byte_val_x00 b : byte_val b = 0 -> b = x00.
Proof. intros H. rewrite <- (byte_of_byte_val b), H. reflexivity. Qed.

Lemma utf8_encode_cons c s cb r :
  utf8_encode_cp c = Some cb -> utf8_encode s = Some r ->
  utf8_encode (c :: s) = Some (cb ++ r).
Proof. intros Hc Hs. cbn [utf8_encode]. now rewrite Hc, Hs. Qed.

Ltac same_byte := apply byte_of_eq; Z.div_mod_to_equations; lia.

(** The decoder accepts only what the encoder writes: a decoded string
    encodes to the very bytes it came from, and has U+0000 only where those
    bytes have 0x00. *)
Lemma utf8_decode_canonical n :
  forall bs s,
    (length bs <= n)%nat ->
    utf8_decode bs = Some s ->
    utf8_encode s = Some bs /\ (~ In x00 bs -> ~ In 0 s).
Proof.
  induction n as [|n IH]; intros bs s Hlen H.
  - destruct bs; [|cbn in Hlen; lia]. apply Some_inj in H. subst s.
    split; [reflexivity | intros _ []].
  - destruct bs as [|b0 r0].
    { apply Some_inj in H. subst s. split; [reflexivity | intros _ []]. }
    cbn [length] in Hlen. cbn [utf8_decode] in H.
    pose proof (byte_val_range b0) as R0.
    destruct (byte_val b0 <? 0x80) eqn:E1.
    { apply Z.ltb_lt in E1.
      destruct (utf8_decode r0) as [s'|] eqn:Er; [|discriminate].
      apply Some_inj in H. subst s.
      destruct (IH r0 s' ltac:(lia) Er) as [Henc Hnul]. split.
      - rewrite (utf8_encode_cons _ _ [b0] r0); [reflexivity| |exact Henc].
        rewrite utf8_encode_cp_1 by lia. now rewrite byte_of_byte_val.
      - intros Hnot [H0|Hin].
        + apply Hnot. left. now apply byte_val_x00.
        + revert Hin. apply Hnul. intros Hin. apply Hnot. now right. }
    apply Z.ltb_ge in E1.
    destruct (byte_val b0 <? 0xC2) eqn:E2; [discriminate|]. apply Z.ltb_ge in E2.
    destruct (byte_val b0 <? 0xE0) eqn:E3.
    { apply Z.ltb_lt in E3.
      destruct r0 as [|b1 r1]; [discriminate|].
      destruct (is_cont b1) eqn:C1; [|discriminate]. apply is_cont_range in C1.
      destruct (utf8_decode r1) as [s'|] eqn:Er; [|discriminate].
      apply Some_inj in H. subst s. cbn [length] in Hlen.
      destruct (IH r1 s' ltac:(lia) Er) as [Henc Hnul]. split.
      - rewrite (utf8_encode_cons _ _ [b0; b1] r1); [reflexivity| |exact Henc].
        rewrite utf8_encode_cp_2 by lia. do 2 f_equal; [|f_equal]; same_byte.
      - intros Hnot [H0|Hin]; [lia|].
        revert Hin. apply Hnul. intros Hin. apply Hnot. now right; right. }
    apply Z.ltb_ge in E3.
    destruct (byte_val b0 <? 0xF0) eqn:E4.
    { apply Z.ltb_lt in E4.
      destruct r0 as [|b1 [|b2 r2]]; [discriminate|discriminate|].
      destruct (is_cont b1) eqn:C1; [|discriminate]. apply is_cont_range in C1.
      destruct (is_cont b2) eqn:C2; [|discriminate]. apply is_cont_range in C2.
      cbn [andb] in H.
      destruct (0x800 <=? _) eqn:L; [|discriminate]. apply Z.leb_le in L.
      destruct (is_surrogate _) eqn:Sg; [discriminate|]. cbn [andb negb] in H.
      destruct (utf8_decode r2) as [s'|] eqn:Er; [|discriminate].
      apply Some_inj in H. subst s. cbn [length] in Hlen.
      destruct (IH r2 s' ltac:(lia) Er) as [Henc Hnul]. split.
      - rewrite (utf8_encode_cons _ _ [b0; b1; b2] r2); [reflexivity| |exact Henc].
        rewrite utf8_encode_cp_3 by (lia || exact Sg).
        do 2 f_equal; [|f_equal; [|f_equal]]; same_byte.
      - intros Hnot [H0|Hin]; [lia|].
        revert Hin. apply Hnul. intros Hin. apply Hnot. now right; right; right. }
    apply Z.ltb_ge in E4.
    destruct (byte_val b0 <? 0xF5) eqn:E5; [|discriminate]. apply Z.ltb_lt in E5.
    destruct r0 as [|b1 [|b2 [|b3 r3]]]; [discriminate|discriminate|discriminate|].
    destruct (is_cont b1) eqn:C1; [|discriminate]. apply is_cont_range in C1.
    destruct (is_cont b2) eqn:C2; [|discriminate]. apply is_cont_range in C2.
    destruct (is_cont b3) eqn:C3; [|discriminate]. apply is_cont_range in C3.
    cbn [andb] in H.
    destruct (0x10000 <=? _) eqn:L; [|discriminate]. apply Z.leb_le in L.
    destruct (_ <? 0x110000) eqn:U; [|discriminate]. apply Z.ltb_lt in U.
    cbn [andb] in H.
    destruct (utf8_decode r3) as [s'|] eqn:Er; [|discriminate].
    apply Some_inj in H. subst s. cbn [length] in Hlen.
    destruct (IH r3 s' ltac:(lia) Er) as [Henc Hnul]. split.
    + rewrite (utf8_encode_cons _ _ [b0; b1; b2; b3] r3); [reflexivity| |exact Henc].
      rewrite utf8_encode_cp_4 by lia.
      do 2 f_equal; [|f_equal; [|f_equal; [|f_equal]]]; same_byte.
    + intros Hnot [H0|Hin]; [lia|].
      revert Hin. apply Hnul. intros Hin. apply Hnot. now right; right; right; right.
Qed.

(** ** What the decoder returns and raises *)

Lemma ensures_ret {S A} (a : A) (Q : A -> Prop) E : Q a -> @ensures S A (ret a) Q E.
Proof. intros H s _. exact H. Qed.

Lemma ensures_raise {S A} e (Q : A -> Prop) (E : exn -> Prop) :
  E e -> @ensures S A (lift (Raise e)) Q E.
Proof. intros H s _. exact H. Qed.

Lemma ensures_out_of_fuel {S A} (Q : A -> Prop) E : @ensures S A (lift OutOfFuel) Q E.
Proof. intros s _. exact I. Qed.

Lemma ensures_bind {S A B} (m : M S A) (k : A -> M S B) (P : A -> Prop) Q E :
  ensures m P E -> (forall a, P a -> ensures (k a) Q E) -> ensures (bind m k) Q E.
Proof.
  intros Hm Hk s _. unfold bind. specialize (Hm s I).
  destruct (m s) as [[a|e|] s']; [|exact Hm|exact I].
  exact (Hk a Hm s' I).
Qed.

Lemma ensures_seek p E : ensures (f_seek p) (fun _ => True) E.
Proof. intros s _. exact I. Qed.

Lemma ensures_seek_cur d E : ensures (f_seek_cur d) (fun _ => True) E.
Proof. intros s _. exact I. Qed.

Lemma ensures_seek_end E : ensures f_seek_end (fun _ => True) E.
Proof. intros s _. exact I. Qed.

Lemma ensures_tell E : ensures f_tell (fun _ => True) E.
Proof. intros s _. exact I. Qed.

Lemma ensures_read n E : ensures (f_read n) (fun bs => (length bs <= n)%nat) E.
Proof. intros s _. cbn. apply firstn_le_length. Qed.

Lemma ensures_unpack_I {S} bs :
  @ensures S _ (struct.unpack_I bs)
    (fun v => struct.in_range 0 0xFFFFFFFF v = true) decode_error.
Proof.
  intros s _. unfold struct.unpack_I.
  destruct bs as [|b0 [|b1 [|b2 [|b3 [|]]]]]; try (now left).
  cbn. apply in_range_spec.
  pose proof (byte_val_range b0). pose proof (byte_val_range b1).
  pose proof (byte_val_range b2). pose proof (byte_val_range b3). lia.
Qed.

Lemma ensures_unpack_H {S} bs :
  @ensures S _ (struct.unpack_H bs)
    (fun v => struct.in_range 0 0xFFFF v = true) decode_error.
Proof.
  intros s _. unfold struct.unpack_H.
  destruct bs as [|b0 [|b1 [|]]]; try (now left).
  cbn. apply in_range_spec.
  pose proof (byte_val_range b0). pose proof (byte_val_range b1). lia.
Qed.

Lemma ensures_unpack_b {S} bs :
  @ensures S _ (struct.unpack_b bs)
    (fun v => struct.in_range (-128) 127 v = true) decode_error.
Proof.
  intros s _. unfold struct.unpack_b.
  destruct bs as [|b0 [|]]; try (now left).
  cbn. apply in_range_spec. pose proof (byte_val_range b0).
  destruct (byte_val b0 <? 128) eqn:E; [apply Z.ltb_lt in E | apply Z.ltb_ge in E]; lia.
Qed.

Lemma ensures_unpack_bool {S} bs :
  @ensures S _ (struct.unpack_bool bs) (fun _ => True) decode_error.
Proof.
  intros s _. unfold struct.unpack_bool.
  destruct bs as [|b0 [|]]; try (now left). exact I.
Qed.

(** One field of a record: read, then unpack. *)
Lemma ensures_field {A} n (unpack : list byte -> M file A) Q :
  (forall bs, ensures (unpack bs) Q decode_error) ->
  ensures (f_read n >>= unpack) Q decode_error.
Proof.
  intros H. apply (ensures_bind _ _ (fun _ => True)); [|intros bs _; apply H].
  intros s _. exact I.
Qed.

(** The fixed record gives numeric fields within their formats. *)
Lemma ensures_read_fixed x :
  ensures (read_fixed x)
    (fun r => fields_ok (fst (fst r)) = true /\
              title (fst (fst r)) = [] /\ filename (fst (fst r)) = [])
    decode_error.
Proof.
  unfold read_fixed.
  apply (ensures_bind _ _ (fun _ => True)); [apply ensures_seek|]. intros _ _.
  eapply ensures_bind; [apply ensures_field, ensures_unpack_I|]. intros v1 H1.
  eapply ensures_bind; [apply ensures_field, ensures_unpack_H|]. intros v2 H2.
  eapply ensures_bind; [apply ensures_field, ensures_unpack_b|]. intros v3 H3.
  eapply ensures_bind; [apply ensures_field, ensures_unpack_b|]. intros v4 H4.
  eapply ensures_bind; [apply ensures_field, ensures_unpack_H|]. intros fo _.
  eapply ensures_bind; [apply ensures_field, ensures_unpack_H|]. intros to _.
  eapply ensures_bind; [apply ensures_field, ensures_unpack_H|]. intros v5 H5.
  eapply ensures_bind; [apply ensures_field, ensures_unpack_bool|]. intros v6 _.
  eapply ensures_bind; [apply ensures_field, ensures_unpack_bool|]. intros v7 _.
  apply ensures_ret. cbn [fst]. unfold fields_ok. cbn [songId delay volume frequency switch title filename TLSTEntry_init].
  rewrite H1, H2, H3, H4, H5. repeat split.
Qed.

(** The bytes the reader gathers hold no 0x00. *)
Lemma ensures_readNTString_loop fuel :
  forall acc, ~ In x00 acc ->
    ensures (readNTString_loop fuel acc) (fun bs => ~ In x00 bs) decode_error.
Proof.
  induction fuel as [|fuel IH]; intros acc Hacc; cbn [readNTString_loop].
  - apply ensures_out_of_fuel.
  - eapply ensures_bind; [apply ensures_read|]. cbv beta. intros c Hc.
    destruct c as [|b [|b' c]]; [| |cbn in Hc; lia].
    + cbn [bytes_eqb]. apply IH. now rewrite app_nil_r.
    + cbn [bytes_eqb]. destruct (byte_eqb b x00) eqn:Eb; cbn [andb].
      * now apply ensures_ret.
      * apply IH. rewrite in_app_iff. intros [H|[H|[]]]; [now apply Hacc|].
        subst b. discriminate Eb.
Qed.

(** A string the reader returns has no U+0000 and encodes again. *)
Lemma ensures_readNTString fuel :
  ensures (readNTString fuel)
    (fun s => ~ In 0 s /\ utf8_encode s <> None) decode_error.
Proof.
  unfold readNTString.
  eapply ensures_bind; [apply ensures_readNTString_loop; intros []|].
  cbv beta. intros bs Hbs. unfold bytes_decode.
  destruct (utf8_decode bs) as [s|] eqn:E; [|apply ensures_raise; now right].
  apply ensures_ret.
  destruct (utf8_decode_canonical (length bs) bs s (le_n _) E) as [Henc Hnul].
  split; [now apply Hnul | now rewrite Henc].
Qed.

Lemma well_formed_set_title e s :
  well_formed e -> ~ In 0 s -> utf8_encode s <> None -> well_formed (set_title e s).
Proof.
  intros (Hf & [Ht Hn] & [He1 He2]) Hs Henc. repeat split; try assumption.
Qed.

Lemma well_formed_set_filename e s :
  well_formed e -> ~ In 0 s -> utf8_encode s <> None -> well_formed (set_filename e s).
Proof.
  intros (Hf & [Ht Hn] & [He1 He2]) Hs Henc. repeat split; try assumption.
Qed.

Lemma ensures_read_strings fuel so e fo to :
  well_formed e ->
  ensures (read_strings fuel so e fo to) well_formed decode_error.
Proof.
  intros He. unfold read_strings.
  apply (ensures_bind _ _ well_formed).
  { destruct (to =? 0xFFFF); [now apply ensures_ret|].
    apply (ensures_bind _ _ (fun _ => True)); [apply ensures_seek|]. intros _ _.
    eapply ensures_bind; [apply ensures_readNTString|]. cbv beta. intros s [Hs Henc].
    apply ensures_ret. now apply well_formed_set_title. }
  intros e1 He1.
  apply (ensures_bind _ _ well_formed); [|intros e2 He2; now apply ensures_ret].
  destruct (fo =? 0xFFFF); [now apply ensures_ret|].
  apply (ensures_bind _ _ (fun _ => True)); [apply ensures_seek|]. intros _ _.
  eapply ensures_bind; [apply ensures_readNTString|]. cbv beta. intros s [Hs Henc].
  apply ensures_ret. now apply well_formed_set_filename.
Qed.

Lemma ensures_read_entry fuel so x :
  ensures (read_entry fuel so x) well_formed decode_error.
Proof.
  unfold read_entry.
  eapply ensures_bind; [apply ensures_read_fixed|]. cbv beta.
  intros [[e fo] to] (Hf & Ht & Hn). cbn [fst] in *.
  apply ensures_read_strings. unfold well_formed, nul_free, strings_encodable.
  rewrite Ht, Hn. repeat split; try assumption; cbn; solve [intros [] | discriminate].
Qed.

Lemma ensures_entries_loop fuel so n :
  forall x acc,
    Forall well_formed acc ->
    ensures (entries_loop fuel so n x acc) (Forall well_formed) decode_error.
Proof.
  induction n as [|n IH]; intros x acc Hacc; cbn [entries_loop].
  - now apply ensures_ret.
  - eapply ensures_bind; [apply ensures_read_entry|]. intros e He.
    assert (Hnew : Forall well_formed (acc ++ [e])).
    { apply Forall_app. split; [exact Hacc | now constructor]. }
    apply (ensures_bind _ _ (fun _ => True)); [apply ensures_tell|]. intros here _.
    apply (ensures_bind _ _ (fun _ => True)); [apply ensures_seek_end|]. intros eof _.
    destruct (here =? eof)%nat; [now apply ensures_ret | now apply IH].
Qed.

Lemma ensures_read_header :
  ensures read_header (fun h => struct.in_range 0 0xFFFFFFFF (fst h) = true
                               /\ struct.in_range 0 0xFFFF (snd h) = true)
    decode_error.
Proof.
  unfold read_header.
  apply (ensures_bind _ _ (fun _ => True)); [apply ensures_seek|]. intros _ _.
  eapply ensures_bind; [apply ensures_field, ensures_unpack_I|]. intros n Hn.
  apply (ensures_bind _ _ (fun _ => True)); [apply ensures_seek_cur|]. intros _ _.
  eapply ensures_bind; [apply ensures_field, ensures_unpack_H|]. intros so Hso.
  apply ensures_ret. now split.
Qed.

Lemma ensures_fromTlst_body fuel :
  ensures (fromTlst_body fuel) (fun t => Forall well_formed (tracks t)) decode_error.
Proof.
  unfold fromTlst_body.
  eapply ensures_bind; [apply ensures_read_header|]. intros [n so] _.
  eapply ensures_bind; [apply ensures_entries_loop; constructor|].
  intros es Hes. now apply ensures_ret.
Qed.

(** X5: Whatever the buffer, every entry the decoder returns has its numeric
    fields within the ranges of their formats and strings without U+0000
    that encode as UTF-8.  (Nothing is said of their length: a decoded list
    can be too large for the encoder.) *)
Theorem fromTlst_well_formed (fuel : nat) (buf : list byte) (t : TLST) :
  fromTlst fuel buf = Ret t ->
  forall e, In e (tracks t) ->
    fields_ok e = true /\ nul_free e /\ strings_encodable e.
Proof.
  intros H. pose proof (ensures_fromTlst_body fuel {| data := buf; pos := 0 |} I) as He.
  unfold fromTlst in H.
  destruct (fromTlst_body fuel {| data := buf; pos := 0 |}) as [[t'|?|] f'];
    cbn in H; try discriminate.
  injection H as ->. intros e Hin.
  exact (proj1 (Forall_forall _ _) He e Hin).
Qed.

(** The entry decoded from the one-entry scenario. *)
Lemma fromTlst_well_formed_witness :
  fields_ok song_a = true /\ nul_free song_a /\ strings_encodable song_a.
Proof.
  apply (fromTlst_well_formed 49 song_a_buf {| tracks := [song_a] |}).
  - vm_compute. reflexivity.
  - now left.
Defined.

(** X6: The decoder raises nothing but struct.error and UnicodeDecodeError. *)
Theorem fromTlst_raises_only (fuel : nat) (buf : list byte) (e : exn) :
  fromTlst fuel buf = Raise e -> e = StructError \/ e = UnicodeDecodeError.
Proof.
  intros H. pose proof (ensures_fromTlst_body fuel {| data := buf; pos := 0 |} I) as He.
  unfold fromTlst in H.
  destruct (fromTlst_body fuel {| data := buf; pos := 0 |}) as [[t'|?|] f'];
    cbn in H; try discriminate.
  injection H as ->. exact He.
Qed.

(** An empty buffer, and a title that is not UTF-8. *)
Lemma fromTlst_raises_only_witness :
  (StructError = StructError \/ StructError = UnicodeDecodeError) /\
  (UnicodeDecodeError = StructError \/ UnicodeDecodeError = UnicodeDecodeError).
Proof.
  split.
  - apply (fromTlst_raises_only 0 []). reflexivity.
  - apply (fromTlst_raises_only 2 bad_utf8_buf). vm_compute. reflexivity.
Defined.

(** ** The entries the decoder returns, in order *)

Lemma bind_Ret_inv {S A B} (m : M S A) (k : A -> M S B) s b s' :
  bind m k s = (Ret b, s') ->
  exists a s1, m s = (Ret a, s1) /\ k a s1 = (Ret b, s').
Proof.
  unfold bind. destruct (m s) as [[a|e|] s1]; try discriminate.
  intros H. now exists a, s1.
Qed.

Lemma read_entry_entry_at fuel so x (f f' : file) e :
  read_entry fuel so x f = (Ret e, f') ->
  data f' = data f /\ entry_at fuel so x (data f) = Ret (e, pos f').
Proof.
  intros H. split.
  - exact (keeps_data_at _ _ _ _ (keeps_data_read_entry fuel so x) H).
  - unfold entry_at. rewrite <- read_entry_any_pos, H. reflexivity.
Qed.

Lemma entries_loop_inv fuel so n :
  forall x acc (f f' : file) res,
    entries_loop fuel so n x acc f = (Ret res, f') ->
    exists new,
      res = acc ++ new /\
      (length new <= n)%nat /\
      ((0 < n)%nat -> new <> []) /\
      forall i e, nth_error new i = Some e ->
        exists p, entry_at fuel so (x + i) (data f) = Ret (e, p) /\
          (p = length (data f) -> S i = length new) /\
          (S i = length new -> p = length (data f) \/ S i = n).
Proof.
  induction n as [|n IH]; intros x acc f f' res H.
  - cbn in H. injection H as <- _. exists []. rewrite app_nil_r.
    split; [reflexivity|]. split; [cbn; lia|]. split; [lia|].
    intros [|i] e Hi; discriminate Hi.
  - cbn [entries_loop] in H.
    apply bind_Ret_inv in H. destruct H as (e0 & f1 & He0 & H).
    apply read_entry_entry_at in He0. destruct He0 as [Hd He0].
    apply bind_Ret_inv in H. destruct H as (here & f2 & Hhere & H).
    injection Hhere as <- <-.
    apply bind_Ret_inv in H. destruct H as (eof & f3 & Heof & H).
    injection Heof as <- <-.
    destruct (pos f1 =? length (data f1))%nat eqn:Eeof.
    + injection H as <- _. apply Nat.eqb_eq in Eeof. rewrite Hd in Eeof.
      exists [e0]. split; [reflexivity|]. split; [cbn; lia|].
      split; [discriminate|].
      intros [|[|i]] e Hi; try discriminate Hi. injection Hi as <-.
      exists (pos f1). rewrite Nat.add_0_r. split; [exact He0|].
      split; [reflexivity|]. intros _. now left.
    + apply Nat.eqb_neq in Eeof. rewrite Hd in Eeof.
      apply IH in H. cbn [data] in H. rewrite Hd in H.
      destruct H as (new & -> & Hlen & Hne & Hnth).
      exists (e0 :: new). rewrite <- app_assoc. cbn [app length].
      split; [reflexivity|]. split; [lia|]. split; [discriminate|].
      intros [|i] e Hi.
      * injection Hi as <-. exists (pos f1). rewrite Nat.add_0_r.
        split; [exact He0|]. split; [intros Hp; contradiction|].
        intros Hl. right. destruct new as [|? ?]; [|cbn in Hl; lia].
        destruct n as [|n]; [reflexivity|]. exfalso. apply Hne; [lia|reflexivity].
      * cbn [nth_error] in Hi. destruct (Hnth i e Hi) as (p & Hp & H1 & H2).
        exists p. rewrite <- Nat.add_succ_comm. split; [exact Hp|].
        split; [intros Hq; specialize (H1 Hq); lia|].
        intros Hl. destruct H2 as [H2|H2]; [lia | now left | right; lia].
Qed.

(** X7: What the decoder returns is what the loop reads, in the order of the
    records: no more entries than the header declares, none exactly when it
    declares none, entry [x] of the result read from record [x], and the
    last one either the last declared or the first whose read leaves the
    cursor at the end of the buffer. *)
Theorem fromTlst_entries_in_order (fuel : nat) (buf : list byte) (t : TLST) :
  fromTlst fuel buf = Ret t ->
  exists n so,
    header_of buf = Ret (n, so) /\
    (length (tracks t) <= Z.to_nat n)%nat /\
    (tracks t = [] <-> n = 0) /\
    forall x e, nth_error (tracks t) x = Some e ->
      exists p, entry_at fuel so x buf = Ret (e, p) /\
        (p = length buf -> S x = length (tracks t)) /\
        (S x = length (tracks t) -> p = length buf \/ S x = Z.to_nat n).
Proof.
  intros H. unfold fromTlst, fromTlst_body in H.
  destruct (bind _ _ _) as [o f'] eqn:E in H. cbn in H. subst o.
  apply bind_Ret_inv in E. destruct E as ([n so] & f1 & Hh & E).
  pose proof (ensures_read_header {| data := buf; pos := 0 |} I) as Hn.
  rewrite Hh in Hn. cbn [fst snd] in Hn. destruct Hn as [Hn _].
  apply in_range_spec in Hn.
  assert (Hd : data f1 = buf).
  { apply (keeps_data_at read_header {| data := buf; pos := 0 |} (n, so)); [|exact Hh].
    unfold read_header. readonly. }
  apply bind_Ret_inv in E. destruct E as (es & f2 & Hes & E).
  injection E as <- _. cbn [tracks].
  apply entries_loop_inv in Hes. rewrite Hd in Hes.
  destruct Hes as (new & -> & Hlen & Hne & Hnth). cbn [app].
  exists n, so. split; [unfold header_of; now rewrite Hh|].
  split; [exact Hlen|]. split; [|exact Hnth].
  split.
  - intros ->. destruct (Z.to_nat n) eqn:En; [lia|].
    exfalso. apply Hne; [lia | reflexivity].
  - intros ->. destruct new; [reflexivity | cbn in Hlen; lia].
Qed.

(** Five entries declared, one record present. *)
Lemma fromTlst_entries_in_order_witness :
  exists n so,
    header_of one_of_five_buf = Ret (n, so) /\
    (length [TLSTEntry_init] <= Z.to_nat n)%nat /\
    ([TLSTEntry_init] = [] <-> n = 0) /\
    forall x e, nth_error [TLSTEntry_init] x = Some e ->
      exists p, entry_at 0 so x one_of_five_buf = Ret (e, p) /\
        (p = length one_of_five_buf -> S x = length [TLSTEntry_init]) /\
        (S x = length [TLSTEntry_init] ->
         p = length one_of_five_buf \/ S x = Z.to_nat n).
Proof.
  apply (fromTlst_entries_in_order 0 one_of_five_buf {| tracks := [TLSTEntry_init] |}).
  reflexivity.
Defined.

(** ** Where the decoder takes the strings from *)

Lemma readNTString_loop_Ret_inv fuel :
  forall acc (f f' : file) res,
    readNTString_loop fuel acc f = (Ret res, f') ->
    exists bs rest,
      skipn (pos f) (data f) = bs ++ x00 :: rest /\ ~ In x00 bs /\
      res = acc ++ bs /\
      f' = {| data := data f; pos := pos f + length bs + 1 |}.
Proof.
  induction fuel as [|fuel IH]; intros acc f f' res H; [discriminate H|].
  cbn [readNTString_loop] in H.
  destruct (skipn (pos f) (data f)) as [|b r] eqn:Hs.
  - assert (Hlen : (length (data f) <= pos f)%nat).
    { destruct (Nat.le_gt_cases (length (data f)) (pos f)) as [Hl|Hl]; [exact Hl|].
      apply (f_equal (@length byte)) in Hs. rewrite length_skipn in Hs. cbn in Hs. lia. }
    rewrite (bind_Ret _ _ _ _ _ (f_read_at_eof 1 f Hlen)) in H.
    cbn [bytes_eqb] in H. apply IH in H.
    destruct H as (bs & rest & Hs' & _). rewrite Hs in Hs'.
    destruct bs; discriminate Hs'.
  - rewrite (bind_Ret _ _ _ _ _ (f_read_1_byte f _ _ Hs)) in H.
    destruct (bytes_eqb [b] [x00]) eqn:E.
    + apply bytes_eqb_nul in E. subst b. injection H as <- <-.
      exists [], r. cbn [app length]. rewrite app_nil_r, Nat.add_0_r.
      repeat split. intros [].
    + apply IH in H. cbn [data pos] in H.
      destruct H as (bs & rest & Hs' & Hnot & -> & ->).
      rewrite Nat.add_1_r, (skipn_succ _ _ _ _ Hs) in Hs'. subst r.
      exists (b :: bs), rest. rewrite <- app_assoc. cbn [app length].
      split; [reflexivity|]. split.
      * intros [Hb|Hb]; [|now apply Hnot]. subst b.
        assert (Ht : bytes_eqb [x00] [x00] = true) by reflexivity.
        rewrite Ht in E. discriminate E.
      * split; [reflexivity|]. do 2 f_equal. lia.
Qed.

Lemma readNTString_Ret_inv fuel (f f' : file) s :
  readNTString fuel f = (Ret s, f') -> string_at (data f) (pos f) s.
Proof.
  unfold readNTString. intros H.
  apply bind_Ret_inv in H. destruct H as (res & f1 & Hloop & Hdec).
  apply readNTString_loop_Ret_inv in Hloop.
  destruct Hloop as (bs & rest & Hs & Hnot & -> & _). cbn [app] in Hdec.
  exists bs, rest. split; [exact Hs|]. split; [exact Hnot|].
  unfold bytes_decode in Hdec. destruct (utf8_decode bs); [|discriminate Hdec].
  now injection Hdec as <- _.
Qed.

(** A field that unpacks was read in full. *)
Lemma field_pos {A} n (unpack : list byte -> M file A) (f f' : file) v :
  (forall bs s v' s', unpack bs s = (Ret v', s') -> length bs = n /\ s' = s) ->
  (f_read n >>= unpack) f = (Ret v, f') ->
  pos f' = (pos f + n)%nat /\ data f' = data f.
Proof.
  intros Hu H. apply bind_Ret_inv in H. destruct H as (bs & f1 & Hr & H).
  apply Hu in H. destruct H as [Hlen ->].
  unfold f_read in Hr. injection Hr as <- <-. cbn [pos data].
  now rewrite Hlen.
Qed.

Lemma unpack_I_full {S} bs (s s' : S) v :
  struct.unpack_I bs s = (Ret v, s') -> length bs = 4%nat /\ s' = s.
Proof.
  unfold struct.unpack_I.
  destruct bs as [|b0 [|b1 [|b2 [|b3 [|]]]]]; try discriminate.
  intros H. injection H as _ <-. now split.
Qed.

Lemma unpack_H_full {S} bs (s s' : S) v :
  struct.unpack_H bs s = (Ret v, s') -> length bs = 2%nat /\ s' = s.
Proof.
  unfold struct.unpack_H.
  destruct bs as [|b0 [|b1 [|]]]; try discriminate.
  intros H. injection H as _ <-. now split.
Qed.

Lemma unpack_b_full {S} bs (s s' : S) v :
  struct.unpack_b bs s = (Ret v, s') -> length bs = 1%nat /\ s' = s.
Proof.
  unfold struct.unpack_b.
  destruct bs as [|b0 [|]]; try discriminate.
  intros H. injection H as _ <-. now split.
Qed.

Lemma unpack_bool_full {S} bs (s s' : S) v :
  struct.unpack_bool bs s = (Ret v, s') -> length bs = 1%nat /\ s' = s.
Proof.
  unfold struct.unpack_bool.
  destruct bs as [|b0 [|]]; try discriminate.
  intros H. injection H as _ <-. now split.
Qed.

(** A record that reads well leaves the cursor sixteen bytes on, and its
    entry has no strings yet. *)
Lemma read_fixed_Ret_inv x (f f' : file) e fo to :
  read_fixed x f = (Ret (e, fo, to), f') ->
  pos f' = (x * 0x10 + 0xC + 0x10)%nat /\ data f' = data f /\
  title e = [] /\ filename e = [].
Proof.
  unfold read_fixed. intros H.
  apply bind_Ret_inv in H. destruct H as (p0 & f0 & H0 & H).
  injection H0 as _ <-.
  apply bind_Ret_inv in H. destruct H as (v1 & f1 & H1 & H).
  apply (field_pos 4) in H1; [|intros; eapply unpack_I_full; eassumption].
  apply bind_Ret_inv in H. destruct H as (v2 & f2 & H2 & H).
  apply (field_pos 2) in H2; [|intros; eapply unpack_H_full; eassumption].
  apply bind_Ret_inv in H. destruct H as (v3 & f3 & H3 & H).
  apply (field_pos 1) in H3; [|intros; eapply unpack_b_full; eassumption].
  apply bind_Ret_inv in H. destruct H as (v4 & f4 & H4 & H).
  apply (field_pos 1) in H4; [|intros; eapply unpack_b_full; eassumption].
  apply bind_Ret_inv in H. destruct H as (v5 & f5 & H5 & H).
  apply (field_pos 2) in H5; [|intros; eapply unpack_H_full; eassumption].
  apply bind_Ret_inv in H. destruct H as (v6 & f6 & H6 & H).
  apply (field_pos 2) in H6; [|intros; eapply unpack_H_full; eassumption].
  apply bind_Ret_inv in H. destruct H as (v7 & f7 & H7 & H).
  apply (field_pos 2) in H7; [|intros; eapply unpack_H_full; eassumption].
  apply bind_Ret_inv in H. destruct H as (v8 & f8 & H8 & H).
  apply (field_pos 1) in H8; [|intros; eapply unpack_bool_full; eassumption].
  apply bind_Ret_inv in H. destruct H as (v9 & f9 & H9 & H).
  apply (field_pos 1) in H9; [|intros; eapply unpack_bool_full; eassumption].
  injection H as <- _ _ <-. cbn [pos data title filename TLSTEntry_init] in *.
  destruct H1, H2, H3, H4, H5, H6, H7, H8, H9.
  split; [lia|]. split; [congruence|]. now split.
Qed.

Lemma read_opt_string_inv fuel (p : nat) (absent : bool) (entry e' : TLSTEntry)
    (set : TLSTEntry -> pystr -> TLSTEntry) (f f' : file) :
  (if absent then ret entry
   else f_seek p >> s <- readNTString fuel ;; ret (set entry s)) f = (Ret e', f') ->
  data f' = data f /\
  if absent then e' = entry /\ f' = f
  else exists s, e' = set entry s /\ string_at (data f) p s.
Proof.
  destruct absent; intros H.
  - injection H as <- <-. repeat split.
  - apply bind_Ret_inv in H. destruct H as (p' & f1 & Hseek & H).
    injection Hseek as _ <-.
    apply bind_Ret_inv in H. destruct H as (s & f2 & Hs & H).
    injection H as <- <-.
    pose proof (keeps_data_at _ _ _ _ (keeps_data_readNTString fuel) Hs) as Hd.
    cbn [data] in Hd. split; [exact Hd|].
    exists s. split; [reflexivity|].
    exact (readNTString_Ret_inv _ _ _ _ Hs).
Qed.



(** ** Reading the records of the encoder's output one by one *)

Lemma until_nul_no_nul s : ~ In 0 s -> until_nul s = s.
Proof.
  induction s as [|c s IH]; intros H; [reflexivity|]. cbn [until_nul].
  destruct (c =? 0) eqn:E.
  - apply Z.eqb_eq in E. subst c. exfalso. apply H. now left.
  - rewrite IH; [reflexivity|]. intros Hin. apply H. now right.
Qed.

Lemma until_nul_split s :
  In 0 s -> exists s2, s = until_nul s ++ 0 :: s2.
Proof.
  induction s as [|c s IH]; intros H; [contradiction|]. cbn [until_nul].
  destruct (c =? 0) eqn:E.
  - apply Z.eqb_eq in E. subst c. now exists s.
  - apply Z.eqb_neq in E. destruct H as [H|H]; [congruence|].
    destruct (IH H) as [s2 Hs2]. exists s2. cbn [app]. now rewrite <- Hs2.
Qed.

Lemma until_nul_nul_free s : ~ In 0 (until_nul s).
Proof.
  induction s as [|c s IH]; [intros []|]. cbn [until_nul].
  destruct (c =? 0) eqn:E; [intros []|].
  apply Z.eqb_neq in E. intros [H|H]; [congruence | now apply IH].
Qed.

Lemma utf8_encode_app a b bs :
  utf8_encode (a ++ b) = Some bs ->
  exists x y, utf8_encode a = Some x /\ utf8_encode b = Some y /\ bs = x ++ y.
Proof.
  revert bs. induction a as [|c a IH]; intros bs H; cbn [app] in H.
  - exists [], bs. now repeat split.
  - cbn [utf8_encode] in H |- *.
    destruct (utf8_encode_cp c) as [cb|]; [|discriminate].
    destruct (utf8_encode (a ++ b)) as [r|]; [|discriminate].
    destruct (IH r eq_refl) as (x & y & -> & Hy & ->).
    apply Some_inj in H. subst bs.
    exists (cb ++ x), y. split; [reflexivity|]. split; [exact Hy|].
    now rewrite app_assoc.
Qed.

(** An optional string of the layout, whatever it holds: the reader stops
    at the first 0x00, which is the terminator unless the string has a
    U+0000 of its own. *)
Lemma read_opt_string_cut fuel d so p0 off s entry
    (set : TLSTEntry -> pystr -> TLSTEntry) :
  (s = [] /\ off = 0xFFFF) \/
  (s <> [] /\ off <> 0xFFFF /\
   exists bs tl,
     skipn (Z.to_nat (off + so)) d = bs ++ x00 :: tl /\
     utf8_encode s = Some bs /\ (length bs < fuel)%nat) ->
  exists p,
    (if off =? 0xFFFF then ret entry
     else f_seek (Z.to_nat (off + so)) >>
          s' <- readNTString fuel ;; ret (set entry s'))
      {| data := d; pos := p0 |}
    = (Ret (match s with [] => entry | _ => set entry (until_nul s) end),
       {| data := d; pos := p |}) /\
    (~ In 0 s ->
     p = match s with
         | [] => p0
         | _ => (Z.to_nat (off + so) + string_size s)%nat
         end).
Proof.
  intros H. destruct (in_dec Z.eq_dec 0 s) as [Hin|Hnot].
  - destruct H as [[-> _]|(Hne & Hoff & bs & tl & Hs & Henc & Hfuel)]; [contradiction|].
    destruct (until_nul_split s Hin) as [s2 Hs2].
    rewrite Hs2 in Henc. apply utf8_encode_app in Henc.
    destruct Henc as (b1 & b2 & Hb1 & Hb2 & ->).
    cbn [utf8_encode] in Hb2.
    change (utf8_encode_cp 0) with (Some [x00]) in Hb2.
    destruct (utf8_encode s2) as [r2|]; [|discriminate].
    apply Some_inj in Hb2. subst b2. cbn [app] in Hs. rewrite <- app_assoc in Hs.
    cbn [app] in Hs.
    apply Z.eqb_neq in Hoff. rewrite Hoff.
    eexists. split; [|intros Hc; contradiction].
    rewrite (read_string_at_run fuel d p0 _ b1 _ (until_nul s) (set entry) Hs
               (utf8_encode_no_nul _ b1 Hb1 (until_nul_nul_free s))
               (utf8_decode_encode _ b1 Hb1)).
    + destruct s; [contradiction | reflexivity].
    + rewrite length_app in Hfuel. lia.
  - eexists. split; [|intros _; reflexivity].
    rewrite (read_opt_string fuel d so p0 off s entry set Hnot H).
    rewrite (until_nul_no_nul s Hnot). reflexivity.
Qed.

Lemma cut_strings_eta e :
  match filename e with
  | [] => match title e with
          | [] => without_strings e
          | _ => set_title (without_strings e) (until_nul (title e))
          end
  | _ => set_filename
           match title e with
           | [] => without_strings e
           | _ => set_title (without_strings e) (until_nul (title e))
           end (until_nul (filename e))
  end = cut_strings e.
Proof. destruct e as [a b c d f g h ti fi]. destruct ti, fi; reflexivity. Qed.

Lemma cut_strings_nul_free e : nul_free e -> cut_strings e = e.
Proof.
  intros [Ht Hf]. unfold cut_strings.
  rewrite (until_nul_no_nul _ Ht), (until_nul_no_nul _ Hf). now destruct e.
Qed.

Lemma entry_at_layout_cut t buf fuel x e :
  layout t = Some buf ->
  (length buf < fuel)%nat ->
  nth_error (tracks t) x = Some e ->
  exists p,
    entry_at fuel (Z.of_nat (12 + 16 * length (tracks t))) x buf
    = Ret (cut_strings e, p) /\
    (nul_free e -> p = cursor_after t x e).
Proof.
  intros laid_out enough Hx.
  destruct (layout_inv t buf laid_out) as (recs & region & El & Hbuf & Hn & Hok & Htot & Hrecs).
  destruct (lay_entries_record _ _ _ _ El x e Hx)
    as (before & fo & to & after & Hsplit & Hb & Hrf & Hrt & Hfo & Hto).
  destruct (lay_entries_strings _ _ _ _ El x e Hx) as [Hsf Hst].
  destruct (lay_entries_spec _ _ _ _ El) as [_ Hspec].
  destruct (Hspec x e Hx) as (_ & _ & _ & _ & _ & _ & Hle & _).
  cbn [length] in Hfo, Hto, Hsf, Hst, Hle. rewrite Nat.add_0_l in Hfo, Hto, Hsf, Hst, Hle.
  apply in_range_spec in Htot.
  assert (Hfix : fields_ok e = true).
  { rewrite forallb_forall in Hok. apply Hok. exact (nth_error_In _ _ Hx). }
  set (n := length (tracks t)) in *.
  set (off := list_sum (map entry_size (firstn x (tracks t)))) in *.
  pose proof (eq_refl : entry_size e = (string_size (filename e) + string_size (title e))%nat)
    as Hsize.
  assert (Hskip : skipn (x * 0x10 + 0xC) buf = fixed_bytes e fo to ++ after ++ region).
  { rewrite Hbuf, Hsplit.
    replace (magic ++ be32 (Z.of_nat n) ++ be16 (Z.of_nat (12 + 16 * n + length region))
             ++ be16 (Z.of_nat (12 + 16 * n))
             ++ (before ++ fixed_bytes e fo to ++ after) ++ region)
      with ((magic ++ be32 (Z.of_nat n) ++ be16 (Z.of_nat (12 + 16 * n + length region))
             ++ be16 (Z.of_nat (12 + 16 * n)) ++ before)
            ++ fixed_bytes e fo to ++ after ++ region)
      by (rewrite <- !app_assoc; reflexivity).
    apply skipn_app_exact. cbn [magic be32 be16 app length]. lia. }
  unfold entry_at, read_entry.
  rewrite (bind_Ret _ _ _ _ _ (read_fixed_layout buf 0 x e fo to _ Hskip Hfix Hrf Hrt)).
  cbv beta iota. unfold read_strings.
  assert (Hlen : length buf = (12 + 16 * n + length region)%nat).
  { rewrite Hbuf. cbn [magic be32 be16 app length]. rewrite length_app, Hrecs. lia. }
  assert (Hat : forall rb bs ra,
             region = rb ++ bs ++ x00 :: ra ->
             skipn (Z.to_nat (Z.of_nat (length rb) + Z.of_nat (12 + 16 * n))) buf
             = bs ++ x00 :: ra).
  { intros rb bs ra Hr. rewrite Hbuf, Hr.
    replace (magic ++ be32 (Z.of_nat n)
             ++ be16 (Z.of_nat (12 + 16 * n + length (rb ++ bs ++ x00 :: ra)))
             ++ be16 (Z.of_nat (12 + 16 * n)) ++ recs ++ rb ++ bs ++ x00 :: ra)
      with ((magic ++ be32 (Z.of_nat n)
             ++ be16 (Z.of_nat (12 + 16 * n + length (rb ++ bs ++ x00 :: ra)))
             ++ be16 (Z.of_nat (12 + 16 * n)) ++ recs ++ rb) ++ bs ++ x00 :: ra)
      by (rewrite <- !app_assoc; reflexivity).
    apply skipn_app_exact. cbn [magic be32 be16 app length].
    rewrite length_app, Hrecs. lia. }
  assert (Ht_case :
            (title e = [] /\ to = 0xFFFF) \/
            (title e <> [] /\ to <> 0xFFFF /\
             exists bs tl,
               skipn (Z.to_nat (to + Z.of_nat (12 + 16 * n))) buf = bs ++ x00 :: tl /\
               utf8_encode (title e) = Some bs /\ (length bs < fuel)%nat)).
  { destruct Hto as [Hto|[Hne ->]]; [left; exact Hto | right].
    destruct (Hst Hne) as (rb & bs & ra & Henc & Hr & Hrb & Hsz).
    split; [exact Hne|]. split; [lia|].
    exists bs, ra. rewrite <- Hrb. split; [exact (Hat rb bs ra Hr)|].
    split; [exact Henc|]. lia. }
  assert (Hf_case :
            (filename e = [] /\ fo = 0xFFFF) \/
            (filename e <> [] /\ fo <> 0xFFFF /\
             exists bs tl,
               skipn (Z.to_nat (fo + Z.of_nat (12 + 16 * n))) buf = bs ++ x00 :: tl /\
               utf8_encode (filename e) = Some bs /\ (length bs < fuel)%nat)).
  { destruct Hfo as [Hfo|[Hne ->]]; [left; exact Hfo | right].
    destruct (Hsf Hne) as (rb & bs & ra & Henc & Hr & Hrb & Hsz).
    split; [exact Hne|]. split; [lia|].
    exists bs, ra. rewrite <- Hrb. split; [exact (Hat rb bs ra Hr)|].
    split; [exact Henc|]. lia. }
  destruct (read_opt_string_cut fuel buf (Z.of_nat (12 + 16 * n)) (x * 0x10 + 0xC + 16)
              to (title e) (without_strings e) set_title Ht_case) as (p1 & Hp1 & Hc1).
  rewrite (bind_Ret _ _ _ _ _ Hp1).
  destruct (read_opt_string_cut fuel buf (Z.of_nat (12 + 16 * n)) p1
              fo (filename e)
              (match title e with
               | [] => without_strings e
               | _ => set_title (without_strings e) (until_nul (title e))
               end) set_filename Hf_case) as (p2 & Hp2 & Hc2).
  rewrite (bind_Ret _ _ _ _ _ Hp2).
  exists p2. unfold ret. cbn [pos]. split.
  - do 2 f_equal. apply cut_strings_eta.
  - intros [Hnt Hnf]. specialize (Hc1 Hnt). specialize (Hc2 Hnf). subst p1 p2.
    unfold cursor_after, title_offset, filename_offset. rewrite Hx. fold n off.
    destruct (filename e) as [|cf sf] eqn:Ef.
    + destruct (title e) as [|ct st] eqn:Et; [reflexivity|].
      destruct Hto as [[Hto _]|[_ ->]]; [discriminate|].
      change (string_size []) with 0%nat. lia.
    + destruct Hfo as [[Hfo _]|[_ ->]]; [discriminate|]. lia.
Qed.

(** X9: Every entry is in the file the encoder writes: record [x], read the way
    the loop of the decoder reads it, gives entry [x] with each string cut
    at its first U+0000, hence entry [x] itself when its strings have none.
    This holds for every record, also for those the decoder never gets to
    because of the end-of-file test. *)
Theorem toTlst_records_read_back (t : TLST) (buf : list byte) (fuel x : nat)
    (e : TLSTEntry) :
  toTlst_bytes t = Ret buf ->
  (length buf < fuel)%nat ->
  nth_error (tracks t) x = Some e ->
  exists p,
    entry_at fuel (Z.of_nat (0xC + 0x10 * length (tracks t))) x buf
    = Ret (cut_strings e, p) /\
    (nul_free e -> cut_strings e = e /\ p = cursor_after t x e).
Proof.
  intros Henc Hfuel Hx.
  destruct (entry_at_layout_cut t buf fuel x e (toTlst_bytes_Ret_layout t buf Henc)
              Hfuel Hx) as (p & Hp & Hc).
  exists p. split; [exact Hp|]. intros Hn.
  split; [now apply cut_strings_nul_free | now apply Hc].
Qed.

(** The title "a\0b" is written in full and read back as "a"; the second
    entry of the two-entry list is in the file although the decoder stops
    before it. *)
Lemma toTlst_records_read_back_witness :
  (exists p, entry_at 40 (Z.of_nat (0xC + 0x10 * 1)) 0 nul_title_buf
             = Ret (set_title TLSTEntry_init [97], p) /\
             (nul_free nul_title -> cut_strings nul_title = nul_title /\
              p = cursor_after {| tracks := [nul_title] |} 0 nul_title)) /\
  (exists p, entry_at 50 (Z.of_nat (0xC + 0x10 * 2)) 1 two_tracks_buf
             = Ret (TLSTEntry_init, p) /\
             (nul_free TLSTEntry_init -> cut_strings TLSTEntry_init = TLSTEntry_init /\
              p = cursor_after two_tracks 1 TLSTEntry_init)).
Proof.
  assert (E1 : toTlst_bytes {| tracks := [nul_title] |} = Ret nul_title_buf)
    by (vm_compute; reflexivity).
  assert (E2 : toTlst_bytes two_tracks = Ret two_tracks_buf)
    by (vm_compute; reflexivity).
  split.
  - apply (toTlst_records_read_back {| tracks := [nul_title] |} nul_title_buf 40 0 nul_title E1).
    + vm_compute. lia.
    + reflexivity.
  - apply (toTlst_records_read_back two_tracks two_tracks_buf 50 1 TLSTEntry_init E2).
    + vm_compute. lia.
    + reflexivity.
Defined.

(** ** The object hook, case by case *)

Lemma dict_mem_get k d : dict_mem k d = true <-> dict_get k d <> None.
Proof. unfold dict_mem. destruct (dict_get k d); split; congruence. Qed.

Lemma dict_to_object_run d :
  dict_to_object d
  = match dict_get (py "songId") d with
    | Some a =>
        match dict_get (py "delay") d, dict_get (py "volume") d,
              dict_get (py "frequency") d, dict_get (py "switch") d,
              dict_get (py "disablePinch") d, dict_get (py "disableTlstInclusion") d,
              dict_get (py "title") d, dict_get (py "filename") d with
        | Some b, Some c, Some e, Some f, Some g, Some h, Some i, Some j =>
            Ret (VEntry a b c e f g h i j)
        | _, _, _, _, _, _, _, _ => Raise KeyError
        end
    | None =>
        match dict_get (py "tracks") d with
        | Some t => Ret (VTLST t)
        | None => Ret (VDict d)
        end
    end.
Proof.
  unfold dict_to_object, dict_mem, dict_item.
  destruct (dict_get (py "songId") d); [|now destruct (dict_get (py "tracks") d)].
  cbn [obind].
  repeat match goal with
         | |- context [dict_get ?key d] => destruct (dict_get key d); cbn [obind]
         end; reflexivity.
Qed.

(** X10: What the object hook makes of a dictionary.  It is a track entry exactly
    when all nine members are there, and then carries their values; every
    other member, "tracks" included, is dropped.  It is a track list exactly
    when "songId" is missing and "tracks" is there.  It is the dictionary
    itself exactly when both are missing.  Otherwise, "songId" being there
    and one of the other eight missing, it raises KeyError, and it raises
    nothing else. *)
Theorem dict_to_object_cases (d : dict) :
  (forall a b c e f g h i j,
     dict_to_object d = Ret (VEntry a b c e f g h i j) <->
     dict_get (py "songId") d = Some a /\ dict_get (py "delay") d = Some b /\
     dict_get (py "volume") d = Some c /\ dict_get (py "frequency") d = Some e /\
     dict_get (py "switch") d = Some f /\ dict_get (py "disablePinch") d = Some g /\
     dict_get (py "disableTlstInclusion") d = Some h /\
     dict_get (py "title") d = Some i /\ dict_get (py "filename") d = Some j) /\
  (forall t,
     dict_to_object d = Ret (VTLST t) <->
     dict_get (py "songId") d = None /\ dict_get (py "tracks") d = Some t) /\
  (forall d',
     dict_to_object d = Ret (VDict d') <->
     d' = d /\ dict_get (py "songId") d = None /\ dict_get (py "tracks") d = None) /\
  (forall err,
     dict_to_object d = Raise err <->
     err = KeyError /\ dict_get (py "songId") d <> None /\
     exists k, In k entry_keys /\ dict_get k d = None) /\
  dict_to_object d <> OutOfFuel.
Proof.
  rewrite dict_to_object_run. unfold entry_keys.
  destruct (dict_get (py "songId") d) as [a0|] eqn:E0.
  2:{ destruct (dict_get (py "tracks") d) as [t0|] eqn:Et;
        (repeat split; try discriminate; try congruence;
         try (intros; repeat match goal with H : _ /\ _ |- _ => destruct H end;
              congruence)). }
  destruct (dict_get (py "delay") d) eqn:E1.
  2:{ repeat split; try discriminate; try congruence;
        try (intros; repeat match goal with H : _ /\ _ |- _ => destruct H end; congruence).
      exists (py "delay"). split; [cbn [In]; tauto | exact E1]. }
  destruct (dict_get (py "volume") d) eqn:E2.
  2:{ repeat split; try discriminate; try congruence;
        try (intros; repeat match goal with H : _ /\ _ |- _ => destruct H end; congruence).
      exists (py "volume"). split; [cbn [In]; tauto | exact E2]. }
  destruct (dict_get (py "frequency") d) eqn:E3.
  2:{ repeat split; try discriminate; try congruence;
        try (intros; repeat match goal with H : _ /\ _ |- _ => destruct H end; congruence).
      exists (py "frequency"). split; [cbn [In]; tauto | exact E3]. }
  destruct (dict_get (py "switch") d) eqn:E4.
  2:{ repeat split; try discriminate; try congruence;
        try (intros; repeat match goal with H : _ /\ _ |- _ => destruct H end; congruence).
      exists (py "switch"). split; [cbn [In]; tauto | exact E4]. }
  destruct (dict_get (py "disablePinch") d) eqn:E5.
  2:{ repeat split; try discriminate; try congruence;
        try (intros; repeat match goal with H : _ /\ _ |- _ => destruct H end; congruence).
      exists (py "disablePinch"). split; [cbn [In]; tauto | exact E5]. }
  destruct (dict_get (py "disableTlstInclusion") d) eqn:E6.
  2:{ repeat split; try discriminate; try congruence;
        try (intros; repeat match goal with H : _ /\ _ |- _ => destruct H end; congruence).
      exists (py "disableTlstInclusion"). split; [cbn [In]; tauto | exact E6]. }
  destruct (dict_get (py "title") d) eqn:E7.
  2:{ repeat split; try discriminate; try congruence;
        try (intros; repeat match goal with H : _ /\ _ |- _ => destruct H end; congruence).
      exists (py "title"). split; [cbn [In]; tauto | exact E7]. }
  destruct (dict_get (py "filename") d) eqn:E8.
  2:{ repeat split; try discriminate; try congruence;
        try (intros; repeat match goal with H : _ /\ _ |- _ => destruct H end; congruence).
      exists (py "filename"). split; [cbn [In]; tauto | exact E8]. }
  repeat split; try discriminate; try congruence;
    try (intros; repeat match goal with H : _ /\ _ |- _ => destruct H end; congruence).
  intros (_ & _ & k & Hk & Hnone). cbn [In] in Hk.
  repeat (destruct Hk as [<-|Hk]; [congruence|]). contradiction.
Qed.

(** ** What a failed encoder leaves in the file *)

Lemma triple_bind {S A B} (P : S -> Prop) (m : M S A) (k : A -> M S B)
    (R : A -> S -> Prop) Q E :
  triple P m R E -> (forall a, triple (R a) (k a) Q E) -> triple P (bind m k) Q E.
Proof.
  intros Hm Hk s Hs. unfold bind. specialize (Hm s Hs).
  destruct (m s) as [[a|e|] s']; [|exact Hm|exact I].
  exact (Hk a s' Hm).
Qed.

Lemma triple_weaken {S A} (P P' : S -> Prop) (m : M S A) (Q Q' : A -> S -> Prop) E :
  triple P' m Q' E ->
  (forall s, P s -> P' s) -> (forall a s, Q' a s -> Q a s) ->
  triple P m Q E.
Proof.
  intros H HP HQ s Hs. specialize (H s (HP s Hs)).
  destruct (m s) as [[a|e|] s']; auto.
Qed.

Lemma triple_ret {S A} (P : S -> Prop) (a : A) (Q : A -> S -> Prop) E :
  (forall s, P s -> Q a s) -> triple P (ret a) Q E.
Proof. intros H s Hs. exact (H s Hs). Qed.

(** A computation that leaves the store alone. *)
Lemma triple_keep {S A} (P : S -> Prop) (m : M S A) (E : exn -> S -> Prop) :
  (forall s, snd (m s) = s) -> (forall e s, P s -> E e s) ->
  triple P m (fun _ s => P s) E.
Proof.
  intros Hk HE s Hs. specialize (Hk s).
  destruct (m s) as [[a|e|] s']; cbn in Hk; subst; auto.
Qed.

Lemma header_open_length d : header_open d -> (4 <= length d)%nat.
Proof.
  intros [Hm _]. apply (f_equal (@length byte)) in Hm.
  rewrite length_firstn in Hm. change (length magic) with 4%nat in Hm. lia.
Qed.

(** A write behind the header leaves the header as it is. *)
Lemma header_open_write d p bs :
  header_open d -> (12 <= p)%nat ->
  header_open (data (snd (f_write bs {| data := d; pos := p |}))).
Proof.
  intros Ho Hp. destruct bs as [|b bs]; [exact Ho|].
  pose proof (header_open_length d Ho) as Hlen. destruct Ho as [Hm Hz].
  cbn [f_write snd data pos]. split.
  - rewrite firstn_app, length_firstn.
    replace (4 - Nat.min p (length d))%nat with 0%nat by lia.
    rewrite firstn_O, app_nil_r, firstn_firstn.
    replace (Nat.min 4 p) with 4%nat by lia. exact Hm.
  - intros i Hi. transitivity (nth i d x00); [|exact (Hz i Hi)].
    destruct (lt_dec i (length d)) as [Hlt|Hge].
    + rewrite app_nth1 by (rewrite length_firstn; lia).
      rewrite nth_firstn.
      replace (i <? p)%nat with true by (symmetry; apply Nat.ltb_lt; lia).
      reflexivity.
    + rewrite (nth_overflow d) by lia.
      rewrite firstn_all2 by lia. rewrite app_nth2 by lia.
      rewrite app_nth1 by (rewrite repeat_length; lia).
      apply nth_repeat.
Qed.

Lemma f_write_pos bs (f : file) : (pos f <= pos (snd (f_write bs f)))%nat.
Proof. unfold f_write. destruct bs; cbn; lia. Qed.

Lemma w_write_snd bs w :
  w_write bs w = (Ret tt, {| self := self w; out := snd (f_write bs (out w)) |}).
Proof. unfold w_write, on_file, f_write. destruct bs; reflexivity. Qed.

Lemma triple_w_write b bs :
  triple (behind_header b) (w_write bs) (fun _ => behind_header b) left_open.
Proof.
  intros w (Ho & H12 & Hb). rewrite w_write_snd. unfold behind_header. cbn [out].
  pose proof (f_write_pos bs (out w)) as Hp.
  destruct (out w) as [d p]. cbn [data pos] in *.
  split; [now apply header_open_write | lia].
Qed.

Lemma triple_pack_write b (pack : M world (list byte)) :
  (forall w, snd (pack w) = w) ->
  triple (behind_header b) (pack >>= w_write) (fun _ => behind_header b) left_open.
Proof.
  intros Hk. apply (triple_bind _ _ _ (fun _ => behind_header b)).
  - apply triple_keep; [exact Hk|]. intros e w (Ho & _). exact Ho.
  - intros bs. apply triple_w_write.
Qed.

Lemma pack_I_keeps {S} v (s : S) : snd (struct.pack_I v s) = s.
Proof. rewrite pack_I_run. now destruct (struct.in_range _ _ _). Qed.

Lemma pack_H_keeps {S} v (s : S) : snd (struct.pack_H v s) = s.
Proof. rewrite pack_H_run. now destruct (struct.in_range _ _ _). Qed.

Lemma pack_b_keeps {S} v (s : S) : snd (struct.pack_b v s) = s.
Proof. rewrite pack_b_run. now destruct (struct.in_range _ _ _). Qed.

Lemma pack_bool_keeps {S} v (s : S) : snd (struct.pack_bool v s) = s.
Proof. reflexivity. Qed.

Lemma str_encode_keeps {S} v (s : S) : snd (str_encode v s) = s.
Proof. unfold str_encode. now destruct (utf8_encode v). Qed.

Lemma getitem_keeps {S A} (l : list A) x (s : S) : snd (getitem l x s) = s.
Proof. unfold getitem. now destruct (nth_error l x). Qed.

Lemma triple_write_fixed b e :
  triple (behind_header b) (write_fixed e) (fun _ => behind_header b) left_open.
Proof.
  unfold write_fixed.
  repeat (apply (triple_bind _ _ _ (fun _ => behind_header b));
          [apply triple_pack_write;
           first [apply pack_I_keeps | apply pack_H_keeps | apply pack_b_keeps
                 | apply pack_bool_keeps] | intros _]).
  apply triple_pack_write. apply pack_bool_keeps.
Qed.

Lemma triple_for_each b (l : list TLSTEntry) :
  triple (behind_header b) (for_each l write_fixed) (fun _ => behind_header b) left_open.
Proof.
  induction l as [|e l IH]; cbn [for_each].
  - apply triple_ret. auto.
  - apply (triple_bind _ _ _ (fun _ => behind_header b));
      [apply triple_write_fixed | intros _; exact IH].
Qed.

Lemma triple_write_string b so x slot s :
  (12 <= x * 0x10 + 0xC + slot)%nat ->
  triple (behind_header b) (write_string so x slot s) (fun _ => behind_header b) left_open.
Proof.
  intros Hslot. unfold write_string.
  apply (triple_bind _ _ _ (fun _ => behind_header b)).
  { intros w Hw. exact Hw. }
  intros off. destruct s as [|c s]; [apply triple_ret; auto|].
  apply (triple_bind _ _ _ (fun _ => behind_header b));
    [apply triple_pack_write, str_encode_keeps | intros _].
  apply (triple_bind _ _ _ (fun _ => behind_header b));
    [apply triple_w_write | intros _].
  apply (triple_bind _ _ _
           (fun prevOff w => header_open (data (out w))
                             /\ (12 <= prevOff)%nat /\ (b <= prevOff)%nat)).
  { intros w (Ho & H12 & Hb). cbn. auto. }
  intros prevOff.
  intros w (Ho & H12 & Hb).
  assert (Hrest :
            triple (behind_header 12)
              (struct.pack_H (Z.of_nat off - Z.of_nat so) >>= w_write >>
               on_file (f_seek prevOff) >> ret tt)
              (fun _ => behind_header b) left_open).
  { apply (triple_bind _ _ _ (fun _ => behind_header 12));
      [apply triple_pack_write, pack_H_keeps | intros _].
    intros w' (Ho' & _). cbn. repeat split; try apply Ho'; assumption. }
  unfold bind at 1. cbn [on_file f_seek out].
  apply Hrest. repeat split; try apply Ho; cbn [out pos data]; lia.
Qed.

Lemma triple_strings_loop b so n :
  forall x,
    triple (behind_header b) (strings_loop so n x) (fun _ => behind_header b) left_open.
Proof.
  induction n as [|n IH]; intros x; cbn [strings_loop].
  - apply triple_ret. auto.
  - apply (triple_bind _ _ _ (fun _ => behind_header b)).
    { intros w Hw. exact Hw. }
    intros ts.
    apply (triple_bind _ _ _ (fun _ => behind_header b)).
    { apply triple_keep; [apply getitem_keeps|]. intros e w (Ho & _). exact Ho. }
    intros e.
    apply (triple_bind _ _ _ (fun _ => behind_header b));
      [apply triple_write_string; lia | intros _].
    apply (triple_bind _ _ _ (fun _ => behind_header b));
      [apply triple_write_string; lia | intros _].
    apply IH.
Qed.

(** The two header fields are written last; the second write cannot fail
    once the first has not. *)
Lemma triple_close_header so total :
  (so <= total)%nat ->
  triple (fun w => header_open (data (out w)))
    (on_file (f_seek 0x8) >>
     struct.pack_H (Z.of_nat total) >>= w_write >>
     struct.pack_H (Z.of_nat so) >>= w_write)
    (fun _ _ => True) left_open.
Proof.
  intros Hle w Ho. unfold bind at 1. cbn [on_file f_seek out].
  rewrite bind_assoc, bind_pack_H.
  destruct (struct.in_range 0 0xFFFF (Z.of_nat total)) eqn:Et; [|exact Ho].
  unfold bind at 1. rewrite w_write_snd.
  rewrite bind_pack_H.
  rewrite (in_range_le _ _ _ _ Et) by lia.
  now rewrite w_write_snd.
Qed.

Lemma triple_after_header :
  triple (behind_header 12)
    (ts <- get_tracks ;;
     for_each ts write_fixed >>
     stringsOffset <- on_file f_tell ;;
     ts <- get_tracks ;;
     strings_loop stringsOffset (length ts) 0 >>
     totalSize <- on_file f_tell ;;
     on_file (f_seek 0x8) >>
     struct.pack_H (Z.of_nat totalSize) >>= w_write >>
     struct.pack_H (Z.of_nat stringsOffset) >>= w_write)
    (fun _ _ => True) left_open.
Proof.
  apply (triple_bind _ _ _ (fun _ => behind_header 12)).
  { intros w Hw. exact Hw. }
  intros ts.
  apply (triple_bind _ _ _ (fun _ => behind_header 12));
    [apply triple_for_each | intros _].
  intros w (Ho & H12 & _).
  unfold bind at 1. cbn [on_file f_tell out].
  set (so := pos (out w)).
  assert (Hw : behind_header so {| self := self w; out := out w |}).
  { repeat split; try apply Ho; cbn [out]; subst so; lia. }
  revert Hw. generalize {| self := self w; out := out w |}. clear Ho H12.
  generalize so. clear so w. intros so.
  change (triple (behind_header so)
            (ts0 <- get_tracks ;;
             strings_loop so (length ts0) 0 >>
             totalSize <- on_file f_tell ;;
             on_file (f_seek 0x8) >>
             struct.pack_H (Z.of_nat totalSize) >>= w_write >>
             struct.pack_H (Z.of_nat so) >>= w_write)
            (fun _ _ => True) left_open).
  apply (triple_bind _ _ _ (fun _ => behind_header so)).
  { intros w Hw. exact Hw. }
  intros ts0.
  apply (triple_bind _ _ _ (fun _ => behind_header so));
    [apply triple_strings_loop | intros _].
  intros w (Ho & H12 & Hso).
  unfold bind at 1. cbn [on_file f_tell out].
  apply (triple_close_header so (pos (out w)) Hso). exact Ho.
Qed.

Lemma header_open_magic_count n : header_open (magic ++ be32 n).
Proof.
  split; [reflexivity|]. intros i Hi. apply nth_overflow. cbn. lia.
Qed.

(** X11: When the encoder raises, the file it has opened stays behind, partly
    written: it starts with the tag TLST, and the size and strings-offset
    fields of its header have not been filled in; the bytes at 0x8 to 0xB
    are zero as far as the file reaches. *)
Theorem toTlst_failure_leaves_open_header (t : TLST) (e : exn) (w : world) :
  toTlst (fresh t) = (Raise e, w) ->
  firstn 4 (data (out w)) = magic /\
  forall i, (8 <= i < 12)%nat -> nth i (data (out w)) x00 = x00.
Proof.
  intros H. change (header_open (data (out w))).
  unfold toTlst in H. change (fresh t) with (mk t [] 0) in H.
  rewrite (bind_w_write_end t [] magic) in H. cbn [app] in H.
  unfold bind at 1 in H. rewrite get_tracks_run in H.
  rewrite bind_assoc, bind_pack_I in H.
  destruct (struct.in_range 0 0xFFFFFFFF (Z.of_nat (length (tracks t)))).
  2:{ injection H as _ <-. split; [reflexivity|].
      intros i Hi. apply nth_overflow. cbn. lia. }
  change (length magic) with 4%nat in H.
  rewrite (bind_w_write_end t magic) in H.
  unfold bind at 1 in H. rewrite w_seek_run in H.
  pose proof (triple_after_header
                (mk t (magic ++ be32 (Z.of_nat (length (tracks t)))) 12)) as HT.
  rewrite H in HT. apply HT.
  split; [apply header_open_magic_count|]. cbn. lia.
Qed.

(** A delay above 0xFFFF: the encoder raises after the tag, the count and
    the song id have been written. *)
Lemma toTlst_failure_leaves_open_header_witness :
  firstn 4 (magic ++ be32 1 ++ [x00; x00; x00; x00] ++ be32 1) = magic /\
  forall i, (8 <= i < 12)%nat ->
    nth i (magic ++ be32 1 ++ [x00; x00; x00; x00] ++ be32 1) x00 = x00.
Proof.
  apply (toTlst_failure_leaves_open_header {| tracks := [long_delay] |} StructError
           (mk {| tracks := [long_delay] |}
               (magic ++ be32 1 ++ [x00; x00; x00; x00] ++ be32 1) 16)).
  vm_compute. reflexivity.
Defined.

(** ** Strings and paths *)

Lemma pystr_eqb_eq a b : pystr_eqb a b = true <-> a = b.
Proof.
  revert b. induction a as [|x a IH]; intros [|y b]; cbn [pystr_eqb];
    try (split; [discriminate | discriminate]); [split; reflexivity|].
  rewrite andb_true_iff, Z.eqb_eq, IH. split.
  - intros [-> ->]. reflexivity.
  - intros H. injection H as -> ->. now split.
Qed.

Lemma pystr_eqb_refl a : pystr_eqb a a = true.
Proof. now apply pystr_eqb_eq. Qed.

Lemma endswith_spec s suffix :
  endswith s suffix = true <-> exists pre, s = pre ++ suffix.
Proof.
  unfold endswith. rewrite pystr_eqb_eq. split.
  - intros H. exists (firstn (length s - length suffix) s).
    pose proof (firstn_skipn (length s - length suffix) s) as Hs.
    rewrite H in Hs. now symmetry.
  - intros [pre ->]. rewrite length_app.
    replace (length pre + length suffix - length suffix)%nat with (length pre) by lia.
    rewrite skipn_app, skipn_all, Nat.sub_diag. reflexivity.
Qed.

Lemma endswith_app pre s suffix :
  endswith s suffix = true -> endswith (pre ++ s) suffix = true.
Proof.
  rewrite !endswith_spec. intros [p ->]. exists (pre ++ p). now rewrite app_assoc.
Qed.

(** A joined path ends as its last part does. *)
Lemma endswith_join root file suffix :
  endswith file suffix = true -> endswith (os_path_join root file) suffix = true.
Proof.
  intros H. unfold os_path_join.
  destruct (startswith file (py "/")); [exact H|].
  destruct (pystr_eqb root [] || endswith root (py "/")).
  - now apply endswith_app.
  - apply endswith_app. now apply (endswith_app (py "/")).
Qed.

(** Two suffixes of the same length exclude each other. *)
Lemma endswith_other s suf suf' :
  length suf = length suf' -> suf <> suf' ->
  endswith s suf = true -> endswith s suf' = false.
Proof.
  intros Hlen Hne H. unfold endswith in *. rewrite <- Hlen.
  apply pystr_eqb_eq in H. rewrite H.
  destruct (pystr_eqb suf suf') eqn:E; [|reflexivity].
  apply pystr_eqb_eq in E. contradiction.
Qed.

Lemma startswith_app old b : startswith (old ++ b) old = true.
Proof.
  induction old as [|c old IH]; [now destruct b|].
  cbn [app startswith]. now rewrite Z.eqb_refl, IH.
Qed.

(** An occurrence found at the head of [a ++ r] lies within [a], or [a] is
    a proper head of it and the rest is found at the head of [r]. *)
Lemma startswith_app_inv a :
  forall r old,
    startswith (a ++ r) old = true ->
    startswith a old = true \/
    exists v, v <> [] /\ old = a ++ v /\ startswith r v = true.
Proof.
  induction a as [|x a IH]; intros r old H.
  - destruct old as [|y old]; [now left|].
    right. exists (y :: old). now repeat split.
  - destruct old as [|y old]; [now left|].
    cbn [app startswith] in H |- *.
    apply andb_true_iff in H. destruct H as [Hxy H].
    apply Z.eqb_eq in Hxy. subst y.
    destruct (IH r old H) as [Ha|(v & Hv & -> & Hr)].
    + left. now rewrite Z.eqb_refl, Ha.
    + right. exists v. now repeat split.
Qed.

Lemma startswith_head s c old : startswith s (c :: old) = true -> exists s', s = c :: s'.
Proof.
  destruct s as [|x s]; [discriminate|]. cbn [startswith].
  intros H. apply andb_true_iff in H. destruct H as [H _].
  apply Z.eqb_eq in H. subst x. now exists s.
Qed.

Lemma replace_from_skip old new k :
  forall s, replace_from old new k s = replace_from old new 0 (skipn k s).
Proof.
  induction k as [|k IH]; intros s; [reflexivity|].
  destruct s as [|c s]; [reflexivity|]. cbn [replace_from skipn]. apply IH.
Qed.

(** An occurrence at the head is replaced, and the search goes on behind
    it. *)
Lemma replace_occurrence c old new b :
  replace ((c :: old) ++ b) (c :: old) new = new ++ replace b (c :: old) new.
Proof.
  unfold replace.
  change ((c :: old) ++ b) with (c :: (old ++ b)).
  cbn [replace_from].
  change (c :: (old ++ b)) with ((c :: old) ++ b). rewrite startswith_app.
  rewrite replace_from_skip.
  replace (length (c :: old) - 1)%nat with (length old) by (cbn [length]; lia).
  now rewrite skipn_app, skipn_all, Nat.sub_diag.
Qed.

(** Where no occurrence starts, nothing changes. *)
Lemma replace_no_start old new a :
  forall r,
    (forall i, (i < length a)%nat -> startswith (skipn i (a ++ r)) old = false) ->
    replace (a ++ r) old new = a ++ replace r old new.
Proof.
  induction a as [|x a IH]; intros r H; [reflexivity|].
  unfold replace. cbn [app replace_from].
  pose proof (H 0%nat ltac:(cbn; lia)) as H0. cbn [skipn app] in H0. rewrite H0.
  f_equal. apply IH. intros i Hi.
  exact (H (S i) ltac:(cbn; lia)).
Qed.

Lemma contains_skipn s old :
  contains s old = false -> forall i, startswith (skipn i s) old = false.
Proof.
  induction s as [|x s IH]; intros H i.
  - cbn in H. rewrite orb_false_r in H. now destruct i.
  - cbn [contains] in H. apply orb_false_iff in H. destruct H as [H0 H].
    destruct i as [|i]; [exact H0 | exact (IH H i)].
Qed.

(** The first character of [old] occurring nowhere else in it, no
    occurrence of [old] starts within [a] in [a ++ old ++ b] unless [a]
    has one itself. *)
Lemma no_straddle c old a b :
  ~ In c old ->
  contains a (c :: old) = false ->
  forall i, (i < length a)%nat ->
    startswith (skipn i (a ++ (c :: old) ++ b)) (c :: old) = false.
Proof.
  intros Hc. induction a as [|x a IH]; intros Hno i Hi; [cbn in Hi; lia|].
  cbn [contains] in Hno. apply orb_false_iff in Hno. destruct Hno as [H0 Hno].
  destruct i as [|i]; [|cbn [app skipn]; apply IH; [exact Hno | cbn in Hi; lia]].
  cbn [skipn].
  destruct (startswith ((x :: a) ++ (c :: old) ++ b) (c :: old)) eqn:E; [|reflexivity].
  exfalso. apply startswith_app_inv in E.
  destruct E as [E|(v & Hv & Hold & Hr)]; [congruence|].
  destruct v as [|v0 v]; [contradiction|].
  change ((c :: old) ++ b) with (c :: (old ++ b)) in Hr.
  cbn [startswith] in Hr. apply andb_true_iff in Hr. destruct Hr as [Hr _].
  apply Z.eqb_eq in Hr. subst v0.
  cbn [app] in Hold. injection Hold as _ Hold. apply Hc. rewrite Hold.
  apply in_or_app. right. now left.
Qed.

Lemma replace_first c old new a b :
  ~ In c old ->
  contains a (c :: old) = false ->
  replace (a ++ (c :: old) ++ b) (c :: old) new = a ++ new ++ replace b (c :: old) new.
Proof.
  intros Hc Hno.
  rewrite (replace_no_start (c :: old) new a ((c :: old) ++ b)
             (no_straddle c old a b Hc Hno)).
  now rewrite replace_occurrence.
Qed.

Lemma replace_none old new s :
  contains s old = false -> replace s old new = s.
Proof.
  intros Hno. rewrite <- (app_nil_r s) at 1.
  rewrite replace_no_start; [now rewrite app_nil_r|].
  intros i _. rewrite app_nil_r. now apply contains_skipn.
Qed.

(** The extension of a name that has the old extension nowhere else. *)
Lemma replace_extension c old new stem :
  ~ In c old ->
  contains stem (c :: old) = false ->
  replace (stem ++ c :: old) (c :: old) new = stem ++ new.
Proof.
  intros Hc Hno.
  replace (stem ++ c :: old) with (stem ++ (c :: old) ++ [])
    by (now rewrite app_nil_r).
  rewrite (replace_first c old new stem [] Hc Hno).
  unfold replace. cbn [replace_from]. now rewrite app_nil_r.
Qed.

Lemma components_no_slash name :
  forall cur, ~ In 47 name -> components name cur = [cur ++ name].
Proof.
  induction name as [|c name IH]; intros cur H; cbn [components].
  - now rewrite app_nil_r.
  - destruct (c =? 47) eqn:E.
    + apply Z.eqb_eq in E. subst c. exfalso. apply H. now left.
    + rewrite IH by (intros Hin; apply H; now right).
      now rewrite <- app_assoc.
Qed.

Lemma components_slash a name :
  forall cur, exists l, components (a ++ 47 :: name) cur = l ++ components name [].
Proof.
  induction a as [|c a IH]; intros cur; cbn [app components].
  - exists [cur]. reflexivity.
  - destruct (c =? 47).
    + destruct (IH []) as [l Hl]. exists (cur :: l). now rewrite Hl.
    + apply IH.
Qed.

(** The name of a path whose last part is a proper file name. *)
Lemma Path_name_last prefix name :
  prefix = [] \/ (exists d, prefix = d ++ py "/") ->
  ~ In 47 name -> name <> [] -> name <> py "." ->
  Path_name (prefix ++ name) = name.
Proof.
  intros Hp Hslash Hne Hdot.
  assert (Hkeep : negb (pystr_eqb name [] || pystr_eqb name (py ".")) = true).
  { destruct (pystr_eqb name []) eqn:E1; [apply pystr_eqb_eq in E1; contradiction|].
    destruct (pystr_eqb name (py ".")) eqn:E2; [apply pystr_eqb_eq in E2; contradiction|].
    reflexivity. }
  unfold Path_name. destruct Hp as [->|[d ->]].
  - cbn [app]. rewrite components_no_slash by exact Hslash.
    cbn [app filter]. now rewrite Hkeep.
  - rewrite <- app_assoc. change (py "/" ++ name) with (47 :: name).
    destruct (components_slash d name []) as [l ->].
    rewrite components_no_slash by exact Hslash.
    rewrite filter_app. cbn [app filter]. rewrite Hkeep.
    apply last_last.
Qed.

(** ** Where the output goes *)

Lemma json_head : ~ In 46 [106; 115; 111; 110].
Proof. cbn. intros [H|[H|[H|[H|[]]]]]; discriminate H. Qed.

Lemma tlst_head : ~ In 46 [116; 108; 115; 116].
Proof. cbn. intros [H|[H|[H|[H|[]]]]]; discriminate H. Qed.

(** X12: With no output path given, a file [stem.json] is converted to
    [stem.tlst] and a file [stem.tlst] to [stem.json], next to the input,
    provided the stem does not contain the extension once more and the
    resulting path is not a directory. *)
Theorem process_default_output {S obj : Type} (isdir : pystr -> M S bool)
    (load : pystr -> M S obj) (store : obj -> pystr -> M S unit)
    (stem : pystr) (s s' : S) :
  (contains stem (py ".json") = false ->
   isdir (stem ++ py ".tlst") s = (Ret false, s') ->
   processJson isdir load store (stem ++ py ".json") None s
   = (tlst <- load (stem ++ py ".json") ;; store tlst (stem ++ py ".tlst")) s') /\
  (contains stem (py ".tlst") = false ->
   isdir (stem ++ py ".json") s = (Ret false, s') ->
   processTlst isdir load store (stem ++ py ".tlst") None s
   = (tlst <- load (stem ++ py ".tlst") ;; store tlst (stem ++ py ".json")) s').
Proof.
  split; intros Hno Hdir.
  - unfold processJson. cbv zeta.
    change (py ".json") with (46 :: [106; 115; 111; 110]) in *.
    rewrite (replace_extension 46 _ (py ".tlst") stem json_head Hno).
    now rewrite (bind_Ret _ _ _ _ _ Hdir).
  - unfold processTlst. cbv zeta.
    change (py ".tlst") with (46 :: [116; 108; 115; 116]) in *.
    rewrite (replace_extension 46 _ (py ".json") stem tlst_head Hno).
    now rewrite (bind_Ret _ _ _ _ _ Hdir).
Qed.

(** "song.json" goes to "song.tlst", "song.tlst" to "song.json". *)
Lemma process_default_output_witness :
  processJson rec_isdir (rec_load (py "fromJson")) (rec_store (py "toTlst"))
    (py "song" ++ py ".json") None []
  = (Ret tt, [[py "fromJson"; py "song.json"];
              [py "toTlst"; py "song.json"; py "song.tlst"]]) /\
  processTlst rec_isdir (rec_load (py "fromTlst")) (rec_store (py "toJson"))
    (py "song" ++ py ".tlst") None []
  = (Ret tt, [[py "fromTlst"; py "song.tlst"];
              [py "toJson"; py "song.tlst"; py "song.json"]]).
Proof.
  split.
  - rewrite (proj1 (process_default_output rec_isdir (rec_load (py "fromJson"))
                      (rec_store (py "toTlst")) (py "song") [] []));
      reflexivity.
  - rewrite (proj2 (process_default_output rec_isdir (rec_load (py "fromTlst"))
                      (rec_store (py "toJson")) (py "song") [] []));
      reflexivity.
Defined.

(** X13: The default output path has every occurrence of the extension
    rewritten, not the final one alone: a file in a directory whose name
    contains ".json" is converted into another directory. *)
Theorem process_default_rewrites_every_occurrence {S obj : Type} (isdir : pystr -> M S bool)
    (load : pystr -> M S obj) (store : obj -> pystr -> M S unit)
    (a b : pystr) (s s' : S) :
  (contains a (py ".json") = false -> contains b (py ".json") = false ->
   isdir (a ++ py ".tlst" ++ b ++ py ".tlst") s = (Ret false, s') ->
   processJson isdir load store (a ++ py ".json" ++ b ++ py ".json") None s
   = (tlst <- load (a ++ py ".json" ++ b ++ py ".json") ;;
      store tlst (a ++ py ".tlst" ++ b ++ py ".tlst")) s') /\
  (contains a (py ".tlst") = false -> contains b (py ".tlst") = false ->
   isdir (a ++ py ".json" ++ b ++ py ".json") s = (Ret false, s') ->
   processTlst isdir load store (a ++ py ".tlst" ++ b ++ py ".tlst") None s
   = (tlst <- load (a ++ py ".tlst" ++ b ++ py ".tlst") ;;
      store tlst (a ++ py ".json" ++ b ++ py ".json")) s').
Proof.
  split; intros Ha Hb Hdir.
  - unfold processJson. cbv zeta.
    change (py ".json") with (46 :: [106; 115; 111; 110]) in *.
    rewrite (replace_first 46 _ (py ".tlst") a _ json_head Ha).
    rewrite (replace_extension 46 _ (py ".tlst") b json_head Hb).
    now rewrite (bind_Ret _ _ _ _ _ Hdir).
  - unfold processTlst. cbv zeta.
    change (py ".tlst") with (46 :: [116; 108; 115; 116]) in *.
    rewrite (replace_first 46 _ (py ".json") a _ tlst_head Ha).
    rewrite (replace_extension 46 _ (py ".json") b tlst_head Hb).
    now rewrite (bind_Ret _ _ _ _ _ Hdir).
Qed.

(** "set.json/song.json" goes to "set.tlst/song.tlst". *)
Lemma process_default_rewrites_every_occurrence_witness :
  processJson rec_isdir (rec_load (py "fromJson")) (rec_store (py "toTlst"))
    (py "set" ++ py ".json" ++ py "/song" ++ py ".json") None []
  = (Ret tt, [[py "fromJson"; py "set.json/song.json"];
              [py "toTlst"; py "set.json/song.json"; py "set.tlst/song.tlst"]]).
Proof.
  rewrite (proj1 (process_default_rewrites_every_occurrence rec_isdir
                    (rec_load (py "fromJson")) (rec_store (py "toTlst"))
                    (py "set") (py "/song") [] []));
    reflexivity.
Defined.

Lemma file_name_ok stem ext :
  ~ In 47 stem -> ~ In 47 ext -> (1 < length ext)%nat ->
  ~ In 47 (stem ++ ext) /\ stem ++ ext <> [] /\ stem ++ ext <> py ".".
Proof.
  intros Hs He Hl. split; [|split].
  - intros H. apply in_app_or in H. tauto.
  - intros H. apply (f_equal (@length Z)) in H. rewrite length_app in H. cbn in H. lia.
  - intros H. apply (f_equal (@length Z)) in H. rewrite length_app in H. cbn in H. lia.
Qed.



(** ** The dispatch on the extension *)

(** X15: The status that [processFile] returns tells one thing only: whether
    the path has one of the two extensions.  It is True exactly when it has
    neither, and then nothing has been done.  With ".json" the outcome is
    that of [processJson], otherwise with ".tlst" that of [processTlst]:
    the status is False when the conversion returns, and when it raises,
    the exception goes through unchanged, with the store the conversion
    left, and there is no status. *)
Theorem processFile_status {S obj : Type} (isdir : pystr -> M S bool)
    (fromJson fromTlst' : pystr -> M S obj) (toTlst' toJson : obj -> pystr -> M S unit)
    (inputPath : pystr) (outPath : option pystr) (s : S) :
  match processFile isdir fromJson fromTlst' toTlst' toJson inputPath outPath s with
  | (Ret errStatus, s') =>
      errStatus = negb (endswith inputPath (py ".json") || endswith inputPath (py ".tlst"))
      /\ (errStatus = true -> s' = s)
  | (_, _) =>
      endswith inputPath (py ".json") || endswith inputPath (py ".tlst") = true
  end /\
  (endswith inputPath (py ".json") = true ->
   processFile isdir fromJson fromTlst' toTlst' toJson inputPath outPath s
   = match processJson isdir fromJson toTlst' inputPath outPath s with
     | (Ret _, s') => (Ret false, s')
     | (Raise e, s') => (Raise e, s')
     | (OutOfFuel, s') => (OutOfFuel, s')
     end) /\
  (endswith inputPath (py ".json") = false ->
   endswith inputPath (py ".tlst") = true ->
   processFile isdir fromJson fromTlst' toTlst' toJson inputPath outPath s
   = match processTlst isdir fromTlst' toJson inputPath outPath s with
     | (Ret _, s') => (Ret false, s')
     | (Raise e, s') => (Raise e, s')
     | (OutOfFuel, s') => (OutOfFuel, s')
     end) /\
  (endswith inputPath (py ".json") = false ->
   endswith inputPath (py ".tlst") = false ->
   processFile isdir fromJson fromTlst' toTlst' toJson inputPath outPath s
   = (Ret true, s)).
Proof.
  split; [|split; [|split]].
  - unfold processFile.
    destruct (endswith inputPath (py ".json")).
    + unfold bind.
      destruct (processJson _ _ _ _ _ s) as [[u|e|] s1]; cbn; try reflexivity.
      split; [reflexivity | discriminate].
    + destruct (endswith inputPath (py ".tlst")).
      * unfold bind.
        destruct (processTlst _ _ _ _ _ s) as [[u|e|] s1]; cbn; try reflexivity.
        split; [reflexivity | discriminate].
      * cbn. now split.
  - intros Hj. unfold processFile. rewrite Hj. unfold bind at 1.
    now destruct (processJson _ _ _ _ _ s) as [[u|e|] s1].
  - intros Hj Ht. unfold processFile. rewrite Hj, Ht. unfold bind at 1.
    now destruct (processTlst _ _ _ _ _ s) as [[u|e|] s1].
  - intros Hj Ht. unfold processFile. now rewrite Hj, Ht.
Qed.

(** A loader that fails on "song.json": the KeyError comes out of
    [processFile], no status does; "notes.txt" is left alone, with status
    True. *)
Lemma processFile_status_witness :
  processFile rec_isdir (rec_load_fails (py "fromJson")) (rec_load (py "fromTlst"))
    (rec_store (py "toTlst")) (rec_store (py "toJson")) (py "song.json") None []
  = (Raise KeyError, [[py "fromJson"; py "song.json"]]) /\
  processFile rec_isdir (rec_load_fails (py "fromJson")) (rec_load (py "fromTlst"))
    (rec_store (py "toTlst")) (rec_store (py "toJson")) (py "notes.txt") None []
  = (Ret true, []).
Proof.
  split.
  - rewrite (proj1 (proj2 (processFile_status rec_isdir
                             (rec_load_fails (py "fromJson")) (rec_load (py "fromTlst"))
                             (rec_store (py "toTlst")) (rec_store (py "toJson"))
                             (py "song.json") None []))) by reflexivity.
    reflexivity.
  - apply (proj2 (proj2 (proj2 (processFile_status rec_isdir
                             (rec_load_fails (py "fromJson")) (rec_load (py "fromTlst"))
                             (rec_store (py "toTlst")) (rec_store (py "toJson"))
                             (py "notes.txt") None [])))); reflexivity.
Defined.

(** ** Gathering the files of a directory, and [main] *)

Lemma bind_ext {S A B} (m : M S A) (k k' : A -> M S B) s :
  (forall a s', m s = (Ret a, s') -> k a s' = k' a s') ->
  bind m k s = bind m k' s.
Proof.
  intros H. unfold bind. destruct (m s) as [[a|e|] s']; try reflexivity.
  now apply H.
Qed.

Lemma bind_ret_tt {S} (m : M S unit) s : bind m (fun _ => ret tt) s = m s.
Proof. unfold bind. now destruct (m s) as [[[]|e|] s']. Qed.

Lemma for_each_ext {S A} (l : list A) (f g : A -> M S unit) :
  (forall x, In x l -> forall s, f x s = g x s) ->
  forall s, for_each l f s = for_each l g s.
Proof.
  induction l as [|x l IH]; intros H s; [reflexivity|]. cbn [for_each].
  unfold bind. rewrite (H x (or_introl eq_refl) s).
  destruct (g x s) as [[u|e|] s']; try reflexivity.
  apply IH. intros y Hy. apply H. now right.
Qed.

Lemma gatherFiles_Ret_inv {S : Type}
    (walk : pystr -> M S (list (pystr * list pystr * list pystr)))
    (path extension : pystr) (s s' : S) (paths : list pystr) :
  gatherFiles walk path extension s = (Ret paths, s') ->
  exists triples,
    walk path s = (Ret triples, s') /\
    paths = flat_map
              (fun '(root, _, files) =>
                 map (os_path_join root)
                     (filter (fun file => endswith file extension) files))
              triples.
Proof.
  unfold gatherFiles. intros H. apply bind_Ret_inv in H.
  destruct H as (triples & s1 & Hw & H). injection H as <- <-.
  now exists triples.
Qed.

Lemma gatherFiles_endswith {S : Type}
    (walk : pystr -> M S (list (pystr * list pystr * list pystr)))
    (path extension : pystr) (s s' : S) (paths : list pystr) :
  gatherFiles walk path extension s = (Ret paths, s') ->
  forall p, In p paths -> endswith p extension = true.
Proof.
  intros H p Hp. apply gatherFiles_Ret_inv in H. destruct H as (triples & _ & ->).
  apply in_flat_map in Hp. destruct Hp as ([[root dirs] files] & _ & Hp).
  apply in_map_iff in Hp. destruct Hp as (file & <- & Hf).
  apply filter_In in Hf. now apply endswith_join.
Qed.

(** X16: What [gatherFiles] returns: for every directory that [os.walk] visits,
    in its order, the files of that directory whose name ends with the
    extension, in their order, each joined to the directory; nothing else.
    Every path returned ends with the extension, and the file system is
    only looked at by the walk. *)
Theorem gatherFiles_paths {S : Type}
    (walk : pystr -> M S (list (pystr * list pystr * list pystr)))
    (path extension : pystr) (s s' : S) (paths : list pystr) :
  gatherFiles walk path extension s = (Ret paths, s') ->
  exists triples,
    walk path s = (Ret triples, s') /\
    paths = concat (map (fun t => map (os_path_join (fst (fst t)))
                                   (filter (fun file => endswith file extension) (snd t)))
                        triples) /\
    (forall p, In p paths <->
       exists root dirs files file,
         In (root, dirs, files) triples /\ In file files /\
         endswith file extension = true /\ p = os_path_join root file) /\
    (forall p, In p paths -> endswith p extension = true).
Proof.
  intros H. apply gatherFiles_Ret_inv in H. destruct H as (triples & Hw & ->).
  exists triples. split; [exact Hw|].
  assert (Hin : forall p,
            In p (flat_map
                    (fun '(root, _, files) =>
                       map (os_path_join root)
                           (filter (fun file => endswith file extension) files))
                    triples) <->
            exists root dirs files file,
              In (root, dirs, files) triples /\ In file files /\
              endswith file extension = true /\ p = os_path_join root file).
  { intros p. rewrite in_flat_map. split.
    - intros ([[root dirs] files] & Ht & Hp). apply in_map_iff in Hp.
      destruct Hp as (file & <- & Hf). apply filter_In in Hf. destruct Hf as [Hf He].
      now exists root, dirs, files, file.
    - intros (root & dirs & files & file & Ht & Hf & He & ->).
      exists (root, dirs, files). split; [exact Ht|].
      apply in_map. apply filter_In. now split. }
  split; [|split; [exact Hin|]].
  - rewrite flat_map_concat_map. f_equal. apply map_ext.
    intros [[root dirs] files]. reflexivity.
  - intros p Hp. apply Hin in Hp.
    destruct Hp as (root & dirs & files & file & _ & _ & He & ->).
    now apply endswith_join.
Qed.

(** Of "a.tlst", "b.json" and "notes.txt" in "out", the one ".tlst" file. *)
Lemma gatherFiles_paths_witness :
  exists triples,
    rec_walk (py "out") [] = (Ret triples, []) /\
    [py "out/a.tlst"]
    = concat (map (fun t => map (os_path_join (fst (fst t)))
                              (filter (fun file => endswith file (py ".tlst")) (snd t)))
                  triples) /\
    (forall p, In p [py "out/a.tlst"] <->
       exists root dirs files file,
         In (root, dirs, files) triples /\ In file files /\
         endswith file (py ".tlst") = true /\ p = os_path_join root file) /\
    (forall p, In p [py "out/a.tlst"] -> endswith p (py ".tlst") = true).
Proof.
  apply (gatherFiles_paths rec_walk (py "out") (py ".tlst") [] [] [py "out/a.tlst"]).
  reflexivity.
Defined.

(** X17: Given files rather than one directory, [main] does not look at
    [--extract]: the direction of each conversion is taken from the
    extension of the file alone. *)
Theorem main_extract_ignored_for_files {S obj : Type} (isdir : pystr -> M S bool)
    (walk : pystr -> M S (list (pystr * list pystr * list pystr)))
    (makedirs print : pystr -> M S unit)
    (fromJson fromTlst' : pystr -> M S obj) (toTlst' toJson : obj -> pystr -> M S unit)
    (a : args) (s : S) :
  (forall p, input a = [p] -> fst (isdir p s) <> Ret true) ->
  main isdir walk makedirs print fromJson fromTlst' toTlst' toJson a s
  = main isdir walk makedirs print fromJson fromTlst' toTlst' toJson
      {| input := input a; extract := negb (extract a); output := output a |} s.
Proof.
  intros H. unfold main. cbn [input extract output].
  destruct (input a) as [|p [|q l]]; try reflexivity.
  specialize (H p eq_refl). rewrite !bind_assoc.
  destruct (isdir p s) as [[[|]|e|] s1] eqn:E; cbn [fst] in H.
  - now elim H.
  - now rewrite !(bind_Ret _ _ _ _ _ E).
  - now rewrite !(bind_Raise _ _ _ _ _ E).
  - now rewrite !(bind_OutOfFuel _ _ _ _ E).
Qed.

(** With and without [-x], "song.json" is built into "song.tlst". *)
Lemma main_extract_ignored_for_files_witness :
  main rec_isdir rec_walk rec_makedirs rec_print
    (rec_load (py "fromJson")) (rec_load (py "fromTlst"))
    (rec_store (py "toTlst")) (rec_store (py "toJson"))
    {| input := [py "song.json"]; extract := true; output := None |} []
  = (Ret tt, [[py "print"; py "song.json"];
              [py "fromJson"; py "song.json"];
              [py "toTlst"; py "song.json"; py "song.tlst"]]).
Proof.
  rewrite (main_extract_ignored_for_files rec_isdir rec_walk rec_makedirs rec_print
             (rec_load (py "fromJson")) (rec_load (py "fromTlst"))
             (rec_store (py "toTlst")) (rec_store (py "toJson"))
             {| input := [py "song.json"]; extract := true; output := None |} []).
  - reflexivity.
  - intros p Hp. injection Hp as <-. discriminate.
Defined.

Lemma processFile_json {S obj : Type} (isdir : pystr -> M S bool)
    (fromJson fromTlst' : pystr -> M S obj) (toTlst' toJson : obj -> pystr -> M S unit)
    inputPath outPath s :
  endswith inputPath (py ".json") = true ->
  (processFile isdir fromJson fromTlst' toTlst' toJson inputPath outPath >> ret tt) s
  = processJson isdir fromJson toTlst' inputPath outPath s.
Proof.
  intros H. unfold processFile. rewrite H.
  rewrite bind_assoc. apply bind_ret_tt.
Qed.

Lemma processFile_tlst {S obj : Type} (isdir : pystr -> M S bool)
    (fromJson fromTlst' : pystr -> M S obj) (toTlst' toJson : obj -> pystr -> M S unit)
    inputPath outPath s :
  endswith inputPath (py ".tlst") = true ->
  (processFile isdir fromJson fromTlst' toTlst' toJson inputPath outPath >> ret tt) s
  = processTlst isdir fromTlst' toJson inputPath outPath s.
Proof.
  intros H. unfold processFile.
  rewrite (endswith_other inputPath (py ".tlst") (py ".json") eq_refl
             ltac:(discriminate) H), H.
  rewrite bind_assoc. apply bind_ret_tt.
Qed.

(** X18: Given one directory, [main] gathers its ".tlst" files with [-x] and its
    ".json" files without, makes the output directory when one is named,
    and then prints and converts every gathered file with the processor
    of that direction; none is passed over as unsupported. *)
Theorem main_directory_mode {S obj : Type} (isdir : pystr -> M S bool)
    (walk : pystr -> M S (list (pystr * list pystr * list pystr)))
    (makedirs print : pystr -> M S unit)
    (fromJson fromTlst' : pystr -> M S obj) (toTlst' toJson : obj -> pystr -> M S unit)
    (a : args) (p : pystr) (s s1 : S) :
  input a = [p] ->
  isdir p s = (Ret true, s1) ->
  main isdir walk makedirs print fromJson fromTlst' toTlst' toJson a s
  = (paths <- gatherFiles walk p (if extract a then py ".tlst" else py ".json") ;;
     match output a with
     | Some o => makedirs o
     | None => ret tt
     end >>
     for_each paths
       (fun inputPath =>
          print inputPath >>
          if extract a
          then processTlst isdir fromTlst' toJson inputPath (output a)
          else processJson isdir fromJson toTlst' inputPath (output a))) s1.
Proof.
  intros Hin Hdir. unfold main. rewrite Hin.
  rewrite bind_assoc, (bind_Ret _ _ _ _ _ Hdir). cbv iota.
  rewrite bind_assoc. apply bind_ext. intros paths s2 Hg.
  rewrite bind_ret_l. cbv beta iota zeta.
  pose proof (gatherFiles_endswith _ _ _ _ _ _ Hg) as Hext.
  apply bind_ext. intros _ s3 _.
  apply for_each_ext. intros x Hx s4.
  apply bind_ext. intros _ s5 _. specialize (Hext x Hx).
  destruct (extract a).
  - now apply processFile_tlst.
  - now apply processFile_json.
Qed.

(** The directory "out" with [-x] and no output path: "out/a.tlst" is
    extracted to "out/a.json", the other two files are left alone. *)
Lemma main_directory_mode_witness :
  main rec_isdir rec_walk rec_makedirs rec_print
    (rec_load (py "fromJson")) (rec_load (py "fromTlst"))
    (rec_store (py "toTlst")) (rec_store (py "toJson"))
    {| input := [py "out"]; extract := true; output := None |} []
  = (Ret tt, [[py "print"; py "out/a.tlst"];
              [py "fromTlst"; py "out/a.tlst"];
              [py "toJson"; py "out/a.tlst"; py "out/a.json"]]).
Proof.
  rewrite (main_directory_mode rec_isdir rec_walk rec_makedirs rec_print
             (rec_load (py "fromJson")) (rec_load (py "fromTlst"))
             (rec_store (py "toTlst")) (rec_store (py "toJson"))
             {| input := [py "out"]; extract := true; output := None |}
             (py "out") [] [] eq_refl eq_refl).
  reflexivity.
Defined.

(** ** Which entries the end-of-file test loses *)

Lemma firstn_S_nth {A} (l : list A) :
  forall k e, nth_error l k = Some e -> firstn (S k) l = firstn k l ++ [e].
Proof.
  induction l as [|a l IH]; intros [|k] e H; try discriminate H.
  - cbn in H. injection H as <-. now destruct l.
  - cbn [nth_error] in H. cbn [firstn app]. f_equal.
    change (firstn (S k) l = firstn k l ++ [e]). now apply IH.
Qed.

(** X19: Decoding the encoder's output returns the entries up to and
    including the first one whose read leaves the cursor at the end of the
    file, and no more: the entries behind it are lost. *)
Theorem fromTlst_toTlst_stops_at (t : TLST) (buf : list byte) (fuel k : nat)
    (e : TLSTEntry) :
  toTlst_bytes t = Ret buf ->
  (forall e', In e' (tracks t) -> nul_free e') ->
  (length buf < fuel)%nat ->
  nth_error (tracks t) k = Some e ->
  cursor_after t k e = length buf ->
  (forall x e', (x < k)%nat -> nth_error (tracks t) x = Some e' ->
     cursor_after t x e' <> length buf) ->
  fromTlst fuel buf = Ret {| tracks := firstn (S k) (tracks t) |}.
Proof.
  intros Henc Hnul Hfuel Hk Hend Hbefore.
  pose proof (toTlst_bytes_Ret_layout t buf Henc) as Hlay.
  pose proof (header_of_layout t buf Hlay) as Hh.
  unfold fromTlst, fromTlst_body. unfold header_of in Hh.
  assert (Hd : keeps_data read_header) by (unfold read_header; readonly).
  specialize (Hd {| data := buf; pos := 0 |}).
  destruct (read_header {| data := buf; pos := 0 |}) as [[h|?|] f'] eqn:E;
    cbn in Hh; try discriminate.
  injection Hh as ->. cbn in Hd.
  rewrite (bind_Ret _ _ _ _ _ E). cbv beta iota. rewrite Nat2Z.id.
  assert (Hlt : (k < length (tracks t))%nat).
  { apply nth_error_Some. congruence. }
  pose proof (entries_loop_early_stop fuel (Z.of_nat (12 + 16 * length (tracks t)))
                buf e (firstn k (tracks t)) (length (tracks t)) 0 [] f' Hd) as HL.
  rewrite length_firstn in HL. rewrite (Nat.min_l k) in HL by lia.
  cbn [Nat.add app] in HL.
  unfold bind.
  destruct (entries_loop fuel _ (length (tracks t)) 0 [] f') as [[r|?|] f''];
    cbn [fst] in HL.
  - unfold ret. cbn [fst].
    assert (Hr : Ret r = Ret (firstn k (tracks t) ++ [e])).
    { apply HL; [exact Hlt| |].
      - intros i e_i Hi. rewrite nth_error_firstn in Hi.
        destruct (i <? k)%nat eqn:Ei; [|discriminate Hi]. apply Nat.ltb_lt in Ei.
        exists (cursor_after t i e_i).
        split; [exact (entry_at_layout t buf fuel Hlay Hnul Hfuel i e_i Hi)|].
        exact (Hbefore i e_i Ei Hi).
      - rewrite <- Hend. exact (entry_at_layout t buf fuel Hlay Hnul Hfuel k e Hk). }
    injection Hr as ->. now rewrite (firstn_S_nth _ _ _ Hk).
  - exfalso. assert (Hr : @Raise (list TLSTEntry) e0 = Ret (firstn k (tracks t) ++ [e])).
    { apply HL; [exact Hlt| |].
      - intros i e_i Hi. rewrite nth_error_firstn in Hi.
        destruct (i <? k)%nat eqn:Ei; [|discriminate Hi]. apply Nat.ltb_lt in Ei.
        exists (cursor_after t i e_i).
        split; [exact (entry_at_layout t buf fuel Hlay Hnul Hfuel i e_i Hi)|].
        exact (Hbefore i e_i Ei Hi).
      - rewrite <- Hend. exact (entry_at_layout t buf fuel Hlay Hnul Hfuel k e Hk). }
    discriminate Hr.
  - exfalso. assert (Hr : @OutOfFuel (list TLSTEntry) = Ret (firstn k (tracks t) ++ [e])).
    { apply HL; [exact Hlt| |].
      - intros i e_i Hi. rewrite nth_error_firstn in Hi.
        destruct (i <? k)%nat eqn:Ei; [|discriminate Hi]. apply Nat.ltb_lt in Ei.
        exists (cursor_after t i e_i).
        split; [exact (entry_at_layout t buf fuel Hlay Hnul Hfuel i e_i Hi)|].
        exact (Hbefore i e_i Ei Hi).
      - rewrite <- Hend. exact (entry_at_layout t buf fuel Hlay Hnul Hfuel k e Hk). }
    discriminate Hr.
Qed.

(** Of the two entries, the first has the last string of the file: the
    decoder returns it alone. *)
Lemma fromTlst_toTlst_stops_at_witness :
  fromTlst 50 two_tracks_buf = Ret {| tracks := firstn 1 (tracks two_tracks) |}.
Proof.
  assert (E : toTlst_bytes two_tracks = Ret two_tracks_buf)
    by (vm_compute; reflexivity).
  apply (fromTlst_toTlst_stops_at two_tracks two_tracks_buf 50 0 named_entry E).
  - intros e' [<-|[<-|[]]]; split; cbn; intuition discriminate.
  - vm_compute. lia.
  - reflexivity.
  - vm_compute. reflexivity.
  - intros x e' Hx. lia.
Defined.

Lemma string_size_zero s : utf8_encode s <> None -> (string_size s = 0%nat <-> s = []).
Proof.
  intros H. unfold string_size. destruct s as [|c s]; [tauto|].
  destruct (utf8_encode (c :: s)); [|contradiction].
  split; [lia | discriminate].
Qed.

Lemma entry_size_zero e : strings_encodable e -> (entry_size e = 0%nat <-> stringless e).
Proof.
  intros [Hf Ht]. unfold entry_size, stringless.
  rewrite <- (string_size_zero _ Hf), <- (string_size_zero _ Ht). lia.
Qed.

Lemma list_sum_zero l : list_sum l = 0%nat <-> forall n, In n l -> n = 0%nat.
Proof.
  induction l as [|a l IH]; [cbn; tauto|].
  rewrite list_sum_cons. split.
  - intros H n [<-|Hin]; [lia|]. apply IH; [lia | exact Hin].
  - intros H. rewrite (H a (or_introl eq_refl)).
    rewrite (proj2 IH); [reflexivity|]. intros n Hn. apply H. now right.
Qed.

Lemma sizes_zero es :
  (forall e, In e es -> strings_encodable e) ->
  (list_sum (map entry_size es) = 0%nat <-> forall e, In e es -> stringless e).
Proof.
  intros Henc. rewrite list_sum_zero. split.
  - intros H e He. apply (entry_size_zero e (Henc e He)). apply H. now apply in_map.
  - intros H n Hn. apply in_map_iff in Hn. destruct Hn as (e & <- & He).
    apply (entry_size_zero e (Henc e He)). now apply H.
Qed.

Lemma layout_length t buf :
  layout t = Some buf ->
  length buf = (12 + 16 * length (tracks t) + list_sum (map entry_size (tracks t)))%nat /\
  forall e, In e (tracks t) -> strings_encodable e.
Proof.
  intros H.
  destruct (layout_inv t buf H) as (recs & region & El & -> & _ & _ & _ & Hrecs).
  destruct (lay_entries_spec _ _ _ _ El) as [Hreg _]. cbn [length] in Hreg.
  split; [|exact (lay_entries_encodable _ _ _ _ El)].
  cbn [magic be32 be16 app length]. rewrite length_app, Hrecs, Hreg. lia.
Qed.

Lemma nth_error_split_sum {A} (f : A -> nat) (l : list A) :
  forall x e, nth_error l x = Some e ->
    l = firstn x l ++ e :: skipn (S x) l /\
    list_sum (map f l)
    = (list_sum (map f (firstn x l)) + f e + list_sum (map f (skipn (S x) l)))%nat.
Proof.
  induction l as [|a l IH]; intros [|x] e H; try discriminate H.
  - cbn in H. injection H as <-. split; [reflexivity|].
    cbn [firstn skipn map]. rewrite list_sum_cons.
    change (list_sum []) with 0%nat. lia.
  - cbn [nth_error] in H. destruct (IH x e H) as [Hl Hs]. split.
    + cbn [firstn skipn app]. f_equal. exact Hl.
    + cbn [firstn map]. change (skipn (S (S x)) (a :: l)) with (skipn (S x) l).
      rewrite !list_sum_cons. lia.
Qed.

(** When the strings of an entry are the last thing in the file. *)
Lemma cursor_after_end_iff (t : TLST) (buf : list byte) (x : nat) (e : TLSTEntry) :
  toTlst_bytes t = Ret buf ->
  nth_error (tracks t) x = Some e ->
  (cursor_after t x e = length buf <->
   (forall e', In e' (skipn (S x) (tracks t)) -> stringless e') /\
   match filename e, title e with
   | _ :: _, _ :: _ => False
   | [], [] => S x = length (tracks t) /\ forall e', In e' (tracks t) -> stringless e'
   | _, _ => True
   end).
Proof.
  intros Henc Hx. apply toTlst_bytes_Ret_layout in Henc.
  destruct (layout_length t buf Henc) as [Hlen Hencodable].
  destruct (nth_error_split_sum entry_size (tracks t) x e Hx) as [Hsplit Hsum].
  assert (Hlt : (x < length (tracks t))%nat) by (apply nth_error_Some; congruence).
  assert (Hafter : forall e', In e' (skipn (S x) (tracks t)) -> strings_encodable e').
  { intros e' He'. apply Hencodable. rewrite Hsplit.
    apply in_or_app. right. now right. }
  pose proof (sizes_zero _ Hafter) as Hzero.
  pose proof (sizes_zero _ Hencodable) as Hzero_all.
  destruct (Hencodable e (nth_error_In _ _ Hx)) as [Hef Het].
  pose proof (string_size_zero _ Hef) as Hzf.
  pose proof (string_size_zero _ Het) as Hzt.
  pose proof (eq_refl : entry_size e = (string_size (filename e) + string_size (title e))%nat)
    as Hsize.
  unfold cursor_after, title_offset, filename_offset. rewrite Hx.
  set (before := list_sum (map entry_size (firstn x (tracks t)))) in *.
  set (after := list_sum (map entry_size (skipn (S x) (tracks t)))) in *.
  set (all := list_sum (map entry_size (tracks t))) in *.
  rewrite Hlen.
  destruct (filename e) as [|cf sf] eqn:Ef; destruct (title e) as [|ct st] eqn:Et.
  - change (string_size []) with 0%nat in *. rewrite <- Hzero, <- Hzero_all. lia.
  - assert (string_size (ct :: st) <> 0%nat) by (rewrite Hzt; discriminate).
    change (string_size []) with 0%nat in *. rewrite <- Hzero. lia.
  - assert (string_size (cf :: sf) <> 0%nat) by (rewrite Hzf; discriminate).
    change (string_size []) with 0%nat in *. rewrite <- Hzero. lia.
  - assert (string_size (cf :: sf) <> 0%nat) by (rewrite Hzf; discriminate).
    assert (string_size (ct :: st) <> 0%nat) by (rewrite Hzt; discriminate).
    rewrite <- Hzero. lia.
Qed.

(** X20: When the read of an entry of the encoder's output, its strings free
    of U+0000, leaves the decoder's cursor at the end of the file, so that
    the decoder stops there: exactly when no entry behind it has a string
    and the entry itself has a filename but no title, or a title but no
    filename; or, having neither, is the last entry of a list without any
    string. *)
Theorem cursor_at_end_iff (t : TLST) (buf : list byte) (fuel x : nat)
    (e : TLSTEntry) :
  toTlst_bytes t = Ret buf ->
  (length buf < fuel)%nat ->
  nth_error (tracks t) x = Some e ->
  nul_free e ->
  (entry_at fuel (Z.of_nat (0xC + 0x10 * length (tracks t))) x buf
   = Ret (e, length buf) <->
   (forall e', In e' (skipn (S x) (tracks t)) -> stringless e') /\
   match filename e, title e with
   | _ :: _, _ :: _ => False
   | [], [] => S x = length (tracks t) /\ forall e', In e' (tracks t) -> stringless e'
   | _, _ => True
   end).
Proof.
  intros Henc Hfuel Hx Hnul.
  destruct (entry_at_layout_cut t buf fuel x e (toTlst_bytes_Ret_layout t buf Henc)
              Hfuel Hx) as (p & Hp & Hc).
  rewrite (cut_strings_nul_free e Hnul) in Hp. rewrite (Hc Hnul) in Hp.
  change (Z.of_nat (0xC + 0x10 * length (tracks t)))
    with (Z.of_nat (12 + 16 * length (tracks t))).
  rewrite Hp, <- (cursor_after_end_iff t buf x e Henc Hx).
  split.
  - intros H. now injection H.
  - intros ->. reflexivity.
Qed.

(** The first of the two entries has a filename and no title, and the
    second has no string: the decoder's cursor after the first is at the
    end of the 46 bytes. *)
Lemma cursor_at_end_iff_witness :
  entry_at 50 (Z.of_nat (0xC + 0x10 * length (tracks two_tracks))) 0 two_tracks_buf
  = Ret (named_entry, length two_tracks_buf) <->
  (forall e', In e' (skipn 1 (tracks two_tracks)) -> stringless e') /\
  match filename named_entry, title named_entry with
  | _ :: _, _ :: _ => False
  | [], [] => 1%nat = length (tracks two_tracks)
              /\ forall e', In e' (tracks two_tracks) -> stringless e'
  | _, _ => True
  end.
Proof.
  apply (cursor_at_end_iff two_tracks two_tracks_buf 50 0 named_entry).
  - vm_compute. reflexivity.
  - vm_compute. lia.
  - reflexivity.
  - split; cbn; intuition discriminate.
Defined.

(** ** When the encoder raises *)

Lemma toTlst_bytes_Ret_iff (t : TLST) :
  (exists buf, toTlst_bytes t = Ret buf) <->
  (forallb fields_ok (tracks t) = true /\
   (forall e, In e (tracks t) -> strings_encodable e) /\
   Z.of_nat (0xC + 0x10 * length (tracks t)
             + list_sum (map entry_size (tracks t))) <= 0xFFFF).
Proof.
  split.
  - intros [buf H]. apply toTlst_bytes_Ret_layout in H.
    destruct (layout_inv t buf H) as (recs & region & El & _ & _ & Hok & Htot & _).
    destruct (lay_entries_spec _ _ _ _ El) as [Hreg _]. cbn [length] in Hreg.
    apply in_range_spec in Htot.
    split; [exact Hok|]. split; [exact (lay_entries_encodable _ _ _ _ El)|].
    rewrite Hreg in Htot. lia.
  - intros (Hok & Henc & Htot).
    destruct (lay_entries_exists (tracks t) [] Henc ltac:(cbn [length]; lia))
      as (recs & region & El).
    destruct (lay_entries_spec _ _ _ _ El) as [Hreg _]. cbn [length] in Hreg.
    pose proof (toTlst_bytes_layout t) as HL. unfold layout in HL.
    rewrite Hok, El in HL.
    replace (struct.in_range 0 0xFFFFFFFF (Z.of_nat (length (tracks t)))) with true in HL
      by (symmetry; apply in_range_spec; lia).
    replace (struct.in_range 0 0xFFFF
               (Z.of_nat (12 + 16 * length (tracks t) + length region))) with true in HL
      by (symmetry; apply in_range_spec; rewrite Hreg; lia).
    cbn [andb] in HL. eexists. exact HL.
Qed.

(** C5, as the code has it.  The encoder returns exactly when every numeric
    field is in the range of its format, every string can be encoded as
    UTF-8 and the whole file is at most 0xFFFF bytes long; otherwise it
    raises struct.error or UnicodeEncodeError (there is no EncodeError).
    So it raises when the count exceeds 0xFFFFFFFF and when a string would
    get an offset above 0xFFFE, but not in those cases alone.  When it
    returns, the slot of every non-empty string holds the offset of that
    string in the string region, which is at most 0xFFFE and so never
    the sentinel 0xFFFF. *)
Theorem toTlst_offsets (t : TLST) :
  match toTlst_bytes t with
  | Ret buf =>
      (forallb fields_ok (tracks t) = true /\
       (forall e, In e (tracks t) -> strings_encodable e) /\
       Z.of_nat (0xC + 0x10 * length (tracks t)
                 + list_sum (map entry_size (tracks t))) <= 0xFFFF) /\
      forall x e,
        nth_error (tracks t) x = Some e ->
        (filename e <> [] ->
         stored_H buf (x * 0x10 + 0xC + 0x8) = Ret (filename_offset t x)
         /\ filename_offset t x <= 0xFFFE) /\
        (title e <> [] ->
         stored_H buf (x * 0x10 + 0xC + 0xA) = Ret (title_offset t x)
         /\ title_offset t x <= 0xFFFE)
  | Raise err =>
      (err = StructError \/ err = UnicodeEncodeError) /\
      (0xFFFFFFFF < Z.of_nat (length (tracks t)) -> err = StructError) /\
      ~ (forallb fields_ok (tracks t) = true /\
         (forall e, In e (tracks t) -> strings_encodable e) /\
         Z.of_nat (0xC + 0x10 * length (tracks t)
                   + list_sum (map entry_size (tracks t))) <= 0xFFFF)
  | OutOfFuel => False
  end /\
  (0xFFFFFFFF < Z.of_nat (length (tracks t)) ->
   exists err, toTlst_bytes t = Raise err) /\
  (forall x e,
     nth_error (tracks t) x = Some e ->
     (filename e <> [] /\ 0xFFFE < filename_offset t x) \/
     (title e <> [] /\ 0xFFFE < title_offset t x) \/
     0xFFFE < filename_offset t x + Z.of_nat (entry_size e) ->
     exists err, toTlst_bytes t = Raise err).
Proof.
  destruct (toTlst_offsets_or_raises t) as (Hcases & Hcount & Hoff).
  pose proof (toTlst_bytes_Ret_iff t) as Hiff.
  split; [|split; [exact Hcount | exact Hoff]].
  destruct (toTlst_bytes t) as [buf|err|] eqn:E.
  - split; [|exact Hcases]. apply Hiff. now exists buf.
  - destruct Hcases as [Herr Hn]. split; [exact Herr|]. split; [exact Hn|].
    intros Hok. apply Hiff in Hok. destruct Hok as [buf Hbuf]. discriminate Hbuf.
  - exact Hcases.
Qed.

(** The one-entry scenario: it meets the three conditions, and its two
    slots hold 0 and 13. *)
Lemma toTlst_offsets_witness :
  (forallb fields_ok [song_a] = true /\
   (forall e, In e [song_a] -> strings_encodable e) /\
   Z.of_nat (0xC + 0x10 * length [song_a]
             + list_sum (map entry_size [song_a])) <= 0xFFFF) /\
  stored_H song_a_buf (0 * 0x10 + 0xC + 0x8) = Ret 0 /\
  stored_H song_a_buf (0 * 0x10 + 0xC + 0xA) = Ret 13.
Proof.
  pose proof (toTlst_offsets {| tracks := [song_a] |}) as [H _].
  assert (E : toTlst_bytes {| tracks := [song_a] |} = Ret song_a_buf)
    by (vm_compute; reflexivity).
  rewrite E in H. destruct H as [Hok H]. split; [exact Hok|].
  destruct (H 0%nat song_a eq_refl) as [Hf Ht].
  destruct (Hf ltac:(discriminate)) as [Hfo _].
  destruct (Ht ltac:(discriminate)) as [Hto _].
  split.
  - rewrite Hfo. vm_compute. reflexivity.
  - rewrite Hto. vm_compute. reflexivity.
Defined.

(** C5, counterexample: a single entry whose filename has 65509
    characters.  The count is 1, the offset of the filename is 0 and the
    string region ends at 65510, below 0xFFFE, so no offset is pushed past
    0xFFFE; yet the encoder raises struct.error, the file being 65538
    bytes long and its size not fitting the 16-bit size field. *)
Lemma toTlst_long_filename_raises :
  length (tracks {| tracks := [long_name] |}) = 1%nat /\
  filename_offset {| tracks := [long_name] |} 0 = 0 /\
  filename_offset {| tracks := [long_name] |} 0 + Z.of_nat (entry_size long_name)
  <= 0xFFFE /\
  toTlst_bytes {| tracks := [long_name] |} = Raise StructError.
Proof.
  split; [reflexivity|]. split; [reflexivity|].
  split; vm_compute; [discriminate | reflexivity].
Qed.

(** ** A count that exceeds the entries present *)

Lemma ensures_unpack_struct_I {S} bs :
  @ensures S _ (struct.unpack_I bs) (fun _ => True) (fun e => e = StructError).
Proof.
  intros s _. unfold struct.unpack_I.
  destruct bs as [|b0 [|b1 [|b2 [|b3 [|]]]]]; cbn; trivial.
Qed.

Lemma ensures_unpack_struct_H {S} bs :
  @ensures S _ (struct.unpack_H bs) (fun _ => True) (fun e => e = StructError).
Proof.
  intros s _. unfold struct.unpack_H.
  destruct bs as [|b0 [|b1 [|]]]; cbn; trivial.
Qed.

Lemma ensures_unpack_struct_b {S} bs :
  @ensures S _ (struct.unpack_b bs) (fun _ => True) (fun e => e = StructError).
Proof.
  intros s _. unfold struct.unpack_b.
  destruct bs as [|b0 [|]]; cbn; trivial.
Qed.

Lemma ensures_unpack_struct_bool {S} bs :
  @ensures S _ (struct.unpack_bool bs) (fun _ => True) (fun e => e = StructError).
Proof.
  intros s _. unfold struct.unpack_bool.
  destruct bs as [|b0 [|]]; cbn; trivial.
Qed.

Lemma ensures_field_struct {A} n (unpack : list byte -> M file A) :
  (forall bs, ensures (unpack bs) (fun _ => True) (fun e => e = StructError)) ->
  ensures (f_read n >>= unpack) (fun _ => True) (fun e => e = StructError).
Proof.
  intros H. apply (ensures_bind _ _ (fun _ => True)); [|intros bs _; apply H].
  intros s _. exact I.
Qed.

(** The fixed record raises nothing but struct.error. *)
Lemma ensures_read_fixed_struct x :
  ensures (read_fixed x) (fun _ => True) (fun e => e = StructError).
Proof.
  unfold read_fixed.
  apply (ensures_bind _ _ (fun _ => True)); [apply ensures_seek|]. intros _ _.
  eapply ensures_bind; [apply ensures_field_struct, ensures_unpack_struct_I|]. intros v1 _.
  eapply ensures_bind; [apply ensures_field_struct, ensures_unpack_struct_H|]. intros v2 _.
  eapply ensures_bind; [apply ensures_field_struct, ensures_unpack_struct_b|]. intros v3 _.
  eapply ensures_bind; [apply ensures_field_struct, ensures_unpack_struct_b|]. intros v4 _.
  eapply ensures_bind; [apply ensures_field_struct, ensures_unpack_struct_H|]. intros fo _.
  eapply ensures_bind; [apply ensures_field_struct, ensures_unpack_struct_H|]. intros to _.
  eapply ensures_bind; [apply ensures_field_struct, ensures_unpack_struct_H|]. intros v5 _.
  eapply ensures_bind; [apply ensures_field_struct, ensures_unpack_struct_bool|]. intros v6 _.
  eapply ensures_bind; [apply ensures_field_struct, ensures_unpack_struct_bool|]. intros v7 _.
  now apply ensures_ret.
Qed.

(** A field that unpacks lies within the buffer. *)
Lemma field_within {A} n (unpack : list byte -> M file A) (f f' : file) v :
  (forall bs s v' s', unpack bs s = (Ret v', s') -> length bs = n /\ s' = s) ->
  (0 < n)%nat ->
  (f_read n >>= unpack) f = (Ret v, f') ->
  (pos f + n <= length (data f))%nat.
Proof.
  intros Hu Hn H. apply bind_Ret_inv in H. destruct H as (bs & f1 & Hr & H).
  apply Hu in H. destruct H as [Hlen _].
  unfold f_read in Hr. injection Hr as <- _.
  rewrite length_firstn, length_skipn in Hlen. lia.
Qed.

(** A record that reads well lies within the buffer. *)
Lemma read_fixed_within x (f f' : file) r :
  read_fixed x f = (Ret r, f') ->
  (x * 0x10 + 0xC + 0x10 <= length (data f))%nat.
Proof.
  unfold read_fixed. intros H.
  apply bind_Ret_inv in H. destruct H as (p0 & f0 & H0 & H).
  injection H0 as _ <-.
  apply bind_Ret_inv in H. destruct H as (v1 & f1 & H1 & H).
  apply (field_pos 4) in H1; [|intros; eapply unpack_I_full; eassumption].
  apply bind_Ret_inv in H. destruct H as (v2 & f2 & H2 & H).
  apply (field_pos 2) in H2; [|intros; eapply unpack_H_full; eassumption].
  apply bind_Ret_inv in H. destruct H as (v3 & f3 & H3 & H).
  apply (field_pos 1) in H3; [|intros; eapply unpack_b_full; eassumption].
  apply bind_Ret_inv in H. destruct H as (v4 & f4 & H4 & H).
  apply (field_pos 1) in H4; [|intros; eapply unpack_b_full; eassumption].
  apply bind_Ret_inv in H. destruct H as (v5 & f5 & H5 & H).
  apply (field_pos 2) in H5; [|intros; eapply unpack_H_full; eassumption].
  apply bind_Ret_inv in H. destruct H as (v6 & f6 & H6 & H).
  apply (field_pos 2) in H6; [|intros; eapply unpack_H_full; eassumption].
  apply bind_Ret_inv in H. destruct H as (v7 & f7 & H7 & H).
  apply (field_pos 2) in H7; [|intros; eapply unpack_H_full; eassumption].
  apply bind_Ret_inv in H. destruct H as (v8 & f8 & H8 & H).
  apply (field_pos 1) in H8; [|intros; eapply unpack_bool_full; eassumption].
  apply bind_Ret_inv in H. destruct H as (v9 & f9 & H9 & H).
  apply (field_within 1) in H9;
    [|intros; eapply unpack_bool_full; eassumption | lia].
  cbn [pos data] in *.
  destruct H1 as [P1 D1], H2 as [P2 D2], H3 as [P3 D3], H4 as [P4 D4],
           H5 as [P5 D5], H6 as [P6 D6], H7 as [P7 D7], H8 as [P8 D8].
  rewrite D8, D7, D6, D5, D4, D3, D2, D1 in H9. lia.
Qed.

(** Where fewer than sixteen bytes are left for a record, reading it raises
    struct.error. *)
Lemma read_entry_short fuel so x (f : file) :
  (length (data f) < x * 0x10 + 0xC + 0x10)%nat ->
  fst (read_entry fuel so x f) = Raise StructError.
Proof.
  intros Hshort. unfold read_entry, bind.
  pose proof (ensures_read_fixed_struct x f I) as He.
  pose proof (never_diverges_read_fixed x f) as Hd.
  destruct (read_fixed x f) as [[r|e|] f'] eqn:E; cbn [fst] in *.
  - apply read_fixed_within in E. lia.
  - now subst e.
  - now elim Hd.
Qed.

Lemma entries_loop_short fuel so buf :
  forall rest n x acc (f : file),
    data f = buf ->
    (length rest < n)%nat ->
    (forall i e_i, nth_error rest i = Some e_i ->
       exists p, entry_at fuel so (x + i) buf = Ret (e_i, p) /\ p <> length buf) ->
    (length buf < (x + length rest) * 0x10 + 0xC + 0x10)%nat ->
    fst (entries_loop fuel so n x acc f) = Raise StructError.
Proof.
  induction rest as [|e0 rest IH]; intros n x acc f Hf Hn Hrest Hshort.
  - destruct n as [|n]; [cbn in Hn; lia|].
    cbn [length] in Hshort. rewrite Nat.add_0_r in Hshort. subst buf.
    cbn [entries_loop]. unfold bind at 1.
    pose proof (read_entry_short fuel so x f Hshort) as Hr.
    destruct (read_entry fuel so x f) as [[e|e|] f']; cbn [fst] in Hr;
      try discriminate Hr.
    injection Hr as ->. reflexivity.
  - destruct n as [|n]; [cbn in Hn; lia|]. subst buf.
    destruct (Hrest 0%nat e0 eq_refl) as (p & Hp & Hne).
    rewrite Nat.add_0_r in Hp.
    rewrite (entries_loop_step _ _ _ _ _ _ _ _ Hp).
    apply Nat.eqb_neq in Hne. rewrite Hne.
    apply IH; cbn [data].
    + reflexivity.
    + cbn [length] in Hn. lia.
    + intros i e_i Hi. destruct (Hrest (S i) e_i Hi) as (q & Hq & Hqne).
      exists q. split; [|exact Hqne]. now rewrite Nat.add_succ_comm.
    + cbn [length] in Hshort. lia.
Qed.

(** C6, as the code has it.  When the cursor after reading some entry is at
    the end of the buffer, decoding stops there and returns the entries
    read so far, however many more the header declares; and this is the
    only way in which fewer entries than declared are returned.  When the
    cursor is elsewhere the loop goes on to the next record, and raises
    struct.error if fewer than sixteen bytes are left for it. *)
Theorem fromTlst_early_stop (fuel : nat) (buf : list byte) (n so : Z) :
  header_of buf = Ret (n, so) ->
  (forall es,
     (length es < Z.to_nat n)%nat ->
     (forall i e_i, nth_error es i = Some e_i ->
        exists p, entry_at fuel so i buf = Ret (e_i, p) /\ p <> length buf) ->
     (forall e, entry_at fuel so (length es) buf = Ret (e, length buf) ->
        fromTlst fuel buf = Ret {| tracks := es ++ [e] |}) /\
     ((length buf < length es * 0x10 + 0xC + 0x10)%nat ->
      fromTlst fuel buf = Raise StructError)) /\
  (forall t,
     fromTlst fuel buf = Ret t ->
     (length (tracks t) < Z.to_nat n)%nat ->
     exists es e,
       tracks t = es ++ [e] /\
       entry_at fuel so (length es) buf = Ret (e, length buf)).
Proof.
  intros Hh. split.
  - intros es Hn Hes. split.
    + intros e He. exact (fromTlst_stops_at_end fuel buf n so es e Hh Hn Hes He).
    + intros Hshort. unfold fromTlst, fromTlst_body. unfold header_of in Hh.
      assert (Hd : keeps_data read_header) by (unfold read_header; readonly).
      specialize (Hd {| data := buf; pos := 0 |}).
      destruct (read_header {| data := buf; pos := 0 |}) as [[h|?|] f'] eqn:E;
        cbn in Hh; try discriminate.
      injection Hh as ->. cbn in Hd.
      rewrite (bind_Ret _ _ _ _ _ E). cbv beta iota.
      pose proof (entries_loop_short fuel so buf es (Z.to_nat n) 0 [] f'
                    Hd Hn Hes Hshort) as HL.
      unfold bind.
      destruct (entries_loop fuel so (Z.to_nat n) 0 [] f') as [[r|?|] f''];
        cbn in HL; try discriminate.
      now injection HL as ->.
  - intros t Ht Hlt. unfold fromTlst, fromTlst_body in Ht.
    destruct (bind _ _ _) as [o f'] eqn:E in Ht. cbn in Ht. subst o.
    apply bind_Ret_inv in E. destruct E as ([n' so'] & f1 & Hh' & E).
    unfold header_of in Hh. rewrite Hh' in Hh. cbn [fst] in Hh.
    injection Hh as -> ->.
    assert (Hd : data f1 = buf).
    { apply (keeps_data_at read_header {| data := buf; pos := 0 |} (n, so)); [|exact Hh'].
      unfold read_header. readonly. }
    apply bind_Ret_inv in E. destruct E as (res & f2 & Hes & E).
    injection E as <- _. cbn [tracks] in *.
    apply entries_loop_inv in Hes. rewrite Hd in Hes.
    destruct Hes as (new & -> & Hlen & Hne & Hnth). cbn [app] in *.
    destruct (exists_last (Hne ltac:(lia))) as (es & e & ->).
    exists es, e. split; [reflexivity|].
    rewrite length_app in Hlt. cbn [length] in Hlt.
    destruct (Hnth (length es) e) as (p & Hp & _ & Hlast).
    { rewrite nth_error_app2 by lia. now rewrite Nat.sub_diag. }
    cbn [Nat.add] in Hp. rewrite Hp. do 2 f_equal.
    destruct Hlast as [Hlast|Hlast]; [rewrite length_app; cbn [length]; lia | exact Hlast |].
    lia.
Qed.

(** Five entries declared, one record present: decoding returns that one.
    One entry declared, no record present: struct.error. *)
Lemma fromTlst_early_stop_witness :
  fromTlst 0 one_of_five_buf = Ret {| tracks := [] ++ [TLSTEntry_init] |} /\
  fromTlst 0 header_only_buf = Raise StructError.
Proof.
  split.
  - apply (proj1 (fromTlst_early_stop 0 one_of_five_buf 5 28 eq_refl) []).
    + cbn. lia.
    + intros [|i] e_i H; discriminate H.
    + reflexivity.
  - apply (proj1 (fromTlst_early_stop 0 header_only_buf 1 12 eq_refl) []).
    + cbn. lia.
    + intros [|i] e_i H; discriminate H.
    + cbn. lia.
Defined.

(** C6, counterexample: three buffers whose count exceeds the complete
    entries present and in which the cursor is never at the end of the
    buffer after an entry.  A header that declares one entry with nothing
    behind it, and a header that declares two entries with one record and
    a stray byte behind it: decoding raises struct.error instead of
    returning the entries that are there.  A header that declares two
    entries with one record and its two strings behind it: the bytes of the
    filename are read as a second record, whose title offset points
    outside the buffer, and decoding gives no answer. *)
Lemma fromTlst_header_only_fails :
  (header_of header_only_buf = Ret (1, 12) /\
   length header_only_buf = 12%nat /\
   forall fuel, fromTlst fuel header_only_buf = Raise StructError) /\
  (header_of stray_byte_buf = Ret (2, 28) /\
   length stray_byte_buf = (12 + 16 + 1)%nat /\
   (forall fuel, entry_at fuel 28 0 stray_byte_buf = Ret (TLSTEntry_init, 28%nat)) /\
   forall fuel, fromTlst fuel stray_byte_buf = Raise StructError) /\
  (header_of strings_as_record_buf = Ret (2, 28) /\
   length strings_as_record_buf = 46%nat /\
   entry_at 17 28 0 strings_as_record_buf
   = Ret (set_filename (set_title TLSTEntry_init [98]) (repeat 97 15), 44%nat) /\
   forall fuel, fromTlst fuel strings_as_record_buf = OutOfFuel).
Proof.
  split; [repeat split|]. split; [repeat split|].
  split; [reflexivity|]. split; [reflexivity|]. split; [vm_compute; reflexivity|].
  intros fuel.
  do 17 (destruct fuel as [|fuel]; [vm_compute; reflexivity|]).
  unfold fromTlst, fromTlst_body.
  rewrite (bind_Ret read_header _ _ (2, 28) {| data := strings_as_record_buf; pos := 12 |})
    by reflexivity.
  cbv beta iota. change (Z.to_nat 2) with 2%nat.
  assert (E0 : entry_at (17 + fuel) 28 0 strings_as_record_buf
               = Ret (set_filename (set_title TLSTEntry_init [98]) (repeat 97 15), 44%nat)).
  { unfold entry_at, read_entry.
    rewrite (bind_Ret (read_fixed 0) _ _ (TLSTEntry_init, 0, 16)
               {| data := strings_as_record_buf; pos := 28 |}) by reflexivity.
    cbv beta iota. unfold read_strings.
    change (16 =? 0xFFFF) with false. change (0 =? 0xFFFF) with false. cbv iota.
    rewrite (bind_Ret _ _ _ _ _
               (read_string_at_run (17 + fuel) strings_as_record_buf 28 44
                  [x62] [] [98] (set_title TLSTEntry_init)
                  eq_refl ltac:(cbn; intros [H|[]]; discriminate H) eq_refl
                  ltac:(cbn; lia))).
    rewrite (bind_Ret _ _ _ _ _
               (read_string_at_run (17 + fuel) strings_as_record_buf _ 28
                  (repeat x61 15) [x62; x00] (repeat 97 15)
                  (set_filename (set_title TLSTEntry_init [98]))
                  eq_refl
                  ltac:(cbn; intuition discriminate) eq_refl
                  ltac:(cbn; lia))).
    reflexivity. }
  change (S (S (S (S (S (S (S (S (S (S (S (S (S (S (S (S (S fuel)))))))))))))))))
    with (17 + fuel)%nat.
  set (f12 := {| data := strings_as_record_buf; pos := 12 |}).
  pose proof (entries_loop_step (17 + fuel) 28 1 0 [] f12 _ _ E0) as Hstep.
  change (44 =? length (data f12))%nat with false in Hstep. cbv iota in Hstep.
  unfold bind at 1. rewrite Hstep. cbn [app data].
  cbn [entries_loop]. unfold read_entry. rewrite !bind_assoc.
  rewrite (bind_Ret (read_fixed 1) _ _
             ({| songId := 0x61616161; delay := 0x6161; volume := 0x61;
                 frequency := 0x61; switch := 0x6161;
                 disablePinch := true; disableTlstInclusion := false;
                 title := []; filename := [] |}, 0x6161, 0x6161)
             {| data := strings_as_record_buf; pos := 44 |}) by reflexivity.
  cbv beta iota.
  erewrite bind_OutOfFuel; [reflexivity|].
  apply read_strings_title_outside; [discriminate | cbn; lia].
Qed.

(** ** The round trip through JSON *)

Lemma utf8_encode_cp_not_high c : utf8_encode_cp c <> None -> is_high c = false.
Proof.
  unfold utf8_encode_cp, is_high, is_surrogate. intros H.
  destruct (0xD800 <=? c) eqn:E1; [|reflexivity].
  destruct (c <=? 0xDBFF) eqn:E2; [|reflexivity].
  apply Z.leb_le in E1. apply Z.leb_le in E2. exfalso. apply H.
  repeat decide_test. reflexivity.
Qed.

(** A string that UTF-8 can encode holds no surrogate: it is written to
    JSON as it is. *)
Lemma pair_surrogates_encodable s : utf8_encode s <> None -> pair_surrogates s = s.
Proof.
  induction s as [|c s IH]; intros H; [reflexivity|].
  cbn [utf8_encode] in H.
  destruct (utf8_encode_cp c) as [cb|] eqn:Ec; [|now elim H].
  destruct (utf8_encode s) as [r|] eqn:Es; [|now elim H].
  cbn [pair_surrogates]. destruct s as [|c' s']; [reflexivity|].
  rewrite (utf8_encode_cp_not_high c) by congruence. cbn [andb].
  f_equal. apply IH. discriminate.
Qed.

Lemma int_fits_32 z : -0xFFFFFFFF <= z <= 0xFFFFFFFF -> int_fits z = true.
Proof.
  intros H. unfold int_fits. apply Z.ltb_lt.
  assert (Hbig : 0xFFFFFFFF < 10 ^ max_str_digits) by (vm_compute; reflexivity).
  lia.
Qed.

Lemma json_safe_well_formed e :
  fields_ok e = true -> strings_encodable e -> json_safe e.
Proof.
  intros Hok [Hf Ht]. unfold fields_ok in Hok.
  do 4 (apply andb_true_iff in Hok; destruct Hok as [Hok ?]).
  repeat match goal with
         | H : struct.in_range _ _ _ = true |- _ => apply in_range_spec in H
         end.
  unfold json_safe.
  repeat split; try (apply int_fits_32; lia);
    now apply pair_surrogates_encodable.
Qed.

(** C7, as the json module has it.  The JSON document of a track list holds
    its entries in order, each with all nine members, and decodes back to
    the same track list, provided no number of the list has more than 4300
    digits and no string has a high surrogate directly followed by a low
    one.  That is so for every entry with numeric fields in the ranges of
    their formats and strings that UTF-8 can encode, hence for every track
    list the binary decoder returns. *)
Theorem json_roundtrip (t : TLST) (fuel : nat) :
  ((6 <= fuel)%nat ->
   (forall e, In e (tracks t) -> json_safe e) ->
   dumps fuel (tlst_to_py t)
   = Ret (JObj [(py "tracks", JArr (map entry_json (tracks t)))]) /\
   loads (JObj [(py "tracks", JArr (map entry_json (tracks t)))])
   = Ret (tlst_to_py t)) /\
  ((forall e, In e (tracks t) -> fields_ok e = true /\ strings_encodable e) ->
   forall e, In e (tracks t) -> json_safe e).
Proof.
  split.
  - intros Hfuel Hsafe. split.
    + do 6 (destruct fuel as [|fuel]; [lia|]).
      unfold tlst_to_py.
      rewrite dumps_default by (left; eexists; reflexivity).
      cbn [default obind].
      change (dumps (S (S (S (S (S fuel)))))
                (VDict [(py "tracks", VList (map entry_to_py (tracks t)))]))
        with (ms <~ (j <~ dumps (S (S (S (S fuel))))
                            (VList (map entry_to_py (tracks t))) ;;
                     js <~ Ret [] ;;
                     Ret ((pair_surrogates (py "tracks"), j) :: js)) ;;
              Ret (JObj ms)).
      rewrite dumps_VList.
      change (S (S (S fuel))) with (3 + fuel)%nat.
      now rewrite (dumps_items_entries fuel (tracks t) Hsafe).
    + change (loads (JObj [(py "tracks", JArr (map entry_json (tracks t)))]))
        with (ps <~ (o <~ loads (JArr (map entry_json (tracks t))) ;;
                     os <~ Ret [] ;; Ret ((py "tracks", o) :: os)) ;;
              dict_to_object (dict_of_pairs ps)).
      now rewrite loads_JArr, (loads_items_entries (tracks t) Hsafe).
  - intros H e He. destruct (H e He) as [Hok Henc].
    now apply json_safe_well_formed.
Qed.

(** Song A. *)
Lemma json_roundtrip_witness :
  dumps 6 (tlst_to_py {| tracks := [song_a] |})
  = Ret (JObj [(py "tracks", JArr (map entry_json [song_a]))]) /\
  loads (JObj [(py "tracks", JArr (map entry_json [song_a]))])
  = Ret (tlst_to_py {| tracks := [song_a] |}).
Proof.
  apply (proj1 (json_roundtrip {| tracks := [song_a] |} 6)).
  - lia.
  - apply (proj2 (json_roundtrip {| tracks := [song_a] |} 6)).
    intros e [<-|[]]. split; [reflexivity|]. split; vm_compute; discriminate.
Defined.

(** C7, counterexample: a title of two code points, a high surrogate
    followed by a low one, is written as two escapes, which the decoder
    reads as the one code point U+1F600: the track list that comes back is
    another one.  And a song id of 4301 digits is not written at all. *)
Lemma json_roundtrip_joins_surrogates :
  dumps 6 (tlst_to_py {| tracks := [surrogate_title] |})
  = Ret (JObj [(py "tracks", JArr [entry_json joined_title])]) /\
  loads (JObj [(py "tracks", JArr [entry_json joined_title])])
  = Ret (tlst_to_py {| tracks := [joined_title] |}) /\
  title joined_title <> title surrogate_title /\
  dumps 6 (tlst_to_py {| tracks := [long_id] |}) = Raise ValueError.
Proof.
  split; [vm_compute; reflexivity|].
  split; [vm_compute; reflexivity|].
  split; [discriminate|].
  vm_compute. reflexivity.
Qed.
